(** * The service worker of the Vaperelax theme: caching layer

    A shallow embedding of the service-worker part of
    [src/assets/js/main.js] (request classification, the three caching
    strategies, install/activate, the offline resolver, background sync
    and the [CACHE_URLS] command), with the properties of its
    specification stated and proved over it. *)

From Stdlib Require Import ZArith Lia.
From stdpp Require Import base option list strings gmap fin_maps.

Local Open Scope string_scope.
Local Open Scope list_scope.
Local Open Scope Z_scope.

(** ** JavaScript string predicates *)

Module JsString.

(** [s.startsWith(pat)] *)
Definition startsWith (s pat : string) : bool := String.prefix pat s.

(** [s.includes(pat)]: [pat] starts at some position of [s]. *)
Fixpoint includes (s pat : string) : bool :=
  startsWith s pat ||
  match s with
  | EmptyString => false
  | String _ s' => includes s' pat
  end.

(** [s.endsWith(pat)]: some suffix of [s] is [pat]. *)
Fixpoint endsWith (s pat : string) : bool :=
  String.eqb s pat ||
  match s with
  | EmptyString => false
  | String _ s' => endsWith s' pat
  end.

End JsString.

(** ** Constants of the worker *)

Definition STATIC_CACHE : string := "vaperelax-static-v1".
Definition DYNAMIC_CACHE : string := "vaperelax-dynamic-v1".
Definition IMAGE_CACHE : string := "vaperelax-images-v1".

Definition STATIC_ASSETS : list string :=
  [ "/";
    "/assets/css/main.css";
    "/assets/js/main.js";
    "/assets/fonts/arabic-font.woff2";
    "/assets/images/logo.png";
    "/assets/images/placeholder-product.jpg";
    "/offline.html" ].

Record CacheStrategies := {
  static : list string;
  networkFirstPatterns : list string;
  cacheFirstPatterns : list string;
  staleWhileRevalidatePatterns : list string
}.

(** [CACHE_STRATEGIES]; the fields [networkFirst], [cacheFirst] and
    [staleWhileRevalidate] carry a [Patterns] suffix here because the
    functions of the same names follow. *)
Definition CACHE_STRATEGIES : CacheStrategies := {|
  static := [ "/assets/"; "/fonts/" ];
  networkFirstPatterns := [ "/api/"; "/search" ];
  cacheFirstPatterns := [ "/images/"; ".jpg"; ".jpeg"; ".png"; ".webp"; ".svg" ];
  staleWhileRevalidatePatterns := [ "/products/"; "/categories/"; "/brands/" ]
|}.

(** ** Helper functions to determine the request type *)

(** [Array.prototype.some] *)
Definition some {A} (p : A -> bool) (l : list A) : bool := existsb p l.

Definition isStaticAsset (pathname : string) : bool :=
  some (fun pattern => JsString.includes pathname pattern)
       (static CACHE_STRATEGIES).

Definition isImage (pathname : string) : bool :=
  some (fun pattern => JsString.includes pathname pattern
                       || JsString.endsWith pathname pattern)
       (cacheFirstPatterns CACHE_STRATEGIES).

Definition isApiCall (pathname : string) : bool :=
  some (fun pattern => JsString.includes pathname pattern)
       (networkFirstPatterns CACHE_STRATEGIES).

Definition isPage (pathname : string) : bool :=
  some (fun pattern => JsString.includes pathname pattern)
       (staleWhileRevalidatePatterns CACHE_STRATEGIES).

(** ** Requests, responses and the worker's world *)

Record Response := {
  status : Z;
  statusText : string;
  headers : list (string * string);
  body : string
}.

(** [response.ok]: the status is in the range 200-299. *)
Definition ok (r : Response) : bool :=
  (200 <=? status r) && (status r <=? 299).

(** A request as the worker reads it: [request.url], the [protocol] and
    the [pathname] of [new URL(request.url)], [request.method] and
    [request.mode].  A URL that is a cache key is written relative to the
    worker's origin, the way the worker itself writes ['/offline.html']. *)
Record Request := {
  url : string;
  protocol : string;
  pathname : string;
  method : string;
  mode : string
}.

(** The [options] of a stored failed request and the record itself
    ([keyPath: 'id'], [autoIncrement]). *)
Record FetchOptions := {
  opt_method : string;
  opt_headers : list (string * string);
  opt_body : string
}.

Record RequestData := {
  entry_id : N;
  entry_url : string;
  entry_options : FetchOptions;
  entry_timestamp : Z
}.

Inductive JsError :=
| NetworkError (method url : string)
| TypeError (msg : string).

(** The network answers the [n]-th [fetch] of a run for a method and a URL
    with a response, or not at all ([None]: the promise rejects). *)
Definition Network : Type := nat -> string -> string -> option Response.

(** Everything the worker reads or writes: the cache storage (partition
    name to partition, a partition maps a URL to its stored response), the
    network and the log of the calls made to it, the [failed-requests]
    object store in key order, the console, and the two lifecycle
    signals. *)
Record World := {
  caches : gmap string (gmap string Response);
  network : Network;
  calls : list (string * string);
  failedRequests : list RequestData;
  console : list string;
  skipWaitingCalled : bool;
  clientsClaimed : bool
}.

Definition set_caches (f : gmap string (gmap string Response) ->
                           gmap string (gmap string Response)) (w : World) :=
  {| caches := f (caches w); network := network w; calls := calls w;
     failedRequests := failedRequests w; console := console w;
     skipWaitingCalled := skipWaitingCalled w;
     clientsClaimed := clientsClaimed w |}.

Definition add_call (c : string * string) (w : World) :=
  {| caches := caches w; network := network w; calls := calls w ++ [c];
     failedRequests := failedRequests w; console := console w;
     skipWaitingCalled := skipWaitingCalled w;
     clientsClaimed := clientsClaimed w |}.

Definition set_failedRequests (f : list RequestData -> list RequestData)
    (w : World) :=
  {| caches := caches w; network := network w; calls := calls w;
     failedRequests := f (failedRequests w); console := console w;
     skipWaitingCalled := skipWaitingCalled w;
     clientsClaimed := clientsClaimed w |}.

Definition add_console (msg : string) (w : World) :=
  {| caches := caches w; network := network w; calls := calls w;
     failedRequests := failedRequests w; console := console w ++ [msg];
     skipWaitingCalled := skipWaitingCalled w;
     clientsClaimed := clientsClaimed w |}.

Definition set_skipWaiting (w : World) :=
  {| caches := caches w; network := network w; calls := calls w;
     failedRequests := failedRequests w; console := console w;
     skipWaitingCalled := true;
     clientsClaimed := clientsClaimed w |}.

Definition set_claimed (w : World) :=
  {| caches := caches w; network := network w; calls := calls w;
     failedRequests := failedRequests w; console := console w;
     skipWaitingCalled := skipWaitingCalled w;
     clientsClaimed := true |}.

(** ** Promises: a state and error monad over the world

    An [async] function is run to completion on the world: it resolves
    with a value or rejects with an error, and leaves a new world.  Work
    that the source starts without awaiting it ([cache.put] in the
    strategies, the background refresh of stale-while-revalidate) is
    applied at the point where it is started. *)

Inductive Outcome (A : Type) :=
| Resolved (a : A)
| Rejected (e : JsError).
Arguments Resolved {A} a.
Arguments Rejected {A} e.

Definition Async (A : Type) : Type := World -> Outcome A * World.

#[global] Instance Async_ret : MRet Async :=
  fun A a w => (Resolved a, w).

#[global] Instance Async_bind : MBind Async :=
  fun A B k m w =>
    match m w with
    | (Resolved a, w') => k a w'
    | (Rejected e, w') => (Rejected e, w')
    end.

#[global] Instance Async_fmap : FMap Async :=
  fun A B f m => m ≫= fun a => mret (f a).

Definition throw {A} (e : JsError) : Async A :=
  fun w => (Rejected e, w).

(** [try { body } catch (error) { handler }] *)
Definition try_catch {A} (body : Async A) (handler : JsError -> Async A)
    : Async A :=
  fun w =>
    match body w with
    | (Resolved a, w') => (Resolved a, w')
    | (Rejected e, w') => handler e w'
    end.

(** [for (const x of xs) { f x }] *)
Fixpoint for_of {A} (xs : list A) (f : A -> Async unit) : Async unit :=
  match xs with
  | [] => mret ()
  | x :: xs' => f x ≫= fun _ => for_of xs' f
  end.

Definition console_log (msg : string) : Async unit :=
  fun w => (Resolved (), add_console msg w).

(** ** The platform: fetch, the cache storage, the object store *)

(** [fetch]: the call is logged and the network decides its outcome. *)
Definition fetch_raw (m u : string) : Async Response :=
  fun w =>
    let w' := add_call (m, u) w in
    match network w (length (calls w)) m u with
    | Some r => (Resolved r, w')
    | None => (Rejected (NetworkError m u), w')
    end.

(** [fetch(request)] *)
Definition fetch (request : Request) : Async Response :=
  fetch_raw (method request) (url request).

(** [caches.open(cacheName)]: the partition is created when it does not
    exist; the handle is its name. *)
Definition caches_open (cacheName : string) : Async string :=
  fun w =>
    (Resolved cacheName,
     match caches w !! cacheName with
     | Some _ => w
     | None => set_caches (insert cacheName ∅) w
     end).

Definition partition (cacheName : string) (w : World) : gmap string Response :=
  default ∅ (caches w !! cacheName).

(** [cache.match(key)]: the stored response, or [undefined].  The store
    is keyed by the URL, as the platform's is for GET requests; for a
    request of another method the platform finds nothing. *)
Definition cache_match (cache key : string) : Async (option Response) :=
  fun w => (Resolved (partition cache w !! key), w).

(** [cache.put(key, response)]: replaces the entry of the key.  (Responses
    that the platform refuses to store, as partial content is, are a
    non-goal of the specification and are not modelled; nor is the
    refusal of a request whose method is not GET.) *)
Definition cache_put (cache key : string) (r : Response) : Async unit :=
  fun w =>
    (Resolved (),
     set_caches (insert cache (<[key := r]> (partition cache w))) w).

(** [caches.keys()] and [caches.delete(cacheName)] *)
Definition caches_keys : Async (list string) :=
  fun w => (Resolved (elements (dom (caches w))), w).

Definition caches_delete (cacheName : string) : Async bool :=
  fun w =>
    (Resolved (bool_decide (is_Some (caches w !! cacheName))),
     set_caches (delete cacheName) w).

(** [cache.addAll(urls)]: every URL is requested; when one request fails or
    its response is not [ok] the promise rejects and nothing is stored,
    otherwise every response is stored under its URL. *)
Fixpoint fetch_each (urls : list string) : Async (list (string * option Response)) :=
  match urls with
  | [] => mret []
  | u :: rest =>
      o ← try_catch (Some <$> fetch_raw "GET" u) (fun _ => mret None);
      os ← fetch_each rest;
      mret ((u, o) :: os)
  end.

Definition fetched_ok (o : string * option Response) : bool :=
  match o.2 with
  | Some r => ok r
  | None => false
  end.

Definition cache_addAll (cache : string) (urls : list string) : Async unit :=
  os ← fetch_each urls;
  if forallb fetched_ok os
  then for_of os (fun o =>
         match o.2 with
         | Some r => cache_put cache o.1 r
         | None => mret ()
         end)
  else throw (TypeError "Failed to execute 'addAll' on 'Cache'").

(** [self.skipWaiting()] and [self.clients.claim()] *)
Definition skipWaiting : Async unit :=
  fun w => (Resolved (), set_skipWaiting w).

Definition clients_claim : Async unit :=
  fun w => (Resolved (), set_claimed w).

(** IndexedDB.  [openDB] wraps the request of [indexedDB.open] in a promise
    and resolves with the database.  The methods of an object store are
    not wrapped: [getAll()] and [delete(key)] return an [IDBRequest], whose
    result arrives with its [onsuccess] event.  A value of the worker is
    here an array of records or such a request object (with the result it
    will carry). *)
Inductive JsValue :=
| JsArray (records : list RequestData)
| JsIDBRequest (result : list RequestData).

Definition openDB : Async unit := mret ().

(** [store.getAll()]: the request for all records, in key order. *)
Definition store_getAll : Async JsValue :=
  fun w => (Resolved (JsIDBRequest (failedRequests w)), w).

(** [store.delete(key)]: the request is queued in its transaction and
    removes the record of the key. *)
Definition store_delete (key : N) : Async unit :=
  fun w =>
    (Resolved (),
     set_failedRequests (filter (fun rd => entry_id rd ≠ key)) w).

(** [for (const x of v) { f x }] for a value: an array is iterated, a
    request object is not iterable. *)
Definition for_of_value (v : JsValue) (f : RequestData -> Async unit)
    : Async unit :=
  match v with
  | JsArray records => for_of records f
  | JsIDBRequest _ => throw (TypeError "requests is not iterable")
  end.

(** [JSON.stringify] of an object whose values are strings. *)
Definition dquote : string := String (Ascii.ascii_of_nat 34) EmptyString.

Fixpoint JSON_members (kvs : list (string * string)) : string :=
  match kvs with
  | [] => EmptyString
  | [(k, v)] => dquote +:+ k +:+ dquote +:+ ":" +:+ dquote +:+ v +:+ dquote
  | (k, v) :: rest =>
      dquote +:+ k +:+ dquote +:+ ":" +:+ dquote +:+ v +:+ dquote +:+ ","
      +:+ JSON_members rest
  end.

Definition JSON_stringify (kvs : list (string * string)) : string :=
  "{" +:+ JSON_members kvs +:+ "}".

(** ** The worker *)

(** *** Install and activate

    [install] and [activate] are the promises the two listeners hand to
    [event.waitUntil]. *)

Definition install : Async unit :=
  _ ← console_log "Service Worker: Installing...";
  try_catch
    (cache ← caches_open STATIC_CACHE;
     _ ← console_log "Service Worker: Caching static assets";
     _ ← cache_addAll cache STATIC_ASSETS;
     _ ← console_log "Service Worker: Static assets cached";
     skipWaiting)
    (fun error =>
       console_log "Service Worker: Failed to cache static assets").

(** [Promise.all] over the mapped names: every deletion is made, here in
    the order of the names. *)
Definition activate : Async unit :=
  _ ← console_log "Service Worker: Activating...";
  cacheNames ← caches_keys;
  _ ← for_of cacheNames (fun cacheName =>
        if negb (String.eqb cacheName STATIC_CACHE)
           && negb (String.eqb cacheName DYNAMIC_CACHE)
           && negb (String.eqb cacheName IMAGE_CACHE)
        then
          _ ← console_log "Service Worker: Deleting old cache";
          _ ← caches_delete cacheName;
          mret ()
        else mret ());
  _ ← console_log "Service Worker: Activated";
  clients_claim.

(** What the runtime makes of the promise an install or activate listener
    passed to [waitUntil]: the step succeeds when the promise resolves and
    fails when it rejects (a version whose install fails is discarded and
    never activates). *)
Inductive StepResult := StepSucceeded | StepFailed.

Definition waitUntil {A} (p : Async A) (w : World) : StepResult * World :=
  match p w with
  | (Resolved _, w') => (StepSucceeded, w')
  | (Rejected _, w') => (StepFailed, w')
  end.

(** *** The strategies

    A strategy resolves with a response or with [undefined] ([None]), or
    rejects. *)

Definition cacheFirst (request : Request) (cacheName : string)
    : Async (option Response) :=
  cache ← caches_open cacheName;
  cachedResponse ← cache_match cache (url request);
  match cachedResponse with
  | Some r => mret (Some r)
  | None =>
      try_catch
        (networkResponse ← fetch request;
         _ ← (if ok networkResponse
              then cache_put cache (url request) networkResponse
              else mret ());
         mret (Some networkResponse))
        (fun error =>
           _ ← console_log "Cache First: Network failed";
           throw error)
  end.

Definition networkFirst (request : Request) (cacheName : string)
    : Async (option Response) :=
  try_catch
    (networkResponse ← fetch request;
     _ ← (if ok networkResponse
          then cache ← caches_open cacheName;
               cache_put cache (url request) networkResponse
          else mret ());
     mret (Some networkResponse))
    (fun error =>
       _ ← console_log "Network First: Network failed, trying cache";
       cache ← caches_open cacheName;
       cachedResponse ← cache_match cache (url request);
       match cachedResponse with
       | Some r => mret (Some r)
       | None => throw error
       end).

Definition staleWhileRevalidate (request : Request) (cacheName : string)
    : Async (option Response) :=
  cache ← caches_open cacheName;
  cachedResponse ← cache_match cache (url request);
  networkResponsePromise ←
    try_catch
      (networkResponse ← fetch request;
       _ ← (if ok networkResponse
            then cache_put cache (url request) networkResponse
            else mret ());
       mret (Some networkResponse))
      (fun error =>
         _ ← console_log "Stale While Revalidate: Network update failed";
         mret None);
  match cachedResponse with
  | Some r => mret (Some r)
  | None => mret networkResponsePromise
  end.

(** *** Offline scenarios *)

Definition offlineResponse : Response := {|
  status := 503;
  statusText := "Service Unavailable";
  headers := [ ("Content-Type", "application/json") ];
  body := JSON_stringify
            [ ("error", "Offline");
              ("message", "لا يوجد اتصال بالإنترنت") ]
|}.

Definition handleOffline (request : Request) : Async (option Response) :=
  if String.eqb (mode request) "navigate" then
    cache ← caches_open STATIC_CACHE;
    cache_match cache "/offline.html"
  else if isImage (pathname request) then
    cache ← caches_open STATIC_CACHE;
    cache_match cache "/assets/images/placeholder-product.jpg"
  else
    mret (Some offlineResponse).

(** *** Dispatch *)

Definition handleRequest (request : Request) : Async (option Response) :=
  try_catch
    (if isStaticAsset (pathname request) then
       cacheFirst request STATIC_CACHE
     else if isImage (pathname request) then
       cacheFirst request IMAGE_CACHE
     else if isApiCall (pathname request) then
       networkFirst request DYNAMIC_CACHE
     else if isPage (pathname request) then
       staleWhileRevalidate request DYNAMIC_CACHE
     else
       networkFirst request DYNAMIC_CACHE)
    (fun error =>
       _ ← console_log "Service Worker: Request failed";
       handleOffline request).

(** The first fetch listener (main.js 931-946): [None] when it leaves the
    request to the browser, otherwise what it passes to
    [event.respondWith].  The worker registers a second fetch listener
    (1270-1285), which passes [handleRequest(event.request)] to
    [event.respondWith] whatever the method and the scheme; it is not
    part of this model. *)
Definition on_fetch (request : Request)
    : Async (option (option Response)) :=
  if negb (String.eqb (method request) "GET") then mret None
  else if negb (JsString.startsWith (protocol request) "http") then mret None
  else Some <$> handleRequest request.

(** *** Background sync *)

(** The body of the loop of [doBackgroundSync]. *)
Definition retry (requestData : RequestData) : Async unit :=
  try_catch
    (_ ← fetch_raw (opt_method (entry_options requestData))
                   (entry_url requestData);
     _ ← store_delete (entry_id requestData);
     console_log "Background sync: Request retried successfully")
    (fun error =>
       console_log "Background sync: Request still failing").

(** [await store.getAll()] awaits a value that is no promise, and so
    resolves with that value, the request object. *)
Definition doBackgroundSync : Async unit :=
  _ ← console_log "Service Worker: Background sync triggered";
  try_catch
    (db ← openDB;
     requests ← store_getAll;
     for_of_value requests retry)
    (fun error =>
       console_log "Background sync: Failed to process requests").

(** *** Cache management *)

Definition cacheUrls (urls : list string) : Async unit :=
  cache ← caches_open DYNAMIC_CACHE;
  for_of urls (fun u =>
    try_catch
      (response ← fetch_raw "GET" u;
       if ok response
       then _ ← cache_put cache u response;
            console_log "Service Worker: Cached URL"
       else mret ())
      (fun error => console_log "Service Worker: Failed to cache URL")).

Definition clearCache (cacheName : string) : Async unit :=
  try_catch
    (_ ← caches_delete cacheName;
     console_log "Service Worker: Cache cleared")
    (fun error => console_log "Service Worker: Failed to clear cache").

Inductive Message :=
| SKIP_WAITING
| CACHE_URLS (urls : list string)
| CLEAR_CACHE (cacheName : string).

Definition on_message (m : Message) : Async unit :=
  match m with
  | SKIP_WAITING => skipWaiting
  | CACHE_URLS urls => cacheUrls urls
  | CLEAR_CACHE cacheName => clearCache cacheName
  end.


(** ** The vocabulary of the specification *)

Inductive ResourceClass :=
| StaticAsset
| Image
| ApiCall
| Page
| Unclassified.

Inductive Strategy :=
| CacheFirst
| NetworkFirst
| StaleWhileRevalidate.

(** A pattern set matches a path when one of its patterns occurs in it. *)
Definition matches (patterns : list string) (path : string) : bool :=
  some (fun pattern => JsString.includes path pattern) patterns.

(** The classes in their order of precedence, each with its pattern set. *)
Definition precedence : list (ResourceClass * list string) :=
  [ (StaticAsset, static CACHE_STRATEGIES);
    (Image, cacheFirstPatterns CACHE_STRATEGIES);
    (ApiCall, networkFirstPatterns CACHE_STRATEGIES);
    (Page, staleWhileRevalidatePatterns CACHE_STRATEGIES) ].

(** The classifier as the specification words it: the first class, in the
    order of precedence, whose pattern set matches the path, and
    [Unclassified] when none does. *)
Definition classify (path : string) : ResourceClass :=
  match List.find (fun cp => matches cp.2 path) precedence with
  | Some cp => cp.1
  | None => Unclassified
  end.

(** The strategy and the partition the specification gives each class. *)
Definition select (c : ResourceClass) : Strategy * string :=
  match c with
  | StaticAsset => (CacheFirst, STATIC_CACHE)
  | Image => (CacheFirst, IMAGE_CACHE)
  | ApiCall => (NetworkFirst, DYNAMIC_CACHE)
  | Page => (StaleWhileRevalidate, DYNAMIC_CACHE)
  | Unclassified => (NetworkFirst, DYNAMIC_CACHE)
  end.

Definition run_strategy (s : Strategy)
    : Request -> string -> Async (option Response) :=
  match s with
  | CacheFirst => cacheFirst
  | NetworkFirst => networkFirst
  | StaleWhileRevalidate => staleWhileRevalidate
  end.

(** The handler of the [catch] of [handleRequest]. *)
Definition on_failure (request : Request) (error : JsError)
    : Async (option Response) :=
  _ ← console_log "Service Worker: Request failed";
  handleOffline request.

(** The test of the activate listener on a partition name. *)
Definition unknown (cacheName : string) : bool :=
  negb (String.eqb cacheName STATIC_CACHE)
  && negb (String.eqb cacheName DYNAMIC_CACHE)
  && negb (String.eqb cacheName IMAGE_CACHE).

(** What one round of the loop of the activate listener does to the
    partitions and to the world. *)
Definition purge (m : gmap string (gmap string Response))
    (cacheName : string) : gmap string (gmap string Response) :=
  if unknown cacheName then delete cacheName m else m.

Definition activate_step (w : World) (cacheName : string) : World :=
  if unknown cacheName
  then set_caches (delete cacheName)
         (add_console "Service Worker: Deleting old cache" w)
  else w.

(** The Known Partition Set of this version. *)
Definition KnownPartitionSet : gset string :=
  {[ STATIC_CACHE; DYNAMIC_CACHE; IMAGE_CACHE ]}.

(** The partitions that exist in a world ([listPartitions()]). *)
Definition listPartitions (w : World) : gset string := dom (caches w).

(** The answers of a network to GET requests for a list of URLs made one
    after the other from call number [n] on. *)
Fixpoint answers (net : Network) (n : nat) (urls : list string)
    : list (string * option Response) :=
  match urls with
  | [] => []
  | u :: rest => (u, net n "GET" u) :: answers net (S n) rest
  end.

(** The manifest is fetched right after the calls the world has seen. *)
Definition manifest_answers (w : World) : list (string * option Response) :=
  answers (network w) (length (calls w)) STATIC_ASSETS.

(** Storing a list of fetched responses into a partition. *)
Definition put_fetched (m : gmap string Response)
    (o : string * option Response) : gmap string Response :=
  match o.2 with
  | Some r => <[o.1 := r]> m
  | None => m
  end.

(** The entries of a queue whose replay is rejected, the replays being
    made one after the other from call number [n] on. *)
Fixpoint still_failing (net : Network) (n : nat) (q : list RequestData)
    : list RequestData :=
  match q with
  | [] => []
  | rd :: rest =>
      match net n (opt_method (entry_options rd)) (entry_url rd) with
      | Some _ => still_failing net (S n) rest
      | None => rd :: still_failing net (S n) rest
      end
  end.

(** The replay of the [i]-th entry of the queue of a world is rejected. *)
Definition replay_fails (w : World) (i : nat) (rd : RequestData) : Prop :=
  network w (length (calls w) + i)%nat
          (opt_method (entry_options rd)) (entry_url rd) = None.

(** A network whose answer depends on the request only, not on when it is
    made. *)
Definition steady (net : Network) : Prop :=
  forall n n' m u, net n m u = net n' m u.

(** What [cacheUrls] stores for one URL on a steady network. *)
Definition cache_one (net : Network) (m : gmap string Response) (u : string)
    : gmap string Response :=
  match net O "GET" u with
  | Some r => if ok r then <[u := r]> m else m
  | None => m
  end.


(** Every stored response is a 2xx response. *)
Definition all_ok (w : World) : Prop :=
  forall c key r, partition c w !! key = Some r -> ok r = true.

(** ** The world after a platform call *)

Definition opened (c : string) (w : World) : World := (caches_open c w).2.

Definition stored (c key : string) (r : Response) (w : World) : World :=
  (cache_put c key r w).2.

Definition logged (msg : string) (w : World) : World := add_console msg w.

Definition called (request : Request) (w : World) : World :=
  add_call (method request, url request) w.

(** The answer of the network to the next call of the world. *)
Definition answer (w : World) (m u : string) : option Response :=
  network w (length (calls w)) m u.

(** The world after [cache.addAll] and its parts: the calls for a list of
    URLs, and the storing of what was fetched. *)
Definition called_all (urls : list string) (w : World) : World :=
  foldl (fun w u => add_call ("GET", u) w) w urls.

Definition store_fetched (c : string) (w : World)
    (o : string * option Response) : World :=
  match o.2 with
  | Some r => stored c o.1 r w
  | None => w
  end.

(** What one round of the loop of [doBackgroundSync] does to the world. *)
Definition replay_step (w : World) (rd : RequestData) : World :=
  let m := opt_method (entry_options rd) in
  let u := entry_url rd in
  match network w (length (calls w)) m u with
  | Some _ =>
      add_console "Background sync: Request retried successfully"
        (set_failedRequests (filter (fun x => entry_id x ≠ entry_id rd))
           (add_call (m, u) w))
  | None =>
      add_console "Background sync: Request still failing"
        (add_call (m, u) w)
  end.

(** What one round of the loop of [cacheUrls] does to the world. *)
Definition cacheUrls_step (w : World) (u : string) : World :=
  match network w (length (calls w)) "GET" u with
  | Some r =>
      if ok r
      then add_console "Service Worker: Cached URL"
             (stored DYNAMIC_CACHE u r (add_call ("GET", u) w))
      else add_call ("GET", u) w
  | None =>
      add_console "Service Worker: Failed to cache URL"
        (add_call ("GET", u) w)
  end.

(** The world after the [cache-urls] command has run [n] times in a row. *)
Definition replayed (urls : list string) (n : nat) (w : World) : World :=
  Nat.iter n (fun w => (cacheUrls urls w).2) w.

Arguments opened : simpl never.
Arguments stored : simpl never.
Arguments logged : simpl never.
Arguments called : simpl never.
Arguments answer : simpl never.

(** ** Worlds and requests used as examples *)

Module Examples.

Definition page200 : Response :=
  {| status := 200; statusText := "OK";
     headers := [ ("Content-Type", "text/html") ]; body := "<html>" |}.

Definition error500 : Response :=
  {| status := 500; statusText := "Internal Server Error";
     headers := []; body := "" |}.

Definition online : Network := fun _ _ _ => Some page200.
Definition offline : Network := fun _ _ _ => None.
Definition failing_server : Network := fun _ _ _ => Some error500.

(** A world with no partition, no call made and an empty queue. *)
Definition fresh (net : Network) : World :=
  {| caches := ∅; network := net; calls := []; failedRequests := [];
     console := []; skipWaitingCalled := false; clientsClaimed := false |}.

Definition get (u m : string) : Request :=
  {| url := u; protocol := "https:"; pathname := u;
     method := "GET"; mode := m |}.

(** The world in which the static partition holds the style sheet. *)
Definition css_cached : World :=
  {| caches := {[ STATIC_CACHE := {[ "/assets/css/main.css" := page200 ]} ]};
     network := offline; calls := []; failedRequests := [];
     console := []; skipWaitingCalled := false; clientsClaimed := false |}.

(** The world in which the static partition holds the offline page and the
    placeholder image. *)
Definition prepared : World :=
  {| caches := {[ STATIC_CACHE :=
                    {[ "/offline.html" := page200;
                       "/assets/images/placeholder-product.jpg" := page200 ]} ]};
     network := offline; calls := []; failedRequests := [];
     console := []; skipWaitingCalled := false; clientsClaimed := false |}.

(** A world with a partition of an older version next to the static one. *)
Definition upgraded : World :=
  {| caches := {[ STATIC_CACHE := ∅; "vaperelax-static-v0" := ∅ ]};
     network := offline; calls := []; failedRequests := [];
     console := []; skipWaitingCalled := false; clientsClaimed := false |}.

(** A queue of three failed requests, and a network that rejects the
    second call made to it and answers every other one. *)
Definition post (n : N) (u : string) : RequestData :=
  {| entry_id := n; entry_url := u;
     entry_options := {| opt_method := "POST"; opt_headers := [];
                         opt_body := "" |};
     entry_timestamp := 0 |}.

Definition three_failed : list RequestData :=
  [ post 1 "/api/cart/add"; post 2 "/api/cart/add"; post 3 "/api/order" ].

Definition second_call_fails : Network :=
  fun n _ _ => if Nat.eqb n 1 then None else Some page200.

Definition queued (net : Network) : World :=
  {| caches := ∅; network := net; calls := [];
     failedRequests := three_failed;
     console := []; skipWaitingCalled := false; clientsClaimed := false |}.

(** A network on which one of three URLs cannot be fetched. *)
Definition one_missing : Network :=
  fun _ _ u => if String.eqb u "/b" then None else Some page200.

Definition css : Request := get "/assets/css/main.css" "no-cors".
Definition cart : Request := get "/api/cart" "cors".
Definition product : Request := get "/products/42" "navigate".
Definition about : Request := get "/about" "navigate".

End Examples.

(** ** The footprint of a request

    What handling a request may do to a world: the network stays what it
    is, at most the one call for the request is made, and at most the
    entry of the request in one partition changes. *)
Definition footprint (request : Request) (c0 : string) (w w' : World)
    : Prop :=
  network w' = network w
  /\ (calls w' = calls w
      \/ calls w' = calls w ++ [(method request, url request)])
  /\ (forall c key, c ≠ c0 \/ key ≠ url request ->
        partition c w' !! key = partition c w !! key).

(** * The page side: [VaperelaxTheme]

    The form validation and the image set-up of the theme object.  A
    JavaScript string is the list of its UTF-16 code units. *)

Module Theme.

(** The code units of an ASCII literal. *)
Definition js (s : string) : list N :=
  Ascii.N_of_ascii <$> String.list_ascii_of_string s.

(** ** Regular expressions

    The patterns of the theme use character classes, sequence,
    alternation and repetition, and are anchored at both ends, so that
    [regex.test(s)] holds exactly when the whole of [s] is in the language
    of the pattern.  [test] decides this by derivatives. *)
Inductive Regex :=
| Never
| Empty
| Class (p : N -> bool)
| Seq (r1 r2 : Regex)
| Alt (r1 r2 : Regex)
| Star (r : Regex).

(** [r+], [r?], [r{n}], a literal character and a literal string *)
Definition Plus (r : Regex) : Regex := Seq r (Star r).
Definition Opt (r : Regex) : Regex := Alt r Empty.

Fixpoint Repeat (n : nat) (r : Regex) : Regex :=
  match n with
  | O => Empty
  | S n' => Seq r (Repeat n' r)
  end.

Definition Lit (c : N) : Regex := Class (N.eqb c).

Fixpoint Lits (cs : list N) : Regex :=
  match cs with
  | [] => Empty
  | c :: cs' => Seq (Lit c) (Lits cs')
  end.

Fixpoint nullable (r : Regex) : bool :=
  match r with
  | Never => false
  | Empty => true
  | Class _ => false
  | Seq r1 r2 => nullable r1 && nullable r2
  | Alt r1 r2 => nullable r1 || nullable r2
  | Star _ => true
  end.

Fixpoint deriv (c : N) (r : Regex) : Regex :=
  match r with
  | Never => Never
  | Empty => Never
  | Class p => if p c then Empty else Never
  | Seq r1 r2 =>
      if nullable r1
      then Alt (Seq (deriv c r1) r2) (deriv c r2)
      else Seq (deriv c r1) r2
  | Alt r1 r2 => Alt (deriv c r1) (deriv c r2)
  | Star r1 => Seq (deriv c r1) (Star r1)
  end.

(** [regex.test(s)] for a pattern anchored with [^] and [$] *)
Fixpoint test (r : Regex) (s : list N) : bool :=
  match s with
  | [] => nullable r
  | c :: s' => test (deriv c r) s'
  end.

(** The language of a pattern. *)
Inductive Matches : Regex -> list N -> Prop :=
| MEmpty : Matches Empty []
| MClass p c : p c = true -> Matches (Class p) [c]
| MSeq r1 r2 s1 s2 :
    Matches r1 s1 -> Matches r2 s2 -> Matches (Seq r1 r2) (s1 ++ s2)
| MAltL r1 r2 s : Matches r1 s -> Matches (Alt r1 r2) s
| MAltR r1 r2 s : Matches r2 s -> Matches (Alt r1 r2) s
| MStarNil r : Matches (Star r) []
| MStarApp r s1 s2 :
    Matches r s1 -> Matches (Star r) s2 -> Matches (Star r) (s1 ++ s2).

(** ** Characters *)

(** [\s], and what [trim] strips: white space and line terminators. *)
Definition isWhiteSpace (c : N) : bool :=
  (N.eqb c 9 || N.eqb c 10 || N.eqb c 11 || N.eqb c 12 || N.eqb c 13
   || N.eqb c 32 || N.eqb c 160 || N.eqb c 5760
   || (N.leb 8192 c && N.leb c 8202)
   || N.eqb c 8232 || N.eqb c 8233 || N.eqb c 8239 || N.eqb c 8287
   || N.eqb c 12288 || N.eqb c 65279)%N.

Definition at_sign : N := 64%N.
Definition dot : N := 46%N.

(** [[^\s@]] *)
Definition notSpaceAt (c : N) : bool :=
  negb (isWhiteSpace c) && negb (N.eqb c at_sign).

(** [[0-9]] and [[5]] *)
Definition isDigit (c : N) : bool := (N.leb 48 c && N.leb c 57)%N.
Definition isFive (c : N) : bool := N.eqb c 53%N.

(** [/^[^\s@]+@[^\s@]+\.[^\s@]+$/] *)
Definition emailRegex : Regex :=
  Seq (Plus (Class notSpaceAt))
      (Seq (Lit at_sign)
           (Seq (Plus (Class notSpaceAt))
                (Seq (Lit dot) (Plus (Class notSpaceAt))))).

(** [/^(\+966|0)?[5][0-9]{8}$/] *)
Definition phoneRegex : Regex :=
  Seq (Opt (Alt (Lits (js "+966")) (Lit 48%N)))
      (Seq (Class isFive) (Repeat 8 (Class isDigit))).

(** ** Strings *)

Fixpoint dropWhile (p : N -> bool) (s : list N) : list N :=
  match s with
  | [] => []
  | c :: s' => if p c then dropWhile p s' else s
  end.

(** [s.trim()] *)
Definition trim (s : list N) : list N :=
  reverse (dropWhile isWhiteSpace (reverse (dropWhile isWhiteSpace s))).

(** [s.replace(/\s/g, '')] *)
Definition removeSpaces (s : list N) : list N :=
  List.filter (fun c => negb (isWhiteSpace c)) s.

(** ** Forms

    A control of a form with what the validation reads and writes: its
    value, its type, whether it carries [required], its parent node, and
    whether its class list holds [error].  The form is modelled by what
    the validation sees of its tree: its controls and the [.field-error]
    elements below it, in document order, each with the element it is a
    child of; and, for every element, the elements it lies within (its
    ancestors in the form).  A control is named by its place among the
    controls.  An error element holds text only, and a control is not
    itself an error element. *)
Record Control := {
  value : list N;
  type : string;
  required : bool;
  parentNode : nat;
  errorClass : bool
}.

Record ErrorElement := {
  textContent : string;
  cssText : string
}.

Inductive Item :=
| control (field : Control)
| fieldError (parent : nat) (e : ErrorElement).

Record Form := {
  items : list Item;
  ancestors : nat -> list nat
}.

Definition set_errorClass (b : bool) (field : Control) : Control :=
  {| value := value field; type := type field; required := required field;
     parentNode := parentNode field; errorClass := b |}.

Definition parentOf (x : Item) : nat :=
  match x with
  | control field => parentNode field
  | fieldError parent _ => parent
  end.

Definition controlsOf (l : list Item) : list Control :=
  omap (fun x => match x with
                 | control field => Some field
                 | fieldError _ _ => None
                 end) l.

(** [form.querySelectorAll('input, textarea, select')] *)
Definition controls (f : Form) : list Control := controlsOf (items f).

(** Whether the element [q] is the element [p] or lies within it. *)
Definition within (f : Form) (p q : nat) : bool :=
  Nat.eqb q p || existsb (Nat.eqb p) (ancestors f q).

(** Whether an item is an error element among the descendants of the
    element that [inP] describes. *)
Definition isErrorIn (inP : nat -> bool) (x : Item) : bool :=
  match x with
  | fieldError parent _ => inP parent
  | control _ => false
  end.

(** [querySelector('.field-error')] on an element: the place of the first
    error element among its descendants. *)
Fixpoint querySelector (inP : nat -> bool) (l : list Item) : option nat :=
  match l with
  | [] => None
  | x :: rest =>
      if isErrorIn inP x then Some O else S <$> querySelector inP rest
  end.

(** [appendChild] on an element: the new child comes after every item
    within the element. *)
Fixpoint appendChild (inP : nat -> bool) (x : Item) (l : list Item)
    : list Item :=
  match l with
  | [] => [x]
  | y :: rest =>
      if inP (parentOf y) && negb (existsb (fun z => inP (parentOf z)) rest)
      then y :: x :: rest
      else y :: appendChild inP x rest
  end.

(** The assignments to [textContent] and [style.cssText]. *)
Definition restyle (shown : ErrorElement) (x : Item) : Item :=
  match x with
  | fieldError parent _ => fieldError parent shown
  | control field => control field
  end.

(** A change of the class list of the control at place [i]. *)
Fixpoint setControl (i : nat) (g : Control -> Control) (l : list Item)
    : list Item :=
  match l with
  | [] => []
  | control field :: rest =>
      match i with
      | O => control (g field) :: rest
      | S j => control field :: setControl j g rest
      end
  | x :: rest => x :: setControl i g rest
  end.

(** The error elements among the descendants of an element, in document
    order. *)
Definition errorsIn (inP : nat -> bool) (l : list Item)
    : list ErrorElement :=
  omap (fun x => match x with
                 | fieldError parent e => if inP parent then Some e else None
                 | control _ => None
                 end) l.

Definition errorsBelow (p : nat) (f : Form) : list ErrorElement :=
  errorsIn (within f p) (items f).

Definition requiredMessage : string := "هذا الحقل مطلوب".
Definition emailMessage : string := "يرجى إدخال بريد إلكتروني صحيح".
Definition phoneMessage : string := "يرجى إدخال رقم هاتف صحيح".

Definition fieldErrorStyle : string := "
            color: #e74c3c;
            font-size: 0.875rem;
            margin-top: 0.25rem;
            display: block;
        ".

(** [showFieldError(field, message)]: the first error element among the
    descendants of the parent is reused, and one is appended to the
    parent only when there is none. *)
Definition showFieldError (i : nat) (message : string) (f : Form) : Form :=
  match controls f !! i with
  | None => f
  | Some field =>
      let l := setControl i (set_errorClass true) (items f) in
      let inP := within f (parentNode field) in
      let shown := {| textContent := message; cssText := fieldErrorStyle |} in
      {| items :=
           match querySelector inP l with
           | Some k => alter (restyle shown) k l
           | None => appendChild inP (fieldError (parentNode field) shown) l
           end;
         ancestors := ancestors f |}
  end.

(** [clearFieldError(field)]: the first error element among the
    descendants of the parent, if any, is removed. *)
Definition clearFieldError (i : nat) (f : Form) : Form :=
  match controls f !! i with
  | None => f
  | Some field =>
      let l := setControl i (set_errorClass false) (items f) in
      let inP := within f (parentNode field) in
      {| items :=
           match querySelector inP l with
           | Some k => delete k l
           | None => l
           end;
         ancestors := ancestors f |}
  end.

Definition isEmpty (s : list N) : bool :=
  match s with
  | [] => true
  | _ => false
  end.

(** The decision of [validateField]: [isValid] and [errorMessage]. *)
Definition verdict (field : Control) : bool * string :=
  let value := trim (value field) in
  if required field && isEmpty value then
    (false, requiredMessage)
  else if String.eqb (type field) "email" && negb (isEmpty value) then
    if negb (test emailRegex value)
    then (false, emailMessage)
    else (true, EmptyString)
  else if String.eqb (type field) "tel" && negb (isEmpty value) then
    if negb (test phoneRegex (removeSpaces value))
    then (false, phoneMessage)
    else (true, EmptyString)
  else (true, EmptyString).

Definition validateField (i : nat) (f : Form) : bool * Form :=
  match controls f !! i with
  | None => (true, f)
  | Some field =>
      let '(isValid, errorMessage) := verdict field in
      (isValid,
       if negb isValid
       then showFieldError i errorMessage f
       else clearFieldError i f)
  end.

(** [validateForm(form)]: every control is validated, in order. *)
Definition validateForm (f : Form) : bool * Form :=
  foldl (fun '(isValid, f) i =>
           let '(fieldValid, f') := validateField i f in
           (if negb fieldValid then false else isValid, f'))
        (true, f) (seq 0 (length (controls f))).

(** The listeners of [setupFormValidation]: whether the submit is
    prevented, and the form afterwards. *)
Definition onSubmit (f : Form) : bool * Form :=
  let '(isValid, f') := validateForm f in (negb isValid, f').

Definition onBlur (i : nat) (f : Form) : Form := (validateField i f).2.

Definition onInput (i : nat) (f : Form) : Form := clearFieldError i f.

(** What the validation writes into a control. *)
Definition marked (field : Control) : Control :=
  set_errorClass (negb (verdict field).1) field.

(** The error elements below the parent of a control after the control
    has been validated. *)
Definition shownFor (field : Control) (errors : list ErrorElement)
    : list ErrorElement :=
  if (verdict field).1
  then tail errors
  else {| textContent := (verdict field).2; cssText := fieldErrorStyle |}
       :: tail errors.

(** A form (element 0) with three controls under two of its children
    (elements 1 and 2). *)
Definition sampleForm : Form :=
  {| items :=
       [ control {| value := js "  "; type := "text"; required := true;
                    parentNode := 1; errorClass := false |};
         control {| value := js "user@example.sa"; type := "email";
                    required := true; parentNode := 2;
                    errorClass := true |};
         control {| value := js "12345"; type := "tel"; required := false;
                    parentNode := 2; errorClass := false |} ];
     ancestors := fun q => match q with
                           | 1%nat | 2%nat => [0%nat]
                           | _ => []
                           end |}.

(** A form (element 0) with a control of its own and a control in a
    child (element 1): the parent of the first control holds the parent
    of the second. *)
Definition nestedForm : Form :=
  {| items :=
       [ control {| value := js "bad"; type := "email"; required := false;
                    parentNode := 0; errorClass := false |};
         control {| value := []; type := "text"; required := true;
                    parentNode := 1; errorClass := false |} ];
     ancestors := fun q => match q with
                           | 1%nat => [0%nat]
                           | _ => []
                           end |}.

(** ** Images

    An image with what the image set-up reads and writes: its [loading]
    attribute and its [data-src] attribute, each absent or a string. *)
Record Img := {
  loading : option string;
  dataSrc : option (list N)
}.

Definition set_loading (v : string) (img : Img) : Img :=
  {| loading := Some v; dataSrc := dataSrc img |}.

Definition set_dataSrc (v : list N) (img : Img) : Img :=
  {| loading := loading img; dataSrc := Some v |}.

(** [optimizeImages]: the images without a [loading] attribute are
    numbered from 0 in document order, and those whose number is greater
    than 3 are made lazy. *)
Fixpoint optimizeFrom (index : nat) (imgs : list Img) : list Img :=
  match imgs with
  | [] => []
  | img :: rest =>
      match loading img with
      | Some _ => img :: optimizeFrom index rest
      | None =>
          (if Nat.ltb 3 index then set_loading "lazy" img else img)
          :: optimizeFrom (S index) rest
      end
  end.

Definition optimizeImages (imgs : list Img) : list Img :=
  optimizeFrom 0 imgs.

Definition unattributed (img : Img) : bool :=
  match loading img with
  | Some _ => false
  | None => true
  end.

(** [s.startsWith(pat)] and [s.includes(pat)] on code units *)
Fixpoint startsWith (s pat : list N) : bool :=
  match pat, s with
  | [], _ => true
  | _ :: _, [] => false
  | p :: pat', c :: s' => N.eqb p c && startsWith s' pat'
  end.

Fixpoint includes (s pat : list N) : bool :=
  startsWith s pat ||
  match s with
  | [] => false
  | _ :: s' => includes s' pat
  end.

(** A letter of a pattern with the [i] flag: the letter in either case
    (no other code unit is equal to an ASCII letter under the flag). *)
Definition LitCI (lower : N) : Regex :=
  Class (fun c => N.eqb c lower || N.eqb c (lower - 32)%N).

Fixpoint LitsCI (cs : list N) : Regex :=
  match cs with
  | [] => Empty
  | c :: cs' => Seq (LitCI c) (LitsCI cs')
  end.

(** [/\.(jpg|jpeg|png)$/i], from the dot to the end of the string *)
Definition extensionRegex : Regex :=
  Seq (Lit dot)
      (Alt (Alt (LitsCI (js "jpg")) (LitsCI (js "jpeg"))) (LitsCI (js "png"))).

(** [s.replace(regex, replacement)] for a pattern that ends in [$]: the
    leftmost place from which the rest of the string matches is replaced,
    with all that follows it. *)
Fixpoint replaceToEnd (r : Regex) (replacement s : list N) : list N :=
  if test r s then replacement
  else match s with
       | [] => []
       | c :: s' => c :: replaceToEnd r replacement s'
       end.

(** What [setupImageOptimization] makes of one [data-src]. *)
Definition toWebP (src : list N) : list N :=
  if negb (isEmpty src) && negb (includes src (js ".webp"))
  then replaceToEnd extensionRegex (js ".webp") src
  else src.

(** [setupImageOptimization], given what [supportsWebP()] answers. *)
Definition setupImageOptimization (supportsWebP : bool) (imgs : list Img)
    : list Img :=
  if supportsWebP
  then (fun img =>
          match dataSrc img with
          | Some src =>
              if negb (isEmpty src) && negb (includes src (js ".webp"))
              then set_dataSrc
                     (replaceToEnd extensionRegex (js ".webp") src) img
              else img
          | None => img
          end) <$> imgs
  else imgs.

(** The parent of no control holds more than one error element among
    its descendants. *)
Definition tidy (f : Form) : Prop :=
  forall field, field ∈ controls f ->
    (length (errorsBelow (parentNode field) f) <= 1)%nat.

(** The parents of the controls lie apart: two controls have the same
    parent, or no element lies within the parents of both (neither
    parent holds the other). *)
Definition separate (f : Form) : Prop :=
  forall field field', field ∈ controls f -> field' ∈ controls f ->
    parentNode field <> parentNode field' ->
    forall q, within f (parentNode field) q = true ->
              within f (parentNode field') q = false.

End Theme.


(** * The search box (main.js 337-363)

    The [input] listener of one search input, with the timers it sets.
    Time is counted in milliseconds; a timer runs in the millisecond it
    is due, before any event of that millisecond.  [performSearch] is
    recorded by its calls (the time and the query). *)

Module Search.

(** A pending [setTimeout(() => this.performSearch(query, input), 300)]. *)
Record Timer := {
  id : nat;
  due : nat;
  query : list N
}.

Record State := {
  now : nat;
  nextId : nat;
  pending : list Timer;
  (** the variable [searchTimeout] of the listener, [None] for [undefined] *)
  searchTimeout : option nat;
  performSearch_calls : list (nat * list N);
  (** [style.display] of the [.search-results] container, when there is
      one *)
  resultsContainer : option string
}.

Definition initial : State :=
  {| now := 0; nextId := 1; pending := []; searchTimeout := None;
     performSearch_calls := []; resultsContainer := None |}.

Definition setTimeout (q : list N) (delay : nat) (s : State) : nat * State :=
  (nextId s,
   {| now := now s; nextId := S (nextId s);
      pending := pending s
                 ++ [{| id := nextId s; due := (now s + delay)%nat;
                        query := q |}];
      searchTimeout := searchTimeout s;
      performSearch_calls := performSearch_calls s;
      resultsContainer := resultsContainer s |}).

Definition clearTimeout (handle : option nat) (s : State) : State :=
  match handle with
  | Some i =>
      {| now := now s; nextId := nextId s;
         pending := List.filter (fun t => negb (Nat.eqb (id t) i)) (pending s);
         searchTimeout := searchTimeout s;
         performSearch_calls := performSearch_calls s;
         resultsContainer := resultsContainer s |}
  | None => s
  end.

Definition set_searchTimeout (handle : nat) (s : State) : State :=
  {| now := now s; nextId := nextId s; pending := pending s;
     searchTimeout := Some handle;
     performSearch_calls := performSearch_calls s;
     resultsContainer := resultsContainer s |}.

Definition hideSearchResults (s : State) : State :=
  match resultsContainer s with
  | Some _ =>
      {| now := now s; nextId := nextId s; pending := pending s;
         searchTimeout := searchTimeout s;
         performSearch_calls := performSearch_calls s;
         resultsContainer := Some "none" |}
  | None => s
  end.

Definition performSearch (q : list N) (s : State) : State :=
  {| now := now s; nextId := nextId s; pending := pending s;
     searchTimeout := searchTimeout s;
     performSearch_calls := performSearch_calls s ++ [(now s, q)];
     resultsContainer := resultsContainer s |}.

(** The [input] listener, for the value of the input. *)
Definition onInput (value : list N) (s : State) : State :=
  let s := clearTimeout (searchTimeout s) s in
  let q := Theme.trim value in
  if Nat.leb 2 (length q)
  then let '(handle, s) := setTimeout q 300 s in set_searchTimeout handle s
  else hideSearchResults s.

Definition isDue (t : nat) (tm : Timer) : bool := Nat.leb (due tm) t.

(** One millisecond passes: the timers due run in the order they were
    set. *)
Definition tick (s : State) : State :=
  let t := S (now s) in
  foldl (fun s tm => performSearch (query tm) s)
        {| now := t; nextId := nextId s;
           pending := List.filter (fun tm => negb (isDue t tm)) (pending s);
           searchTimeout := searchTimeout s;
           performSearch_calls := performSearch_calls s;
           resultsContainer := resultsContainer s |}
        (List.filter (isDue t) (pending s)).

Definition elapse (d : nat) (s : State) : State := Nat.iter d tick s.

(** A session at the input: each value typed, and the time that passes
    before the next event. *)
Definition session (events : list (list N * nat)) (s : State) : State :=
  foldl (fun s e => elapse e.2 (onInput e.1 s)) s events.

(** The searches a session is to perform, when it starts at time [t]. *)
Fixpoint searched (t : nat) (events : list (list N * nat))
    : list (nat * list N) :=
  match events with
  | [] => []
  | (value, d) :: rest =>
      (if Nat.leb 2 (length (Theme.trim value)) && Nat.leb 300 d
       then [((t + 300)%nat, Theme.trim value)]
       else [])
      ++ searched (t + d) rest
  end.

(** At most one search is pending, and [searchTimeout] is its handle. *)
Definition settled (s : State) : Prop :=
  match pending s with
  | [] => True
  | [tm] => searchTimeout s = Some (id tm) /\ (now s < due tm)%nat
  | _ => False
  end.

End Search.

(** * Start-up of the theme (main.js 44-60, 822-827)

    What the script does when it is run, and what the listeners it
    registers for [DOMContentLoaded] on the document do.  The document is
    modelled by its [readyState], the listeners registered for the event
    in the order of their registration, and the set-up methods of the
    theme called so far.  The event is dispatched once, when the document
    has been parsed and the deferred scripts have run; a dispatch invokes
    the listeners that are registered when it starts, so a listener added
    by a listener of the same dispatch is not invoked by it. *)

Module Boot.

Inductive Setup :=
| setupLazyLoading
| setupSmoothScrolling
| setupFormValidation
| setupCartFunctionality
| setupSearchFunctionality
| setupPerformanceOptimizations
| setupAccessibility
| setupAnalytics
| setupImageOptimization
| setupIntersectionObserver
| setupServiceWorker.

Inductive ReadyState := loading | interactive | complete.

Inductive Listener :=
(** [() => VaperelaxTheme.init()], registered by the script *)
| callInit
(** the listener that [init] registers *)
| whenReady
(** a listener of another script *)
| foreign.

Record Document := {
  readyState : ReadyState;
  listeners : list Listener;
  called : list Setup
}.

Definition addEventListener (l : Listener) (d : Document) : Document :=
  {| readyState := readyState d; listeners := listeners d ++ [l];
     called := called d |}.

Definition call (d : Document) (m : Setup) : Document :=
  {| readyState := readyState d; listeners := listeners d;
     called := called d ++ [m] |}.

Definition set_readyState (r : ReadyState) (d : Document) : Document :=
  {| readyState := r; listeners := listeners d; called := called d |}.

Definition init (d : Document) : Document :=
  addEventListener whenReady
    (foldl call d
       [setupLazyLoading; setupSmoothScrolling; setupFormValidation;
        setupCartFunctionality; setupSearchFunctionality;
        setupPerformanceOptimizations; setupAccessibility; setupAnalytics]).

(** The last statements of the script. *)
Definition script (d : Document) : Document :=
  match readyState d with
  | loading => addEventListener callInit d
  | _ => init d
  end.

Definition invoke (d : Document) (l : Listener) : Document :=
  match l with
  | callInit => init d
  | whenReady =>
      foldl call d
        [setupImageOptimization; setupIntersectionObserver;
         setupServiceWorker]
  | foreign => d
  end.

(** The dispatch of [DOMContentLoaded]. *)
Definition dispatch (d : Document) : Document :=
  foldl invoke d (listeners d).

(** When the script is run: while the document is being parsed; after
    that and before [DOMContentLoaded] (a deferred script); or after the
    event. *)
Inductive Phase := parsing | deferred | late (completed : bool).

(** The document a script run in phase [p] starts from, other scripts
    having registered [n] listeners. *)
Definition document (p : Phase) (n : nat) : Document :=
  {| readyState := match p with
                   | parsing => loading
                   | deferred => interactive
                   | late completed =>
                       if completed then complete else interactive
                   end;
     listeners := replicate n foreign;
     called := [] |}.

(** The document once the script has run and the page has loaded. *)
Definition loaded (p : Phase) (n : nat) : Document :=
  match p with
  | parsing => dispatch (set_readyState interactive (script (document p n)))
  | deferred => dispatch (script (document p n))
  | late _ => script (document p n)
  end.

End Boot.

(** * The cart button and the notifications (main.js 233-334, 615-625,
      692-747)

    One add-to-cart button and the page around it.  The model follows
    [addToCart] up to its first [await] (the click) and from the moment
    the reply is there (no statement of [addToCart] runs between its two
    [await]s, so they are taken together), and the timers as the search
    box does: time in milliseconds, a timer running in the millisecond it
    is due, those of one millisecond in the order they were set.  Inline
    styles are not part of the model, so neither are
    [requestAnimationFrame] and the timer of [updateCartCount], which
    only set a style.  [innerHTML] reads back what was assigned to it. *)

Module Cart.

Record Button := {
  (** [dataset.productId] and [dataset.quantity], [None] for [undefined] *)
  productId : option string;
  quantity : option string;
  (** whether the class list holds [loading] *)
  loading : bool;
  innerHTML : string
}.

Definition set_loading (v : bool) (b : Button) : Button :=
  {| productId := productId b; quantity := quantity b; loading := v;
     innerHTML := innerHTML b |}.

Definition set_innerHTML (v : string) (b : Button) : Button :=
  {| productId := productId b; quantity := quantity b;
     loading := loading b; innerHTML := v |}.

(** What [parseInt] is given: the [data-quantity] attribute, or the
    number [1] when the attribute is missing or empty. *)
Inductive Quantity := attribute (s : string) | one.

(** The calls of [fetch]: [POST /api/cart/add] with the CSRF header
    ([None] for [null]) and the two fields of the body, and
    [GET /api/cart/count]. *)
Inductive Fetch :=
| cartAdd (csrfToken : option string) (product_id : option string)
          (quantityArg : Quantity)
| cartCountRequest.

(** The object a reply parses to, by what [addToCart] reads of it:
    whether [success] is truthy; what [cart_count] and [cart_total] are,
    [None] for [undefined]; and [message], [None] when it is falsy.  (A
    value that is no object but not [null] either reads as the object
    without fields.) *)
Record Data := {
  success : bool;
  cart_count : option string;
  cart_total : option string;
  message : option string
}.

Inductive Reply :=
(** [fetch] rejects *)
| rejected
(** [response.json()] rejects *)
| notJson
(** the body is [null] *)
| jsonNull
| json (data : Data).

(** The reply to [/api/cart/count], by [data.count || 0]. *)
Inductive CountReply :=
| countFailed
| countJson (count : option string).

Record Notification := {
  className : string;
  textContent : string
}.

Inductive Callback :=
(** [() => { button.innerHTML = originalText; }] *)
| restoreLabel (originalText : string)
(** the callback of [setTimeout(..., duration)] in [showNotification] *)
| slideOut (notification : nat)
(** the callback it sets in turn *)
| removeNotification (notification : nat)
(** [() => { liveRegion.textContent = ''; }] *)
| clearLiveRegion.

Record Timer := {
  due : nat;
  callback : Callback
}.

Record Page := {
  now : nat;
  (** the pending timers, in the order they were set *)
  timers : list Timer;
  (** [meta[name="csrf-token"]]: absent, or its [content] attribute *)
  csrfMeta : option (option string);
  button : Button;
  fetches : list Fetch;
  (** the calls of [addToCart] that await their reply, and the calls of
      [updateCartCount] that await theirs *)
  awaiting : nat;
  awaitingCount : nat;
  (** the text of each [.cart-count] element *)
  cartCount : list string;
  (** the notifications in the body, each with the number that tells it
      from the others *)
  nextNotification : nat;
  notifications : list (nat * Notification);
  (** the text of [#live-region], when there is one *)
  liveRegion : option string;
  (** the [detail] of each [cartUpdated] event dispatched *)
  dispatched : list (option string * option string);
  console : list string
}.

Definition set_now (v : nat) (p : Page) : Page :=
  {| now := v;
     timers := timers p;
     csrfMeta := csrfMeta p;
     button := button p;
     fetches := fetches p;
     awaiting := awaiting p;
     awaitingCount := awaitingCount p;
     cartCount := cartCount p;
     nextNotification := nextNotification p;
     notifications := notifications p;
     liveRegion := liveRegion p;
     dispatched := dispatched p;
     console := console p |}.

Definition set_timers (v : list Timer) (p : Page) : Page :=
  {| now := now p;
     timers := v;
     csrfMeta := csrfMeta p;
     button := button p;
     fetches := fetches p;
     awaiting := awaiting p;
     awaitingCount := awaitingCount p;
     cartCount := cartCount p;
     nextNotification := nextNotification p;
     notifications := notifications p;
     liveRegion := liveRegion p;
     dispatched := dispatched p;
     console := console p |}.

Definition set_csrfMeta (v : option (option string)) (p : Page) : Page :=
  {| now := now p;
     timers := timers p;
     csrfMeta := v;
     button := button p;
     fetches := fetches p;
     awaiting := awaiting p;
     awaitingCount := awaitingCount p;
     cartCount := cartCount p;
     nextNotification := nextNotification p;
     notifications := notifications p;
     liveRegion := liveRegion p;
     dispatched := dispatched p;
     console := console p |}.

Definition set_button (v : Button) (p : Page) : Page :=
  {| now := now p;
     timers := timers p;
     csrfMeta := csrfMeta p;
     button := v;
     fetches := fetches p;
     awaiting := awaiting p;
     awaitingCount := awaitingCount p;
     cartCount := cartCount p;
     nextNotification := nextNotification p;
     notifications := notifications p;
     liveRegion := liveRegion p;
     dispatched := dispatched p;
     console := console p |}.

Definition set_fetches (v : list Fetch) (p : Page) : Page :=
  {| now := now p;
     timers := timers p;
     csrfMeta := csrfMeta p;
     button := button p;
     fetches := v;
     awaiting := awaiting p;
     awaitingCount := awaitingCount p;
     cartCount := cartCount p;
     nextNotification := nextNotification p;
     notifications := notifications p;
     liveRegion := liveRegion p;
     dispatched := dispatched p;
     console := console p |}.

Definition set_awaiting (v : nat) (p : Page) : Page :=
  {| now := now p;
     timers := timers p;
     csrfMeta := csrfMeta p;
     button := button p;
     fetches := fetches p;
     awaiting := v;
     awaitingCount := awaitingCount p;
     cartCount := cartCount p;
     nextNotification := nextNotification p;
     notifications := notifications p;
     liveRegion := liveRegion p;
     dispatched := dispatched p;
     console := console p |}.

Definition set_awaitingCount (v : nat) (p : Page) : Page :=
  {| now := now p;
     timers := timers p;
     csrfMeta := csrfMeta p;
     button := button p;
     fetches := fetches p;
     awaiting := awaiting p;
     awaitingCount := v;
     cartCount := cartCount p;
     nextNotification := nextNotification p;
     notifications := notifications p;
     liveRegion := liveRegion p;
     dispatched := dispatched p;
     console := console p |}.

Definition set_cartCount (v : list string) (p : Page) : Page :=
  {| now := now p;
     timers := timers p;
     csrfMeta := csrfMeta p;
     button := button p;
     fetches := fetches p;
     awaiting := awaiting p;
     awaitingCount := awaitingCount p;
     cartCount := v;
     nextNotification := nextNotification p;
     notifications := notifications p;
     liveRegion := liveRegion p;
     dispatched := dispatched p;
     console := console p |}.

Definition set_nextNotification (v : nat) (p : Page) : Page :=
  {| now := now p;
     timers := timers p;
     csrfMeta := csrfMeta p;
     button := button p;
     fetches := fetches p;
     awaiting := awaiting p;
     awaitingCount := awaitingCount p;
     cartCount := cartCount p;
     nextNotification := v;
     notifications := notifications p;
     liveRegion := liveRegion p;
     dispatched := dispatched p;
     console := console p |}.

Definition set_notifications (v : list (nat * Notification)) (p : Page) : Page :=
  {| now := now p;
     timers := timers p;
     csrfMeta := csrfMeta p;
     button := button p;
     fetches := fetches p;
     awaiting := awaiting p;
     awaitingCount := awaitingCount p;
     cartCount := cartCount p;
     nextNotification := nextNotification p;
     notifications := v;
     liveRegion := liveRegion p;
     dispatched := dispatched p;
     console := console p |}.

Definition set_liveRegion (v : option string) (p : Page) : Page :=
  {| now := now p;
     timers := timers p;
     csrfMeta := csrfMeta p;
     button := button p;
     fetches := fetches p;
     awaiting := awaiting p;
     awaitingCount := awaitingCount p;
     cartCount := cartCount p;
     nextNotification := nextNotification p;
     notifications := notifications p;
     liveRegion := v;
     dispatched := dispatched p;
     console := console p |}.

Definition set_dispatched (v : list (option string * option string)) (p : Page) : Page :=
  {| now := now p;
     timers := timers p;
     csrfMeta := csrfMeta p;
     button := button p;
     fetches := fetches p;
     awaiting := awaiting p;
     awaitingCount := awaitingCount p;
     cartCount := cartCount p;
     nextNotification := nextNotification p;
     notifications := notifications p;
     liveRegion := liveRegion p;
     dispatched := v;
     console := console p |}.

Definition set_console (v : list string) (p : Page) : Page :=
  {| now := now p;
     timers := timers p;
     csrfMeta := csrfMeta p;
     button := button p;
     fetches := fetches p;
     awaiting := awaiting p;
     awaitingCount := awaitingCount p;
     cartCount := cartCount p;
     nextNotification := nextNotification p;
     notifications := notifications p;
     liveRegion := liveRegion p;
     dispatched := dispatched p;
     console := v |}.


Definition quote : string := String (Ascii.ascii_of_nat 34) EmptyString.

Definition successMessage : string := "تم إضافة المنتج للسلة بنجاح".
Definition errorMessage : string := "حدث خطأ أثناء إضافة المنتج".

Definition addedMarkup : string :=
  "
                    <svg width="
  +:+ quote +:+ "16"
  +:+ quote +:+ " height="
  +:+ quote +:+ "16"
  +:+ quote +:+ " viewBox="
  +:+ quote +:+ "0 0 24 24"
  +:+ quote +:+ " fill="
  +:+ quote +:+ "none"
  +:+ quote +:+ " stroke="
  +:+ quote +:+ "currentColor"
  +:+ quote +:+ " stroke-width="
  +:+ quote +:+ "2"
  +:+ quote +:+ ">
                        <polyline points="
  +:+ quote +:+ "20,6 9,17 4,12"
  +:+ quote +:+ "></polyline>
                    </svg>
                    تم الإضافة
                ".

Definition setTimeout (c : Callback) (delay : nat) (p : Page) : Page :=
  set_timers (timers p ++ [{| due := (now p + delay)%nat; callback := c |}]) p.

Definition fetch (f : Fetch) (p : Page) : Page :=
  set_fetches (fetches p ++ [f]) p.

Definition console_error (line : string) (p : Page) : Page :=
  set_console (console p ++ [line]) p.

Definition getCSRFToken (p : Page) : option string :=
  match csrfMeta p with
  | Some content => content
  | None => Some EmptyString
  end.

Definition announceToScreenReader (message : string) (p : Page) : Page :=
  match liveRegion p with
  | Some _ => setTimeout clearLiveRegion 1000 (set_liveRegion (Some message) p)
  | None => p
  end.

Definition showNotification (message type : string) (duration : nat)
    (p : Page) : Page :=
  let notification :=
    {| className := "notification notification--" +:+ type;
       textContent := message |} in
  let n := nextNotification p in
  let p := set_nextNotification (S n)
             (set_notifications (notifications p ++ [(n, notification)]) p) in
  let p := setTimeout (slideOut n) duration p in
  announceToScreenReader message p.

Definition updateCartCount (count : option string) (p : Page) : Page :=
  match count with
  | Some c => set_cartCount ((fun _ => c) <$> cartCount p) p
  | None => set_awaitingCount (S (awaitingCount p)) (fetch cartCountRequest p)
  end.

(** The rest of [updateCartCount], once the reply is there. *)
Definition updateCartCount_settle (r : CountReply) (p : Page) : Page :=
  match r with
  | countJson count =>
      set_cartCount ((fun _ => default "0" count) <$> cartCount p) p
  | countFailed => console_error "Failed to fetch cart count:" p
  end.

(** [addToCart], up to its first [await]. *)
Definition addToCart (p : Page) : Page :=
  let productId := productId (button p) in
  let quantity :=
    match quantity (button p) with
    | Some s => if String.eqb s EmptyString then one else attribute s
    | None => one
    end in
  if loading (button p) then p
  else
    let p := set_button (set_loading true (button p)) p in
    set_awaiting (S (awaiting p))
      (fetch (cartAdd (getCSRFToken p) productId quantity) p).

(** [addToCart], from the reply on. *)
Definition addToCart_settle (r : Reply) (p : Page) : Page :=
  let p :=
    match r with
    | json data =>
        if success data then
          let p := updateCartCount (cart_count data) p in
          let p := showNotification successMessage "success" 3000 p in
          let originalText := innerHTML (button p) in
          let p := set_button (set_innerHTML addedMarkup (button p)) p in
          let p := setTimeout (restoreLabel originalText) 2000 p in
          set_dispatched
            (dispatched p ++ [(cart_count data, cart_total data)]) p
        else
          showNotification (default errorMessage (message data)) "error"
            3000 p
    | _ =>
        showNotification errorMessage "error" 3000
          (console_error "Cart error:" p)
    end in
  set_button (set_loading false (button p)) p.

Definition run_callback (p : Page) (tm : Timer) : Page :=
  match callback tm with
  | restoreLabel originalText =>
      set_button (set_innerHTML originalText (button p)) p
  | slideOut n => setTimeout (removeNotification n) 300 p
  | removeNotification n =>
      set_notifications
        (List.filter (fun x => negb (Nat.eqb x.1 n)) (notifications p)) p
  | clearLiveRegion =>
      set_liveRegion ((fun _ => EmptyString) <$> liveRegion p) p
  end.

Definition isDue (t : nat) (tm : Timer) : bool := Nat.leb (due tm) t.

(** One millisecond passes. *)
Definition tick (p : Page) : Page :=
  let t := S (now p) in
  foldl run_callback
    (set_now t
       (set_timers (List.filter (fun tm => negb (isDue t tm)) (timers p)) p))
    (List.filter (isDue t) (timers p)).

Inductive Event :=
(** a click on the button *)
| click
(** the reply to a call of [addToCart] that awaits it *)
| reply (r : Reply)
(** the reply to a call of [updateCartCount] that awaits it *)
| countReply (r : CountReply)
(** time passes *)
| elapse (d : nat).

Definition step (p : Page) (e : Event) : Page :=
  match e with
  | click => addToCart p
  | reply r =>
      match awaiting p with
      | S k => addToCart_settle r (set_awaiting k p)
      | O => p
      end
  | countReply r =>
      match awaitingCount p with
      | S k => updateCartCount_settle r (set_awaitingCount k p)
      | O => p
      end
  | elapse d => Nat.iter d tick p
  end.

Definition run (events : list Event) (p : Page) : Page :=
  foldl step p events.

(** The page when the theme has been set up: [setupCartFunctionality]
    has asked for the count and [setupLiveRegions] has made the live
    region. *)
Definition page (b : Button) (csrf : option (option string))
    (counts : list string) : Page :=
  updateCartCount None
    {| now := 0; timers := []; csrfMeta := csrf; button := b;
       fetches := []; awaiting := 0; awaitingCount := 0;
       cartCount := counts; nextNotification := 0; notifications := [];
       liveRegion := Some EmptyString; dispatched := []; console := [] |}.

(** ** What the properties of the cart button are stated with *)

Definition label (p : Page) : string := innerHTML (button p).

Definition isCartAdd (f : Fetch) : bool :=
  match f with
  | cartAdd _ _ _ => true
  | cartCountRequest => false
  end.

(** The number of calls of [fetch] for [/api/cart/add]. *)
Definition sent (p : Page) : nat := length (List.filter isCartAdd (fetches p)).

Definition isReply (e : Event) : bool :=
  match e with
  | reply _ => true
  | _ => false
  end.

(** The button carries [loading] exactly while a call awaits its reply,
    and then one call does. *)
Definition guarded (p : Page) : Prop :=
  awaiting p = if loading (button p) then 1%nat else 0%nat.

(** The notification that acknowledges a reply. *)
Definition acknowledgement (r : Reply) : Notification :=
  match r with
  | json data =>
      if success data
      then {| className := "notification notification--success";
              textContent := successMessage |}
      else {| className := "notification notification--error";
              textContent := default errorMessage (message data) |}
  | _ => {| className := "notification notification--error";
            textContent := errorMessage |}
  end.

(** No pending timer is overdue. *)
Definition future (p : Page) : Prop :=
  Forall (fun tm => (now p < due tm)%nat) (timers p).

Definition restoreText (tm : Timer) : option string :=
  match callback tm with
  | restoreLabel originalText => Some originalText
  | _ => None
  end.

Definition isRestore (tm : Timer) : bool :=
  match callback tm with
  | restoreLabel _ => true
  | _ => false
  end.

(** The pending timers that restore the label. *)
Definition restores (p : Page) : list Timer :=
  List.filter isRestore (timers p).

(** The timers spawned by the timers [l] that run at time [t]. *)
Definition spawned (t : nat) (l : list Timer) : list Timer :=
  omap (fun tm =>
          match callback tm with
          | slideOut n =>
              Some {| due := (t + 300)%nat;
                      callback := removeNotification n |}
          | _ => None
          end) l.

(** The notifications that the timers [l] remove. *)
Definition removed (l : list Timer) : list nat :=
  omap (fun tm =>
          match callback tm with
          | removeNotification n => Some n
          | _ => None
          end) l.

(** The numbers of the notifications that the pending timers are about
    have been given out. *)
Definition fresh (p : Page) : Prop :=
  forall tm n, tm ∈ timers p ->
    callback tm = slideOut n \/ callback tm = removeNotification n ->
    (n < nextNotification p)%nat.

(** The timers of notification [n] are on schedule for its removal at
    time [T]. *)
Definition tracks (n T : nat) (p : Page) : Prop :=
  (forall tm, tm ∈ timers p -> callback tm = slideOut n ->
     (due tm + 300)%nat = T)
  /\ (forall tm, tm ∈ timers p -> callback tm = removeNotification n ->
        due tm = T)
  /\ (exists tm, tm ∈ timers p
        /\ (callback tm = slideOut n \/ callback tm = removeNotification n)).

(** Notification [x] is in the body until time [T], and not after. *)
Definition shown (x : nat * Notification) (T : nat) (p : Page) : Prop :=
  (x.1 < nextNotification p)%nat
  /\ future p
  /\ ((now p < T)%nat -> x ∈ notifications p /\ tracks x.1 T p)
  /\ ((T <= now p)%nat -> forall y, y ∈ notifications p -> y.1 <> x.1).

(** The timers that restore the label are due within two seconds, and
    none later than the last of them. *)
Definition inOrder (p : Page) : Prop :=
  Forall (fun tm => (due tm <= now p + 2000)%nat
                    /\ forall tm', last (restores p) = Some tm' ->
                                   (due tm <= due tm')%nat)
         (restores p).

(** The label once the pending timers have run. *)
Definition finalLabel (p : Page) : string :=
  default (label p) (last (restores p) ≫= restoreText).

Definition succeeded (r : Reply) : bool :=
  match r with
  | json data => success data
  | _ => false
  end.

(** The timers that a reply sets, at time [t] on a page whose live
    region is [region], the label being [text] and the notification
    having the number [n]. *)
Definition timersOf (r : Reply) (t : nat) (region : option string)
    (text : string) (n : nat) : list Timer :=
  [{| due := (t + 3000)%nat; callback := slideOut n |}]
  ++ match region with
     | Some _ => [{| due := (t + 1000)%nat; callback := clearLiveRegion |}]
     | None => []
     end
  ++ (if succeeded r
      then [{| due := (t + 2000)%nat; callback := restoreLabel text |}]
      else []).

Definition sampleButton : Button :=
  {| productId := Some "42"; quantity := Some "2"; loading := false;
     innerHTML := "أضف للسلة" |}.

Definition samplePage : Page := page sampleButton (Some (Some "token")) ["0"].

End Cart.
(** * Properties *)

(** ** The helper predicates on examples *)

Example isStaticAsset_css : isStaticAsset "/assets/css/main.css" = true.
Proof. reflexivity. Qed.

Example isImage_suffix : isImage "/media/banner.webp" = true.
Proof. reflexivity. Qed.

Example isPage_offline : isPage "/offline.html" = false.
Proof. reflexivity. Qed.

(** ** Frame lemmas of the platform calls *)

Section Frames.
Context (c : string) (w : World).

Lemma opened_present m : caches w !! c = Some m -> opened c w = w.
Proof. unfold opened, caches_open; simpl. by intros ->. Qed.

Lemma opened_entry key r : partition c w !! key = Some r -> opened c w = w.
Proof.
  unfold partition. destruct (caches w !! c) as [m|] eqn:E; simpl.
  - intros _. by eapply opened_present.
  - by rewrite lookup_empty.
Qed.

Lemma partition_opened c' : partition c' (opened c w) = partition c' w.
Proof.
  unfold opened, caches_open, partition; simpl.
  destruct (caches w !! c) as [m|] eqn:E; [done|]. simpl.
  destruct (decide (c = c')) as [<-|Hne].
  - by rewrite lookup_insert_eq, E.
  - by rewrite lookup_insert_ne.
Qed.

Lemma calls_opened : calls (opened c w) = calls w.
Proof. unfold opened, caches_open; simpl. by destruct (caches w !! c). Qed.

Lemma network_opened : network (opened c w) = network w.
Proof. unfold opened, caches_open; simpl. by destruct (caches w !! c). Qed.

Lemma skipWaitingCalled_opened :
  skipWaitingCalled (opened c w) = skipWaitingCalled w.
Proof. unfold opened, caches_open; simpl. by destruct (caches w !! c). Qed.

Lemma answer_opened m u : answer (opened c w) m u = answer w m u.
Proof. unfold answer. by rewrite network_opened, calls_opened. Qed.

Lemma partition_stored key r :
  partition c (stored c key r w) = <[key := r]> (partition c w).
Proof. unfold stored, cache_put, partition; simpl. by rewrite lookup_insert_eq. Qed.

Lemma partition_stored_ne c' key r :
  c' ≠ c -> partition c' (stored c key r w) = partition c' w.
Proof.
  intros Hne. unfold stored, cache_put, partition; simpl.
  by rewrite lookup_insert_ne.
Qed.

End Frames.

Lemma calls_stored c key r w : calls (stored c key r w) = calls w.
Proof. reflexivity. Qed.

Lemma calls_called request w :
  calls (called request w) = calls w ++ [(method request, url request)].
Proof. reflexivity. Qed.

Lemma calls_logged msg w : calls (logged msg w) = calls w.
Proof. reflexivity. Qed.

Lemma partition_called c request w :
  partition c (called request w) = partition c w.
Proof. reflexivity. Qed.

Lemma partition_logged c msg w : partition c (logged msg w) = partition c w.
Proof. reflexivity. Qed.

Create Rewrite HintDb frames.
#[local] Hint Rewrite calls_stored calls_called calls_logged calls_opened
  partition_called partition_logged partition_opened partition_stored
  : frames.

(** ** Loops whose rounds always resolve *)

Lemma for_of_fold {A} (f : A -> Async unit) (g : World -> A -> World) :
  (forall x w, f x w = (Resolved (), g w x)) ->
  forall xs w, for_of xs f w = (Resolved (), foldl g w xs).
Proof.
  intros Hstep xs. induction xs as [|x xs IH]; intros w; [done|].
  cbn [for_of foldl]. unfold mbind, Async_bind.
  by rewrite Hstep, IH.
Qed.

(** ** The strategies, run on a world *)

Lemma cacheFirst_run request c w :
  cacheFirst request c w =
  match partition c w !! url request with
  | Some r => (Resolved (Some r), opened c w)
  | None =>
      match answer w (method request) (url request) with
      | Some r =>
          (Resolved (Some r),
           if ok r
           then stored c (url request) r (called request (opened c w))
           else called request (opened c w))
      | None =>
          (Rejected (NetworkError (method request) (url request)),
           logged "Cache First: Network failed" (called request (opened c w)))
      end
  end.
Proof.
  unfold cacheFirst, mbind, Async_bind, cache_match.
  change (caches_open c w) with (Resolved c, opened c w).
  cbn beta iota. rewrite partition_opened.
  destruct (partition c w !! url request) as [r|]; [done|].
  unfold try_catch, fetch, fetch_raw.
  change (network (opened c w) (length (calls (opened c w))))
    with (answer (opened c w)).
  rewrite answer_opened.
  destruct (answer w (method request) (url request)) as [r|]; [|done].
  by destruct (ok r).
Qed.

Lemma networkFirst_run request c w :
  networkFirst request c w =
  match answer w (method request) (url request) with
  | Some r =>
      (Resolved (Some r),
       if ok r
       then stored c (url request) r (opened c (called request w))
       else called request w)
  | None =>
      let w' := opened c (logged "Network First: Network failed, trying cache"
                                 (called request w)) in
      match partition c w !! url request with
      | Some r => (Resolved (Some r), w')
      | None => (Rejected (NetworkError (method request) (url request)), w')
      end
  end.
Proof.
  unfold networkFirst, try_catch, mbind, Async_bind, fetch, fetch_raw.
  change (network w (length (calls w))) with (answer w).
  destruct (answer w (method request) (url request)) as [r|].
  - by destruct (ok r).
  - unfold console_log, cache_match.
    change (caches_open c ?v) with (Resolved c, opened c v).
    cbn beta iota zeta. rewrite partition_opened.
    change (partition c (add_console _ (add_call _ w))) with (partition c w).
    by destruct (partition c w !! url request).
Qed.

Lemma staleWhileRevalidate_run request c w :
  staleWhileRevalidate request c w =
  match answer w (method request) (url request) with
  | Some r =>
      (Resolved (match partition c w !! url request with
                 | Some cached => Some cached
                 | None => Some r
                 end),
       if ok r
       then stored c (url request) r (called request (opened c w))
       else called request (opened c w))
  | None =>
      (Resolved (partition c w !! url request),
       logged "Stale While Revalidate: Network update failed"
              (called request (opened c w)))
  end.
Proof.
  unfold staleWhileRevalidate, mbind, Async_bind, cache_match.
  change (caches_open c w) with (Resolved c, opened c w).
  cbn beta iota. rewrite partition_opened.
  unfold try_catch, fetch, fetch_raw.
  change (network (opened c w) (length (calls (opened c w))))
    with (answer (opened c w)).
  rewrite answer_opened.
  destruct (answer w (method request) (url request)) as [r|].
  - destruct (ok r); by destruct (partition c w !! url request).
  - by destruct (partition c w !! url request).
Qed.

(** ** Cache-first *)

(** C1. Cache-first on a GET request (the request filter of the
    specification lets no other reach a strategy, and the cache holds
    the responses of no other) and a partition: an entry of the
    request in the partition is returned as it is, the world (and with it
    the log of network calls) unchanged.  Without an entry the network request is
    made; its response is returned, and stored under the request exactly
    when its status is 2xx (the other partitions are never touched), after
    which the same request is a hit served with no further call; when the
    network request fails, the strategy rejects with that failure and no
    entry of any partition changes. *)
Theorem cacheFirst_correct (request : Request) (c : string) (w : World) :
  method request = "GET" ->
  (forall r, partition c w !! url request = Some r ->
     cacheFirst request c w = (Resolved (Some r), w))
  /\ (forall r, partition c w !! url request = None ->
        answer w (method request) (url request) = Some r ->
        exists w',
          cacheFirst request c w = (Resolved (Some r), w')
          /\ calls w' = calls w ++ [(method request, url request)]
          /\ partition c w' =
               (if ok r then <[url request := r]> (partition c w)
                else partition c w)
          /\ (forall c', c' ≠ c -> partition c' w' = partition c' w)
          /\ (ok r = true ->
                cacheFirst request c w' = (Resolved (Some r), w')))
  /\ (partition c w !! url request = None ->
        answer w (method request) (url request) = None ->
        exists w',
          cacheFirst request c w =
            (Rejected (NetworkError (method request) (url request)), w')
          /\ calls w' = calls w ++ [(method request, url request)]
          /\ (forall c', partition c' w' = partition c' w)).
Proof.
  intros _. split; [|split].
  - intros r Hhit. rewrite cacheFirst_run, Hhit.
    by rewrite (opened_entry _ _ _ _ Hhit).
  - intros r Hmiss Hnet. rewrite cacheFirst_run, Hmiss, Hnet.
    eexists; split; [reflexivity|].
    destruct (ok r) eqn:Hok.
    + autorewrite with frames. split; [done|split; [done|split]].
      * intros c' Hne. rewrite partition_stored_ne by done.
        by autorewrite with frames.
      * intros _. rewrite cacheFirst_run.
        assert (Hin : partition c
                  (stored c (url request) r (called request (opened c w)))
                  !! url request = Some r).
        { rewrite partition_stored. apply lookup_insert_eq. }
        rewrite Hin. by rewrite (opened_entry _ _ _ _ Hin).
    + autorewrite with frames. split; [done|split; [done|split]].
      * intros c' _. by autorewrite with frames.
      * done.
  - intros Hmiss Hnet. rewrite cacheFirst_run, Hmiss, Hnet.
    eexists; split; [reflexivity|].
    autorewrite with frames. split; [done|].
    intros c'. by autorewrite with frames.
Qed.

Lemma cacheFirst_correct_witness :
  cacheFirst Examples.css STATIC_CACHE Examples.css_cached
  = (Resolved (Some Examples.page200), Examples.css_cached)
  /\ exists w',
       cacheFirst Examples.css STATIC_CACHE (Examples.fresh Examples.online)
       = (Resolved (Some Examples.page200), w')
       /\ partition STATIC_CACHE w' !! "/assets/css/main.css"
          = Some Examples.page200
       /\ cacheFirst Examples.css STATIC_CACHE w'
          = (Resolved (Some Examples.page200), w').
Proof.
  split.
  - apply (proj1 (cacheFirst_correct Examples.css STATIC_CACHE
                    Examples.css_cached eq_refl)).
    vm_compute. reflexivity.
  - destruct (proj1 (proj2 (cacheFirst_correct Examples.css STATIC_CACHE
                              (Examples.fresh Examples.online) eq_refl))
                Examples.page200 eq_refl eq_refl)
      as (w' & Hrun & _ & Hpart & _ & Hagain).
    exists w'. split; [exact Hrun|]. split; [|by apply Hagain].
    rewrite Hpart. apply lookup_insert_eq.
Defined.

(** ** Network-first *)

(** C2. Network-first, on a GET request (the request filter of the
    specification lets no other reach a strategy), makes the network
    request in every case.  When it
    succeeds (a 2xx response, the success of the specification) the
    response is stored under the request in the partition and returned.
    When the network request fails, an entry of the request in the
    partition is returned, and without one the strategy rejects with the
    failure of the network request. *)
Theorem networkFirst_correct (request : Request) (c : string) (w : World) :
  method request = "GET" ->
  (forall r, answer w (method request) (url request) = Some r ->
     ok r = true ->
     exists w',
       networkFirst request c w = (Resolved (Some r), w')
       /\ calls w' = calls w ++ [(method request, url request)]
       /\ partition c w' = <[url request := r]> (partition c w)
       /\ (forall c', c' ≠ c -> partition c' w' = partition c' w))
  /\ (forall r, answer w (method request) (url request) = None ->
        partition c w !! url request = Some r ->
        exists w',
          networkFirst request c w = (Resolved (Some r), w')
          /\ calls w' = calls w ++ [(method request, url request)]
          /\ (forall c', partition c' w' = partition c' w))
  /\ (answer w (method request) (url request) = None ->
        partition c w !! url request = None ->
        exists w',
          networkFirst request c w =
            (Rejected (NetworkError (method request) (url request)), w')
          /\ calls w' = calls w ++ [(method request, url request)]
          /\ (forall c', partition c' w' = partition c' w)).
Proof.
  intros _. split; [|split].
  - intros r Hnet Hok. rewrite networkFirst_run, Hnet, Hok.
    eexists; split; [reflexivity|].
    autorewrite with frames. split; [done|split; [done|]].
    intros c' Hne. rewrite partition_stored_ne by done.
    by autorewrite with frames.
  - intros r Hnet Hhit. rewrite networkFirst_run, Hnet. cbn zeta.
    rewrite Hhit. eexists; split; [reflexivity|].
    autorewrite with frames. split; [done|].
    intros c'. by autorewrite with frames.
  - intros Hnet Hmiss. rewrite networkFirst_run, Hnet. cbn zeta.
    rewrite Hmiss. eexists; split; [reflexivity|].
    autorewrite with frames. split; [done|].
    intros c'. by autorewrite with frames.
Qed.

Lemma networkFirst_correct_witness :
  exists w',
    networkFirst Examples.cart DYNAMIC_CACHE (Examples.fresh Examples.online)
    = (Resolved (Some Examples.page200), w')
    /\ partition DYNAMIC_CACHE w' !! "/api/cart" = Some Examples.page200.
Proof.
  destruct (proj1 (networkFirst_correct Examples.cart DYNAMIC_CACHE
                     (Examples.fresh Examples.online) eq_refl)
              Examples.page200 eq_refl eq_refl)
    as (w' & Hrun & _ & Hpart & _).
  exists w'. split; [exact Hrun|].
  rewrite Hpart. apply lookup_insert_eq.
Defined.

Lemma networkFirst_resolved_is_network request c w r :
  answer w (method request) (url request) = Some r ->
  (networkFirst request c w).1 = Resolved (Some r).
Proof. intros Hnet. by rewrite networkFirst_run, Hnet. Qed.

(** ** The offline resolver and the dispatch, run on a world *)

Lemma handleOffline_run request w :
  handleOffline request w =
  if String.eqb (mode request) "navigate" then
    (Resolved (partition STATIC_CACHE w !! "/offline.html"),
     opened STATIC_CACHE w)
  else if isImage (pathname request) then
    (Resolved (partition STATIC_CACHE w
               !! "/assets/images/placeholder-product.jpg"),
     opened STATIC_CACHE w)
  else (Resolved (Some offlineResponse), w).
Proof.
  unfold handleOffline.
  destruct (String.eqb (mode request) "navigate");
    [|destruct (isImage (pathname request)); [|done]];
    unfold mbind, Async_bind, cache_match;
    change (caches_open STATIC_CACHE w)
      with (Resolved STATIC_CACHE, opened STATIC_CACHE w);
    cbn beta iota; by rewrite partition_opened.
Qed.

(** ** Strings: a suffix occurs in the string *)

Lemma startsWith_refl s : JsString.startsWith s s = true.
Proof.
  unfold JsString.startsWith. induction s as [|a s IH]; simpl; [done|].
  by destruct (Ascii.ascii_dec a a).
Qed.

Lemma endsWith_includes s pat :
  JsString.endsWith s pat = true -> JsString.includes s pat = true.
Proof.
  induction s as [|a s IH].
  - by destruct pat.
  - change (JsString.endsWith (String a s) pat)
      with (String.eqb (String a s) pat || JsString.endsWith s pat).
    change (JsString.includes (String a s) pat)
      with (JsString.startsWith (String a s) pat || JsString.includes s pat).
    intros [Heq%String.eqb_eq | Hrest]%orb_true_iff.
    + subst pat. by rewrite startsWith_refl.
    + rewrite (IH Hrest). apply orb_true_r.
Qed.

Lemma isImage_matches path :
  isImage path = matches (cacheFirstPatterns CACHE_STRATEGIES) path.
Proof.
  unfold isImage, matches, some.
  induction (cacheFirstPatterns CACHE_STRATEGIES) as [|pat pats IH];
    simpl; [done|].
  rewrite IH. f_equal.
  destruct (JsString.includes path pat) eqn:Hinc; [done|]. simpl.
  destruct (JsString.endsWith path pat) eqn:Hend; [|done].
  apply endsWith_includes in Hend. congruence.
Qed.

(** ** Classification and strategy selection *)

Lemma classify_tests path :
  classify path =
  if isStaticAsset path then StaticAsset
  else if isImage path then Image
  else if isApiCall path then ApiCall
  else if isPage path then Page
  else Unclassified.
Proof.
  rewrite isImage_matches. unfold classify, precedence.
  cbn [List.find fst snd].
  change (matches (static CACHE_STRATEGIES) path) with (isStaticAsset path).
  change (matches (networkFirstPatterns CACHE_STRATEGIES) path)
    with (isApiCall path).
  change (matches (staleWhileRevalidatePatterns CACHE_STRATEGIES) path)
    with (isPage path).
  destruct (isStaticAsset path); [done|].
  destruct (matches (cacheFirstPatterns CACHE_STRATEGIES) path); [done|].
  destruct (isApiCall path); [done|].
  by destruct (isPage path).
Qed.

Lemma handleRequest_dispatch request :
  handleRequest request =
  try_catch
    (run_strategy (select (classify (pathname request))).1 request
                  (select (classify (pathname request))).2)
    (on_failure request).
Proof.
  rewrite classify_tests. unfold handleRequest, on_failure.
  destruct (isStaticAsset (pathname request)); [done|].
  destruct (isImage (pathname request)); [done|].
  destruct (isApiCall (pathname request)); [done|].
  by destruct (isPage (pathname request)).
Qed.

(** C8. The class of a path is a function of the path alone: the first of
    static-asset, image, api-call and page whose pattern set matches it,
    and unclassified when none matches; and [handleRequest] runs, for
    every request, the strategy on the partition that the class of its
    path selects: cache-first/static, cache-first/image,
    network-first/dynamic, stale-while-revalidate/dynamic, and
    network-first/dynamic for an unclassified path. *)
Theorem classification_selects_strategy :
  (forall path,
     classify path =
     if matches (static CACHE_STRATEGIES) path then StaticAsset
     else if matches (cacheFirstPatterns CACHE_STRATEGIES) path then Image
     else if matches (networkFirstPatterns CACHE_STRATEGIES) path then ApiCall
     else if matches (staleWhileRevalidatePatterns CACHE_STRATEGIES) path
          then Page
     else Unclassified)
  /\ (forall request,
        handleRequest request =
        try_catch
          (run_strategy (select (classify (pathname request))).1 request
                        (select (classify (pathname request))).2)
          (on_failure request))
  /\ (run_strategy (select StaticAsset).1, (select StaticAsset).2)
       = (cacheFirst, STATIC_CACHE)
  /\ (run_strategy (select Image).1, (select Image).2)
       = (cacheFirst, IMAGE_CACHE)
  /\ (run_strategy (select ApiCall).1, (select ApiCall).2)
       = (networkFirst, DYNAMIC_CACHE)
  /\ (run_strategy (select Page).1, (select Page).2)
       = (staleWhileRevalidate, DYNAMIC_CACHE)
  /\ (run_strategy (select Unclassified).1, (select Unclassified).2)
       = (networkFirst, DYNAMIC_CACHE).
Proof.
  split; [|split; [exact handleRequest_dispatch|by repeat split]].
  intros path. unfold classify, precedence. cbn [List.find fst snd].
  destruct (matches (static CACHE_STRATEGIES) path); [done|].
  destruct (matches (cacheFirstPatterns CACHE_STRATEGIES) path); [done|].
  destruct (matches (networkFirstPatterns CACHE_STRATEGIES) path); [done|].
  by destruct (matches (staleWhileRevalidatePatterns CACHE_STRATEGIES) path).
Qed.

Example classify_logo : classify "/assets/images/logo.png" = StaticAsset.
Proof. reflexivity. Qed.

Example classify_banner : classify "/media/banner.webp" = Image.
Proof. reflexivity. Qed.

Example classify_search : classify "/search" = ApiCall.
Proof. reflexivity. Qed.

Example classify_product : classify "/products/42" = Page.
Proof. reflexivity. Qed.

Example classify_about : classify "/about" = Unclassified.
Proof. reflexivity. Qed.

(** ** Network-first and responses that are not 2xx *)

(** C10. In network-first a response of the network that is not 2xx is no
    failure: it is returned as it is and the world only gains the network
    call (nothing is stored, no partition is opened or read); whatever its
    status, a response of the network is what the strategy resolves with.
    For a request that [handleRequest] routes to network-first on the
    dynamic partition, a response of the network is what the worker
    answers, and only when the network request is rejected and the
    partition has no entry is the answer the one of the offline
    resolver. *)
Theorem networkFirst_error_response
    (request : Request) (c : string) (w : World) :
  (forall r, answer w (method request) (url request) = Some r ->
     ok r = false ->
     networkFirst request c w = (Resolved (Some r), called request w))
  /\ (forall r, answer w (method request) (url request) = Some r ->
        (networkFirst request c w).1 = Resolved (Some r))
  /\ (select (classify (pathname request)) = (NetworkFirst, DYNAMIC_CACHE) ->
      (forall r, answer w (method request) (url request) = Some r ->
         (handleRequest request w).1 = Resolved (Some r))
      /\ (answer w (method request) (url request) = None ->
          partition DYNAMIC_CACHE w !! url request = None ->
          exists w',
            handleRequest request w = handleOffline request w'
            /\ calls w' = calls w ++ [(method request, url request)]
            /\ (forall c', partition c' w' = partition c' w))).
Proof.
  split; [|split].
  - intros r Hnet Hok. by rewrite networkFirst_run, Hnet, Hok.
  - intros r Hnet. by apply networkFirst_resolved_is_network.
  - intros Hroute. rewrite handleRequest_dispatch, Hroute.
    cbn [fst snd run_strategy]. unfold try_catch. split.
    + intros r Hnet. by rewrite networkFirst_run, Hnet.
    + intros Hnet Hmiss. rewrite networkFirst_run, Hnet. cbn zeta.
      rewrite Hmiss. unfold on_failure, mbind, Async_bind, console_log.
      eexists; split; [reflexivity|].
      change (add_console ?m ?v) with (logged m v).
      autorewrite with frames. split; [done|].
      intros c'. by autorewrite with frames.
Qed.

Lemma networkFirst_error_response_witness :
  networkFirst Examples.cart DYNAMIC_CACHE
    (Examples.fresh Examples.failing_server)
  = (Resolved (Some Examples.error500),
     called Examples.cart (Examples.fresh Examples.failing_server)).
Proof.
  apply (proj1 (networkFirst_error_response Examples.cart DYNAMIC_CACHE
                  (Examples.fresh Examples.failing_server))
           Examples.error500); reflexivity.
Defined.

(** ** Stale-while-revalidate *)

(** Stale-while-revalidate on a GET request (the cache holds the
    responses of no other).  With an entry for the request in the
    partition it returns that entry whatever the network does; without
    one it returns the response of the network when there is one; and a
    2xx response of the network is, in both cases, the entry of the
    request afterwards, so that the next request is served the refreshed
    content. *)
Theorem staleWhileRevalidate_serves
    (request : Request) (c : string) (w : World) :
  method request = "GET" ->
  (forall cached, partition c w !! url request = Some cached ->
     (staleWhileRevalidate request c w).1 = Resolved (Some cached))
  /\ (forall r, partition c w !! url request = None ->
        answer w (method request) (url request) = Some r ->
        (staleWhileRevalidate request c w).1 = Resolved (Some r))
  /\ (forall r, answer w (method request) (url request) = Some r ->
        ok r = true ->
        (staleWhileRevalidate request c
           (staleWhileRevalidate request c w).2).1 = Resolved (Some r)).
Proof.
  intros _. split; [|split].
  - intros cached Hhit. rewrite staleWhileRevalidate_run, Hhit.
    by destruct (answer w (method request) (url request)).
  - intros r Hmiss Hnet. by rewrite staleWhileRevalidate_run, Hnet, Hmiss.
  - intros r Hnet Hok.
    assert (Hin : partition c (staleWhileRevalidate request c w).2
                  !! url request = Some r).
    { rewrite staleWhileRevalidate_run, Hnet, Hok. cbn [snd].
      rewrite partition_stored. apply lookup_insert_eq. }
    revert Hin. generalize (staleWhileRevalidate request c w).2.
    intros w1 Hin. rewrite staleWhileRevalidate_run, Hin.
    by destruct (answer w1 (method request) (url request)).
Qed.

Lemma staleWhileRevalidate_serves_witness :
  (staleWhileRevalidate Examples.product DYNAMIC_CACHE
     (staleWhileRevalidate Examples.product DYNAMIC_CACHE
        (Examples.fresh Examples.online)).2).1
  = Resolved (Some Examples.page200).
Proof.
  apply (proj2 (proj2 (staleWhileRevalidate_serves Examples.product
                         DYNAMIC_CACHE (Examples.fresh Examples.online)
                         eq_refl)));
    reflexivity.
Defined.

Lemma staleWhileRevalidate_never_rejects request c w :
  exists o, (staleWhileRevalidate request c w).1 = Resolved o.
Proof.
  rewrite staleWhileRevalidate_run.
  destruct (answer w (method request) (url request)); eauto.
Qed.

(** C3, where the code departs from it.  A page request with no entry in
    the dynamic partition and a network that rejects it: the strategy does
    not reject, it resolves with [undefined]; so [handleRequest] hands
    [undefined] on and the offline resolver is not run (the console holds
    the message of the strategy and not "Request failed"). *)
Theorem staleWhileRevalidate_miss_offline :
  partition DYNAMIC_CACHE (Examples.fresh Examples.offline)
    !! url Examples.product = None
  /\ answer (Examples.fresh Examples.offline)
       (method Examples.product) (url Examples.product) = None
  /\ (staleWhileRevalidate Examples.product DYNAMIC_CACHE
        (Examples.fresh Examples.offline)).1 = Resolved None
  /\ (handleRequest Examples.product (Examples.fresh Examples.offline)).1
     = Resolved None
  /\ console (handleRequest Examples.product
                (Examples.fresh Examples.offline)).2
     = [ "Stale While Revalidate: Network update failed" ].
Proof.
  split; [done|]. split; [done|].
  rewrite handleRequest_dispatch.
  change (select (classify (pathname Examples.product)))
    with (StaleWhileRevalidate, DYNAMIC_CACHE).
  cbn [fst snd run_strategy]. unfold try_catch.
  rewrite staleWhileRevalidate_run.
  change (answer (Examples.fresh Examples.offline) _ _) with (@None Response).
  by cbn.
Qed.

(** ** The offline fallback resolver *)

Lemma classify_Image_isImage path :
  classify path = Image -> isImage path = true.
Proof.
  rewrite classify_tests.
  destruct (isStaticAsset path); [done|].
  destruct (isImage path); [done|].
  destruct (isApiCall path); [done|].
  by destruct (isPage path).
Qed.

(** C6, where the code departs from it.  The resolver returns what
    [cache.match] gives it without testing it, which no other place of
    the worker does.  In a world whose static partition holds neither
    [/offline.html] nor the placeholder image (here the world that an
    install with an unreachable network leaves behind) it resolves a
    navigation request, and an image request, with [undefined] and not
    with a response; and [handleRequest], whose strategy has failed on
    the request, hands that [undefined] on. *)
Theorem handleOffline_without_offline_page :
  mode Examples.about = "navigate"
  /\ (handleOffline Examples.about
        (waitUntil install (Examples.fresh Examples.offline)).2).1
     = Resolved None
  /\ (handleRequest Examples.about
        (waitUntil install (Examples.fresh Examples.offline)).2).1
     = Resolved None
  /\ classify (pathname (Examples.get "/uploads/photo.jpg" "no-cors"))
     = Image
  /\ (handleOffline (Examples.get "/uploads/photo.jpg" "no-cors")
        (waitUntil install (Examples.fresh Examples.offline)).2).1
     = Resolved None
  /\ (handleRequest (Examples.get "/uploads/photo.jpg" "no-cors")
        (waitUntil install (Examples.fresh Examples.offline)).2).1
     = Resolved None.
Proof. split; [done|]. repeat split; vm_compute; reflexivity. Qed.

(** The decision order of the resolver, the cache store answering its
    calls.  The resolver makes no network call and changes no entry of
    any partition.  For a navigation request it resolves with what the
    static partition holds under [/offline.html] (the cached page itself
    when there is one, [undefined] when there is none); otherwise, for a
    path that matches the image patterns (every image-classified path
    does), with what the static partition holds under the placeholder
    image; otherwise with the synthesized response, whose status is 503
    and whose content type is JSON. *)
Theorem handleOffline_resolves (request : Request) (w : World) :
  exists o w',
    handleOffline request w = (Resolved o, w')
    /\ calls w' = calls w
    /\ (forall c, partition c w' = partition c w)
    /\ (mode request = "navigate" ->
          o = partition STATIC_CACHE w !! "/offline.html")
    /\ (mode request ≠ "navigate" ->
        isImage (pathname request) = true ->
          o = partition STATIC_CACHE w
              !! "/assets/images/placeholder-product.jpg")
    /\ (mode request ≠ "navigate" ->
        isImage (pathname request) = false ->
          o = Some offlineResponse)
    /\ (classify (pathname request) = Image ->
          isImage (pathname request) = true)
    /\ status offlineResponse = 503
    /\ headers offlineResponse = [ ("Content-Type", "application/json") ].
Proof.
  rewrite handleOffline_run.
  destruct (String.eqb (mode request) "navigate") eqn:Hmode.
  - apply String.eqb_eq in Hmode.
    eexists _, _. split; [reflexivity|].
    autorewrite with frames. split; [done|]. split.
    { intros c. by autorewrite with frames. }
    split; [done|]. split; [done|]. split; [done|].
    split; [apply classify_Image_isImage|done].
  - apply String.eqb_neq in Hmode.
    destruct (isImage (pathname request)) eqn:Himg.
    + eexists _, _. split; [reflexivity|].
      autorewrite with frames. split; [done|]. split.
      { intros c. by autorewrite with frames. }
      split; [done|]. split; [done|]. split; [done|].
      split; [done|done].
    + eexists _, _. split; [reflexivity|].
      split; [done|]. split; [done|].
      split; [done|]. split; [done|]. split; [done|].
      split; [intros H%classify_Image_isImage; congruence|done].
Qed.

Lemma handleOffline_resolves_witness :
  (handleOffline Examples.about Examples.prepared).1
  = Resolved (Some Examples.page200).
Proof.
  destruct (handleOffline_resolves Examples.about Examples.prepared)
    as (o & w' & Hrun & _ & _ & Hnav & _).
  rewrite Hrun. cbn [fst]. rewrite (Hnav eq_refl).
  vm_compute. reflexivity.
Defined.

(** ** Activate *)

Lemma unknown_spec c : unknown c = true <-> c ∉ KnownPartitionSet.
Proof.
  unfold unknown, KnownPartitionSet.
  rewrite !andb_true_iff, !negb_true_iff, !String.eqb_neq.
  set_solver.
Qed.

Lemma unknown_false c : unknown c = false <-> c ∈ KnownPartitionSet.
Proof.
  rewrite <- not_true_iff_false, unknown_spec.
  destruct (decide (c ∈ KnownPartitionSet)); naive_solver.
Qed.

Lemma purge_gone names : forall m c,
  m !! c = None -> foldl purge m names !! c = None.
Proof.
  induction names as [|n names IH]; intros m c Hnone; simpl; [done|].
  apply IH. unfold purge. destruct (unknown n); [|done].
  destruct (decide (n = c)) as [->|Hne].
  - apply lookup_delete_eq.
  - by rewrite lookup_delete_ne.
Qed.

Lemma purge_known names : forall m c,
  unknown c = false -> foldl purge m names !! c = m !! c.
Proof.
  induction names as [|n names IH]; intros m c Hk; simpl; [done|].
  rewrite IH by done. unfold purge.
  destruct (unknown n) eqn:Hn; [|done].
  apply lookup_delete_ne. congruence.
Qed.

Lemma purge_unknown names : forall m c,
  unknown c = true -> c ∈ names -> foldl purge m names !! c = None.
Proof.
  induction names as [|n names IH]; intros m c Hu Hin; simpl.
  - by apply elem_of_nil in Hin.
  - apply elem_of_cons in Hin as [->|Hin].
    + apply purge_gone. unfold purge. rewrite Hu. apply lookup_delete_eq.
    + by apply IH.
Qed.

Lemma activate_step_caches names : forall w,
  caches (foldl activate_step w names) = foldl purge (caches w) names
  /\ calls (foldl activate_step w names) = calls w.
Proof.
  induction names as [|n names IH]; intros w; [done|].
  cbn [foldl]. destruct (IH (activate_step w n)) as [-> ->].
  unfold activate_step, purge. by destruct (unknown n).
Qed.

Lemma activate_run w :
  activate w =
  (Resolved (),
   set_claimed
     (logged "Service Worker: Activated"
        (foldl activate_step (logged "Service Worker: Activating..." w)
               (elements (dom (caches w)))))).
Proof.
  unfold activate, mbind at 1 2, Async_bind at 1 2, console_log at 1,
    caches_keys.
  cbn beta iota.
  unfold mbind at 1, Async_bind at 1.
  erewrite for_of_fold; [done|].
  intros x w0. cbn beta.
  change (negb (String.eqb x STATIC_CACHE)
          && negb (String.eqb x DYNAMIC_CACHE)
          && negb (String.eqb x IMAGE_CACHE)) with (unknown x).
  unfold activate_step. by destruct (unknown x).
Qed.

(** C5, as the specification states it, fails: activation deletes
    partitions and creates none.  From the world an install leaves behind
    (the static partition only) the pass ends with the static partition
    alone, which is not the Known Partition Set. *)
Lemma activate_creates_no_partition :
  listPartitions
    (activate (waitUntil install (Examples.fresh Examples.online)).2).2
  = {[ STATIC_CACHE ]}
  /\ listPartitions
       (activate (waitUntil install (Examples.fresh Examples.online)).2).2
     ≠ KnownPartitionSet.
Proof.
  assert (Hleft : listPartitions
            (activate (waitUntil install (Examples.fresh Examples.online)).2).2
          = {[ STATIC_CACHE ]}) by (vm_compute; reflexivity).
  split; [exact Hleft|]. rewrite Hleft. unfold KnownPartitionSet.
  intros Heq.
  assert (Hin : DYNAMIC_CACHE ∈ ({[ STATIC_CACHE ]} : gset string))
    by (rewrite Heq; set_solver).
  apply elem_of_singleton in Hin. discriminate Hin.
Qed.

(** C5, amended.  An activate pass always completes, and the partitions it
    leaves are exactly the partitions it found whose names are in the
    Known Partition Set: every partition with another name is deleted, no
    partition of the set is deleted or changed, and none is created.  So
    the remaining set equals the Known Partition Set exactly when all
    three partitions existed before the pass. *)
Theorem activate_purges (w : World) :
  exists w',
    activate w = (Resolved (), w')
    /\ listPartitions w' = listPartitions w ∩ KnownPartitionSet
    /\ (forall c, c ∈ KnownPartitionSet -> caches w' !! c = caches w !! c)
    /\ (forall c, c ∉ KnownPartitionSet -> caches w' !! c = None)
    /\ (listPartitions w' = KnownPartitionSet
        <-> KnownPartitionSet ⊆ listPartitions w)
    /\ clientsClaimed w' = true.
Proof.
  rewrite activate_run. eexists; split; [reflexivity|].
  set (names := elements (dom (caches w))).
  set (w1 := foldl activate_step _ names).
  assert (Hcaches : caches w1 = foldl purge (caches w) names)
    by apply (activate_step_caches names
                (logged "Service Worker: Activating..." w)).
  assert (Hknown : forall c, c ∈ KnownPartitionSet ->
            caches w1 !! c = caches w !! c).
  { intros c Hc. rewrite Hcaches. by apply purge_known, unknown_false. }
  assert (Hunknown : forall c, c ∉ KnownPartitionSet -> caches w1 !! c = None).
  { intros c Hc%unknown_spec. rewrite Hcaches.
    destruct (caches w !! c) as [m|] eqn:Hc'.
    - apply purge_unknown; [done|].
      apply elem_of_elements, elem_of_dom. by rewrite Hc'.
    - by apply purge_gone. }
  assert (Hdom : listPartitions w1 = listPartitions w ∩ KnownPartitionSet).
  { unfold listPartitions. apply set_eq. intros c.
    rewrite elem_of_intersection, !elem_of_dom.
    destruct (decide (c ∈ KnownPartitionSet)) as [Hc|Hc].
    - rewrite (Hknown c Hc). naive_solver.
    - rewrite (Hunknown c Hc). split; [by intros [? ?]|naive_solver]. }
  change (listPartitions (set_claimed (logged _ w1))) with (listPartitions w1).
  change (caches (set_claimed (logged _ w1))) with (caches w1).
  split; [done|]. split; [done|]. split; [done|]. split; [|done].
  rewrite Hdom. set_solver.
Qed.

Lemma activate_purges_witness :
  caches (activate Examples.upgraded).2 !! "vaperelax-static-v0" = None
  /\ caches (activate Examples.upgraded).2 !! STATIC_CACHE = Some ∅.
Proof.
  destruct (activate_purges Examples.upgraded)
    as (w' & Hrun & _ & Hknown & Hunknown & _).
  rewrite Hrun. cbn [snd]. split.
  - apply Hunknown. apply unknown_spec. reflexivity.
  - rewrite Hknown; [reflexivity|]. apply unknown_false. reflexivity.
Defined.

(** ** Install *)

Lemma fetch_quiet_run m u w :
  try_catch (Some <$> fetch_raw m u) (fun _ => mret None) w
  = (Resolved (answer w m u), add_call (m, u) w).
Proof.
  unfold try_catch, fmap, Async_fmap, mbind, Async_bind, fetch_raw, answer.
  by destruct (network w (length (calls w)) m u).
Qed.

Lemma fetch_each_run urls : forall w,
  fetch_each urls w
  = (Resolved (answers (network w) (length (calls w)) urls),
     called_all urls w).
Proof.
  induction urls as [|u urls IH]; intros w; [done|].
  change (called_all (u :: urls) w)
    with (called_all urls (add_call ("GET", u) w)).
  cbn [fetch_each answers].
  unfold mbind at 1, Async_bind at 1. rewrite fetch_quiet_run.
  unfold mbind at 1, Async_bind at 1. rewrite IH.
  cbn [network calls add_call]. rewrite length_app, Nat.add_1_r.
  reflexivity.
Qed.

Lemma called_all_frame urls : forall w,
  caches (called_all urls w) = caches w
  /\ skipWaitingCalled (called_all urls w) = skipWaitingCalled w
  /\ console (called_all urls w) = console w.
Proof.
  induction urls as [|u urls IH]; intros w; [done|].
  change (called_all (u :: urls) w)
    with (called_all urls (add_call ("GET", u) w)).
  by destruct (IH (add_call ("GET", u) w)) as (-> & -> & ->).
Qed.

Lemma store_fetched_frame c os : forall w,
  partition c (foldl (store_fetched c) w os)
    = foldl put_fetched (partition c w) os
  /\ (forall c', c' ≠ c ->
        partition c' (foldl (store_fetched c) w os) = partition c' w)
  /\ skipWaitingCalled (foldl (store_fetched c) w os) = skipWaitingCalled w
  /\ console (foldl (store_fetched c) w os) = console w.
Proof.
  induction os as [|[u o] os IH]; intros w; [done|].
  cbn [foldl]. destruct (IH (store_fetched c w (u, o))) as (-> & Hne & -> & ->).
  unfold store_fetched, put_fetched. cbn [fst snd].
  destruct o as [r|]; [|by split].
  rewrite partition_stored. split; [done|]. split; [|done].
  intros c' Hc'. rewrite Hne by done. by apply partition_stored_ne.
Qed.

Lemma cache_addAll_run c urls w :
  cache_addAll c urls w =
  if forallb fetched_ok (answers (network w) (length (calls w)) urls)
  then (Resolved (),
        foldl (store_fetched c) (called_all urls w)
              (answers (network w) (length (calls w)) urls))
  else (Rejected (TypeError "Failed to execute 'addAll' on 'Cache'"),
        called_all urls w).
Proof.
  unfold cache_addAll, mbind, Async_bind. rewrite fetch_each_run.
  destruct (forallb fetched_ok _); [|done].
  apply for_of_fold. intros [u o] w0. unfold store_fetched. cbn [fst snd].
  by destruct o.
Qed.

Lemma install_run w :
  install w =
  let w1 := logged "Service Worker: Caching static assets"
              (opened STATIC_CACHE (logged "Service Worker: Installing..." w)) in
  if forallb fetched_ok (manifest_answers w)
  then (Resolved (),
        set_skipWaiting
          (logged "Service Worker: Static assets cached"
             (foldl (store_fetched STATIC_CACHE)
                    (called_all STATIC_ASSETS w1) (manifest_answers w))))
  else (Resolved (),
        logged "Service Worker: Failed to cache static assets"
               (called_all STATIC_ASSETS w1)).
Proof.
  unfold install, mbind at 1, Async_bind at 1, console_log at 1.
  unfold try_catch, mbind at 1, Async_bind at 1.
  change (caches_open STATIC_CACHE ?v)
    with (Resolved STATIC_CACHE, opened STATIC_CACHE v).
  unfold mbind at 1, Async_bind at 1, console_log at 1.
  unfold mbind at 1, Async_bind at 1. rewrite cache_addAll_run.
  unfold manifest_answers. cbn zeta.
  change (network (add_console ?m ?v)) with (network v).
  change (calls (add_console ?m ?v)) with (calls v).
  rewrite network_opened, calls_opened.
  change (network (add_console ?m ?v)) with (network v).
  change (calls (add_console ?m ?v)) with (calls v).
  by destruct (forallb fetched_ok _).
Qed.

Lemma answers_keys net urls : forall n, (answers net n urls).*1 = urls.
Proof.
  induction urls as [|u urls IH]; intros n; [done|].
  cbn [answers fmap list_fmap fst]. f_equal. apply IH.
Qed.

Lemma fetched_ok_all os u o :
  forallb fetched_ok os = true -> (u, o) ∈ os ->
  exists r, o = Some r /\ ok r = true.
Proof.
  intros Hall Hin. rewrite forallb_forall in Hall.
  apply list_elem_of_In, Hall in Hin. unfold fetched_ok in Hin.
  cbn [snd] in Hin. destruct o as [r|]; [eauto|done].
Qed.

Lemma put_fetched_other os : forall m u,
  u ∉ os.*1 -> foldl put_fetched m os !! u = m !! u.
Proof.
  induction os as [|[u' o] os IH]; intros m u Hnot; [done|].
  cbn [foldl]. rewrite fmap_cons in Hnot. cbn [fst] in Hnot.
  apply not_elem_of_cons in Hnot as [Hne Hnot].
  rewrite IH by done. unfold put_fetched. cbn [fst snd].
  destruct o; [by apply lookup_insert_ne|done].
Qed.

Lemma put_fetched_lookup os : forall m u r,
  NoDup os.*1 -> (u, Some r) ∈ os -> foldl put_fetched m os !! u = Some r.
Proof.
  induction os as [|[u' o] os IH]; intros m u r Hnd Hin.
  - by apply elem_of_nil in Hin.
  - cbn [foldl]. rewrite fmap_cons in Hnd. cbn [fst] in Hnd.
    apply NoDup_cons in Hnd as [Hfresh Hnd].
    apply elem_of_cons in Hin as [[= <- <-]|Hin].
    + rewrite put_fetched_other by done. apply lookup_insert_eq.
    + by apply IH.
Qed.

Lemma STATIC_ASSETS_NoDup : NoDup STATIC_ASSETS.
Proof. compute_done. Qed.

(** C4, as the specification states it, fails: with a network that
    rejects every request none of the manifest is fetched, and the step
    of the install listener succeeds all the same, with nothing in the
    static partition. *)
Lemma install_succeeds_offline :
  forallb fetched_ok (manifest_answers (Examples.fresh Examples.offline))
    = false
  /\ (waitUntil install (Examples.fresh Examples.offline)).1 = StepSucceeded
  /\ partition STATIC_CACHE
       (waitUntil install (Examples.fresh Examples.offline)).2 = ∅.
Proof. split; [done|]. split; vm_compute; reflexivity. Qed.

(** C4, amended.  Pre-population is all-or-nothing for the static
    partition, not for the install step.  The promise of the install
    listener always resolves, so the step never fails.  When every entry
    of the manifest is fetched with a 2xx response, every entry is stored
    in the static partition and skip-waiting is requested; when one
    fetch fails (or is not 2xx), no entry is stored in any partition,
    skip-waiting is not requested and the failure is the last thing
    logged. *)
Theorem install_absorbs_failure (w : World) :
  exists w',
    waitUntil install w = (StepSucceeded, w')
    /\ (forallb fetched_ok (manifest_answers w) = true ->
          (forall u, u ∈ STATIC_ASSETS ->
             exists r, (u, Some r) ∈ manifest_answers w /\ ok r = true
                       /\ partition STATIC_CACHE w' !! u = Some r)
          /\ skipWaitingCalled w' = true)
    /\ (forallb fetched_ok (manifest_answers w) = false ->
          (forall c, partition c w' = partition c w)
          /\ skipWaitingCalled w' = skipWaitingCalled w
          /\ last (console w')
             = Some "Service Worker: Failed to cache static assets").
Proof.
  unfold waitUntil. rewrite install_run. cbn zeta.
  set (w1 := logged "Service Worker: Caching static assets" _).
  destruct (forallb fetched_ok (manifest_answers w)) eqn:Hall.
  - eexists; split; [reflexivity|]. split; [|done]. intros _.
    split; [|done]. intros u Hu.
    assert (Hkeys : (manifest_answers w).*1 = STATIC_ASSETS)
      by apply answers_keys.
    assert (Hin : exists o, (u, o) ∈ manifest_answers w).
    { rewrite <- Hkeys in Hu. apply list_elem_of_fmap in Hu as ([u' o] & -> & Hin).
      by exists o. }
    destruct Hin as [o Hin].
    destruct (fetched_ok_all _ _ _ Hall Hin) as (r & -> & Hok).
    exists r. split; [done|]. split; [done|].
    change (partition STATIC_CACHE (set_skipWaiting (logged ?m ?v)))
      with (partition STATIC_CACHE v).
    destruct (store_fetched_frame STATIC_CACHE (manifest_answers w)
                (called_all STATIC_ASSETS w1)) as (-> & _).
    apply put_fetched_lookup; [|done].
    rewrite Hkeys. apply STATIC_ASSETS_NoDup.
  - eexists; split; [reflexivity|]. split; [done|]. intros _.
    destruct (called_all_frame STATIC_ASSETS w1) as (Hc & Hs & Hl).
    split; [|split].
    + intros c. unfold partition, logged. cbn [caches add_console].
      rewrite Hc. apply partition_opened.
    + unfold logged. cbn [skipWaitingCalled add_console]. rewrite Hs.
      unfold w1, logged. cbn [skipWaitingCalled add_console].
      by rewrite skipWaitingCalled_opened.
    + unfold logged at 1. cbn [console add_console]. apply last_snoc.
Qed.

Lemma install_absorbs_failure_witness :
  skipWaitingCalled (waitUntil install (Examples.fresh Examples.online)).2
    = true
  /\ skipWaitingCalled (waitUntil install (Examples.fresh Examples.offline)).2
     = false.
Proof.
  split.
  - destruct (install_absorbs_failure (Examples.fresh Examples.online))
      as (w' & Hrun & Hall & _).
    rewrite Hrun. cbn [snd]. apply Hall. reflexivity.
  - destruct (install_absorbs_failure (Examples.fresh Examples.offline))
      as (w' & Hrun & _ & Hfail).
    rewrite Hrun. cbn [snd]. by destruct (Hfail eq_refl) as (_ & -> & _).
Defined.

(** ** Background sync *)

Lemma doBackgroundSync_run w :
  doBackgroundSync w =
  (Resolved (),
   logged "Background sync: Failed to process requests"
     (logged "Service Worker: Background sync triggered" w)).
Proof. reflexivity. Qed.

(** The loop, had it been given the records of the store. *)
Lemma retry_loop_run q w :
  for_of_value (JsArray q) retry w = (Resolved (), foldl replay_step w q).
Proof.
  cbn [for_of_value]. apply for_of_fold.
  intros rd w0. unfold retry, try_catch, mbind, Async_bind, fetch_raw,
    replay_step.
  cbn zeta.
  by destruct (network w0 (length (calls w0))
                 (opt_method (entry_options rd)) (entry_url rd)).
Qed.

Lemma filter_all {A} (P : A -> Prop) `{!forall x, Decision (P x)} (l : list A) :
  (forall x, x ∈ l -> P x) -> filter P l = l.
Proof.
  induction l as [|x l IH]; intros Hall; [done|].
  rewrite filter_cons_True by (apply Hall; left).
  f_equal. apply IH. intros y Hy. apply Hall. by right.
Qed.

(** Deleting by key removes the one record that has the key. *)
Lemma delete_by_id kept rd rest :
  NoDup (entry_id <$> (kept ++ rd :: rest)) ->
  filter (fun x => entry_id x ≠ entry_id rd) (kept ++ rd :: rest)
  = kept ++ rest.
Proof.
  rewrite fmap_app, fmap_cons.
  intros (Hkept & Hdisj & [Hfresh Hrest]%NoDup_cons)%NoDup_app.
  rewrite filter_app, filter_cons_False by (intros Hne; by apply Hne).
  rewrite !filter_all; [done|..].
  - intros x Hx Heq. apply Hfresh. rewrite <- Heq.
    by apply list_elem_of_fmap_2.
  - intros x Hx Heq. apply (Hdisj (entry_id x)).
    + by apply list_elem_of_fmap_2.
    + rewrite Heq. left.
Qed.

Lemma replay_queue q : forall w kept,
  failedRequests w = kept ++ q ->
  NoDup (entry_id <$> (kept ++ q)) ->
  failedRequests (foldl replay_step w q)
  = kept ++ still_failing (network w) (length (calls w)) q.
Proof.
  induction q as [|rd q IH]; intros w kept Hq Hnd; [done|].
  cbn [foldl still_failing]. unfold replay_step at 2. cbn zeta.
  destruct (network w (length (calls w))
              (opt_method (entry_options rd)) (entry_url rd)) as [r|] eqn:Hnet.
  - rewrite (IH _ kept).
    + cbn [network calls add_console set_failedRequests add_call].
      by rewrite length_app, Nat.add_1_r.
    + cbn [failedRequests add_console set_failedRequests add_call].
      rewrite Hq. by apply delete_by_id.
    + rewrite fmap_app, fmap_cons in Hnd. rewrite fmap_app.
      apply NoDup_app in Hnd as (Hkept & Hdisj & [Hfresh Hrest]%NoDup_cons).
      apply NoDup_app. split; [done|]. split; [|done].
      intros x Hx Hin. apply (Hdisj x Hx). by right.
  - rewrite (IH _ (kept ++ [rd])).
    + cbn [network calls add_console add_call].
      by rewrite length_app, Nat.add_1_r, <- app_assoc.
    + cbn [failedRequests add_console add_call].
      by rewrite Hq, <- app_assoc.
    + by rewrite <- app_assoc.
Qed.

Lemma still_failing_none net q : forall n,
  (forall i rd, q !! i = Some rd ->
     net (n + i)%nat (opt_method (entry_options rd)) (entry_url rd) ≠ None) ->
  still_failing net n q = [].
Proof.
  induction q as [|rd q IH]; intros n Hall; [done|].
  cbn [still_failing].
  destruct (net n (opt_method (entry_options rd)) (entry_url rd)) eqn:Hnet.
  - apply IH. intros i rd' Hi.
    replace (S n + i)%nat with (n + S i)%nat by lia. by apply Hall.
  - exfalso. apply (Hall O rd); [done|]. by rewrite Nat.add_0_r.
Qed.

Lemma still_failing_one net q : forall n k rdk,
  q !! k = Some rdk ->
  net (n + k)%nat (opt_method (entry_options rdk)) (entry_url rdk) = None ->
  (forall i rd, q !! i = Some rd -> i ≠ k ->
     net (n + i)%nat (opt_method (entry_options rd)) (entry_url rd) ≠ None) ->
  still_failing net n q = [rdk].
Proof.
  induction q as [|rd q IH]; intros n k rdk Hk Hfail Hothers; [done|].
  cbn [still_failing]. destruct k as [|k].
  - injection Hk as ->. rewrite Nat.add_0_r in Hfail. rewrite Hfail.
    f_equal. apply still_failing_none. intros i rd' Hi.
    replace (S n + i)%nat with (n + S i)%nat by lia.
    by apply Hothers.
  - destruct (net n (opt_method (entry_options rd)) (entry_url rd)) eqn:Hnet.
    + apply (IH (S n) k); [done|..].
      * by replace (S n + k)%nat with (n + S k)%nat by lia.
      * intros i rd' Hi Hne.
        replace (S n + i)%nat with (n + S i)%nat by lia.
        apply Hothers; [done|lia].
    + exfalso. apply (Hothers O rd); [done|lia|]. by rewrite Nat.add_0_r.
Qed.

Lemma still_failing_elem net q rd : forall n,
  rd ∈ still_failing net n q
  <-> exists i, q !! i = Some rd
        /\ net (n + i)%nat (opt_method (entry_options rd)) (entry_url rd) = None.
Proof.
  induction q as [|rd0 q IH]; intros n.
  - split; [by intros ?%elem_of_nil|by intros (i & ? & _)].
  - cbn [still_failing].
    assert (Hrest : rd ∈ still_failing net (S n) q
              <-> exists i, q !! i = Some rd
                    /\ net (n + S i)%nat (opt_method (entry_options rd))
                           (entry_url rd) = None).
    { rewrite IH. split; intros (i & Hi & Hf); exists i; split; try done.
      - by replace (n + S i)%nat with (S n + i)%nat by lia.
      - by replace (S n + i)%nat with (n + S i)%nat by lia. }
    destruct (net n (opt_method (entry_options rd0)) (entry_url rd0)) eqn:Hnet.
    + rewrite Hrest. split.
      * intros (i & Hi & Hf). by exists (S i).
      * intros ([|i] & Hi & Hf).
        -- injection Hi as ->. rewrite Nat.add_0_r in Hf. congruence.
        -- by exists i.
    + rewrite elem_of_cons, Hrest. split.
      * intros [->|(i & Hi & Hf)].
        -- exists O. by rewrite Nat.add_0_r.
        -- by exists (S i).
      * intros ([|i] & Hi & Hf).
        -- injection Hi as ->. by left.
        -- right. by exists i.
Qed.

(** The loop over the records of a queue with distinct keys settles every
    record by its own replay: a record stays exactly when its replay is
    rejected. *)
Lemma retry_loop_drains (w : World) :
  NoDup (entry_id <$> failedRequests w) ->
  exists w',
    for_of_value (JsArray (failedRequests w)) retry w = (Resolved (), w')
    /\ (forall rd, rd ∈ failedRequests w'
          <-> exists i, failedRequests w !! i = Some rd /\ replay_fails w i rd)
    /\ ((forall i rd, failedRequests w !! i = Some rd -> ¬ replay_fails w i rd)
        -> failedRequests w' = [])
    /\ (forall k rdk,
          failedRequests w !! k = Some rdk ->
          replay_fails w k rdk ->
          (forall i rd, failedRequests w !! i = Some rd -> i ≠ k ->
             ¬ replay_fails w i rd) ->
          failedRequests w' = [rdk]).
Proof.
  intros Hnd. rewrite retry_loop_run. eexists; split; [reflexivity|].
  assert (Hq : failedRequests (foldl replay_step w (failedRequests w))
               = still_failing (network w) (length (calls w))
                   (failedRequests w)).
  { apply (replay_queue (failedRequests w) w []); done. }
  rewrite Hq. unfold replay_fails. split; [|split].
  - intros rd. apply still_failing_elem.
  - apply still_failing_none.
  - intros k rdk Hk Hfail Hothers.
    by rewrite (still_failing_one _ _ _ k rdk Hk Hfail Hothers).
Qed.

Lemma retry_loop_drains_witness :
  exists w',
    for_of_value (JsArray Examples.three_failed) retry
      (Examples.queued Examples.second_call_fails)
    = (Resolved (), w')
    /\ failedRequests w' = [ Examples.post 2 "/api/cart/add" ].
Proof.
  assert (Hnd : NoDup (entry_id <$> failedRequests
                         (Examples.queued Examples.second_call_fails))).
  { cbn. repeat constructor; set_solver. }
  destruct (retry_loop_drains _ Hnd) as (w' & Hrun & _ & _ & Hone).
  exists w'. split; [exact Hrun|].
  apply (Hone 1%nat (Examples.post 2 "/api/cart/add")).
  - reflexivity.
  - reflexivity.
  - intros [|[|[|i]]] rd Hi Hne; try done; by injection Hi as <-.
Defined.

(** C7, where the code departs from it.  A queue of three records and a
    network that answers every request: the drain makes no network call
    and deletes nothing.  [store.getAll()] gives a request object, not the
    records; the loop over it throws, the outer [catch] logs the failure,
    and the queue is as it was. *)
Theorem doBackgroundSync_replays_nothing :
  NoDup (entry_id <$> Examples.three_failed)
  /\ (forall n rd, rd ∈ Examples.three_failed ->
        Examples.online n (opt_method (entry_options rd)) (entry_url rd)
        ≠ None)
  /\ (doBackgroundSync (Examples.queued Examples.online)).1 = Resolved ()
  /\ failedRequests (doBackgroundSync (Examples.queued Examples.online)).2
     = Examples.three_failed
  /\ calls (doBackgroundSync (Examples.queued Examples.online)).2 = []
  /\ last (console (doBackgroundSync (Examples.queued Examples.online)).2)
     = Some "Background sync: Failed to process requests".
Proof.
  split.
  { cbn. repeat constructor; set_solver. }
  split; [done|].
  rewrite doBackgroundSync_run. by repeat split.
Qed.

(** ** The cache-urls command *)

Lemma cacheUrls_run urls w :
  cacheUrls urls w
  = (Resolved (), foldl cacheUrls_step (opened DYNAMIC_CACHE w) urls).
Proof.
  unfold cacheUrls, mbind at 1, Async_bind at 1.
  change (caches_open DYNAMIC_CACHE w)
    with (Resolved DYNAMIC_CACHE, opened DYNAMIC_CACHE w).
  cbn beta iota. apply for_of_fold.
  intros u w0. unfold try_catch, mbind, Async_bind, fetch_raw, cacheUrls_step.
  cbn zeta.
  destruct (network w0 (length (calls w0)) "GET" u) as [r|]; [|done].
  by destruct (ok r).
Qed.

Lemma cacheUrls_fold urls : forall w,
  steady (network w) ->
  partition DYNAMIC_CACHE (foldl cacheUrls_step w urls)
    = foldl (cache_one (network w)) (partition DYNAMIC_CACHE w) urls
  /\ (forall c, c ≠ DYNAMIC_CACHE ->
        partition c (foldl cacheUrls_step w urls) = partition c w)
  /\ network (foldl cacheUrls_step w urls) = network w
  /\ calls (foldl cacheUrls_step w urls)
     = calls w ++ ((fun u => ("GET", u)) <$> urls).
Proof.
  induction urls as [|u urls IH]; intros w Hsteady.
  - cbn [foldl fmap list_fmap]. by rewrite app_nil_r.
  - cbn [foldl].
    assert (Hstep :
      partition DYNAMIC_CACHE (cacheUrls_step w u)
        = cache_one (network w) (partition DYNAMIC_CACHE w) u
      /\ (forall c, c ≠ DYNAMIC_CACHE ->
            partition c (cacheUrls_step w u) = partition c w)
      /\ network (cacheUrls_step w u) = network w
      /\ calls (cacheUrls_step w u) = calls w ++ [("GET", u)]).
    { unfold cacheUrls_step, cache_one.
      rewrite (Hsteady (length (calls w)) O).
      destruct (network w O "GET" u) as [r|]; [|done].
      destruct (ok r); [|done].
      change (partition ?c (add_console _ ?v)) with (partition c v).
      rewrite partition_stored. split; [done|]. split; [|done].
      intros c Hc. change (partition c (add_console _ ?v)) with (partition c v).
      by rewrite partition_stored_ne. }
    destruct Hstep as (Hdyn & Hother & Hnet & Hcalls).
    destruct (IH (cacheUrls_step w u)) as (-> & Hother' & -> & ->).
    { by rewrite Hnet. }
    rewrite Hnet, Hdyn, Hcalls, fmap_cons, <- app_assoc.
    split; [done|]. split; [|done].
    intros c Hc. by rewrite Hother', Hother.
Qed.

Section CacheOne.
Context (net : Network).

Lemma cache_one_keeps urls : forall m u r,
  net O "GET" u = Some r -> ok r = true -> m !! u = Some r ->
  foldl (cache_one net) m urls !! u = Some r.
Proof.
  induction urls as [|u' urls IH]; intros m u r Hnet Hok Hm; [done|].
  cbn [foldl]. apply IH; [done..|].
  unfold cache_one. destruct (net O "GET" u') as [r'|] eqn:Hnet'; [|done].
  destruct (ok r') eqn:Hok'; [|done].
  destruct (decide (u' = u)) as [->|Hne].
  - rewrite lookup_insert_eq. congruence.
  - by rewrite lookup_insert_ne.
Qed.

Lemma cache_one_stores urls : forall m u r,
  u ∈ urls -> net O "GET" u = Some r -> ok r = true ->
  foldl (cache_one net) m urls !! u = Some r.
Proof.
  induction urls as [|u' urls IH]; intros m u r Hin Hnet Hok.
  - by apply elem_of_nil in Hin.
  - cbn [foldl]. apply elem_of_cons in Hin as [->|Hin].
    + apply cache_one_keeps; [done..|].
      unfold cache_one. rewrite Hnet, Hok. apply lookup_insert_eq.
    + by apply IH.
Qed.

Lemma cache_one_fixed urls : forall m,
  (forall u r, u ∈ urls -> net O "GET" u = Some r -> ok r = true ->
     m !! u = Some r) ->
  foldl (cache_one net) m urls = m.
Proof.
  induction urls as [|u urls IH]; intros m Hm; [done|].
  cbn [foldl].
  assert (Hone : cache_one net m u = m).
  { unfold cache_one. destruct (net O "GET" u) as [r|] eqn:Hnet; [|done].
    destruct (ok r) eqn:Hok; [|done].
    apply insert_id, Hm; [left|done..]. }
  rewrite Hone. apply IH. intros u' r Hin. apply Hm. by right.
Qed.

Lemma cache_one_idempotent urls m :
  foldl (cache_one net) (foldl (cache_one net) m urls) urls
  = foldl (cache_one net) m urls.
Proof.
  apply cache_one_fixed. intros u r Hin Hnet Hok.
  by apply cache_one_stores.
Qed.

End CacheOne.

Lemma cacheUrls_summary urls w :
  steady (network w) ->
  partition DYNAMIC_CACHE (cacheUrls urls w).2
    = foldl (cache_one (network w)) (partition DYNAMIC_CACHE w) urls
  /\ (forall c, c ≠ DYNAMIC_CACHE ->
        partition c (cacheUrls urls w).2 = partition c w)
  /\ network (cacheUrls urls w).2 = network w
  /\ calls (cacheUrls urls w).2 = calls w ++ ((fun u => ("GET", u)) <$> urls).
Proof.
  intros Hsteady. rewrite cacheUrls_run. cbn [snd].
  destruct (cacheUrls_fold urls (opened DYNAMIC_CACHE w))
    as (-> & Hother & -> & ->).
  { by rewrite network_opened. }
  rewrite network_opened, calls_opened, partition_opened.
  split; [done|]. split; [|done].
  intros c Hc. by rewrite Hother, partition_opened.
Qed.

Lemma replayed_network urls n w :
  steady (network w) -> network (replayed urls n w) = network w.
Proof.
  intros Hsteady. induction n as [|n IH]; [done|].
  change (replayed urls (S n) w) with (cacheUrls urls (replayed urls n w)).2.
  destruct (cacheUrls_summary urls (replayed urls n w))
    as (_ & _ & -> & _); [by rewrite IH|done].
Qed.

(** C9.  On a network whose answers do not change, the [cache-urls]
    command always completes, and running it any number of times in a row
    leaves every partition as one run leaves it.  One run requests every
    URL of the list, and every URL whose request is answered with a 2xx
    response is then in the dynamic partition with that response as its
    one entry, whatever happened to the other URLs of the list. *)
Theorem cacheUrls_idempotent (urls : list string) (w : World) (n : nat) :
  steady (network w) ->
  (cacheUrls urls w).1 = Resolved ()
  /\ (forall c, partition c (replayed urls (S n) w)
                = partition c (replayed urls 1 w))
  /\ (forall u r, u ∈ urls -> network w O "GET" u = Some r -> ok r = true ->
        partition DYNAMIC_CACHE (replayed urls 1 w) !! u = Some r)
  /\ calls (replayed urls 1 w)
     = calls w ++ ((fun u => ("GET", u)) <$> urls).
Proof.
  intros Hsteady.
  destruct (cacheUrls_summary urls w Hsteady) as (Hdyn & Hother & Hnet & Hcalls).
  split; [by rewrite cacheUrls_run|].
  change (replayed urls 1 w) with (cacheUrls urls w).2.
  split; [|split; [|done]].
  - induction n as [|n IH]; [done|].
    change (replayed urls (S (S n)) w)
      with (cacheUrls urls (replayed urls (S n) w)).2.
    assert (Hnet' : network (replayed urls (S n) w) = network w)
      by by apply replayed_network.
    destruct (cacheUrls_summary urls (replayed urls (S n) w))
      as (Hdyn' & Hother' & _); [by rewrite Hnet'|].
    intros c. destruct (decide (c = DYNAMIC_CACHE)) as [->|Hc].
    + rewrite Hdyn', Hnet', IH, Hdyn. apply cache_one_idempotent.
    + by rewrite Hother', IH.
  - intros u r Hin Hans Hok. rewrite Hdyn. by apply cache_one_stores.
Qed.

Lemma cacheUrls_idempotent_witness :
  partition DYNAMIC_CACHE
    (replayed [ "/a"; "/b"; "/c" ] 3 (Examples.fresh Examples.one_missing))
  = partition DYNAMIC_CACHE
      (replayed [ "/a"; "/b"; "/c" ] 1 (Examples.fresh Examples.one_missing))
  /\ partition DYNAMIC_CACHE
       (replayed [ "/a"; "/b"; "/c" ] 1 (Examples.fresh Examples.one_missing))
     !! "/c" = Some Examples.page200.
Proof.
  assert (Hsteady : steady (network (Examples.fresh Examples.one_missing)))
    by (intros n n' m u; reflexivity).
  destruct (cacheUrls_idempotent [ "/a"; "/b"; "/c" ]
              (Examples.fresh Examples.one_missing) 2 Hsteady)
    as (_ & Hsame & Hstored & _).
  split; [apply Hsame|].
  apply Hstored; [|reflexivity..].
  apply elem_of_cons; right. apply elem_of_cons; right. apply elem_of_cons; by left.
Defined.

(** ** Only 2xx responses are ever stored *)

Lemma all_ok_same w w' :
  (forall c, partition c w' = partition c w) -> all_ok w -> all_ok w'.
Proof. intros Hsame Hw c key r. rewrite Hsame. apply Hw. Qed.

Lemma all_ok_opened c w : all_ok w -> all_ok (opened c w).
Proof. apply all_ok_same. intros c'. apply partition_opened. Qed.

Lemma all_ok_stored c key r w :
  ok r = true -> all_ok w -> all_ok (stored c key r w).
Proof.
  intros Hok Hw c' key' r'. destruct (decide (c' = c)) as [->|Hne].
  - rewrite partition_stored.
    destruct (decide (key = key')) as [->|Hkey].
    + rewrite lookup_insert_eq. congruence.
    + rewrite lookup_insert_ne by done. apply Hw.
  - rewrite partition_stored_ne by done. apply Hw.
Qed.

Lemma all_ok_purged w w' :
  (forall c, caches w' !! c = caches w !! c \/ caches w' !! c = None) ->
  all_ok w -> all_ok w'.
Proof.
  intros Hsub Hw c key r. unfold partition at 1.
  destruct (Hsub c) as [-> | ->]; [apply Hw|]. cbn. by rewrite lookup_empty.
Qed.

Ltac all_ok_step :=
  first [ assumption
        | apply all_ok_stored; [assumption|]
        | apply all_ok_opened
        | refine (all_ok_same _ _ (fun _ => eq_refl) _) ].

Lemma all_ok_cacheFirst request c w :
  all_ok w -> all_ok (cacheFirst request c w).2.
Proof.
  intros Hw. rewrite cacheFirst_run.
  destruct (partition c w !! url request); cbn [snd]; [by apply all_ok_opened|].
  destruct (answer w (method request) (url request)) as [r|]; cbn [snd].
  - destruct (ok r) eqn:Hok; repeat all_ok_step.
  - repeat all_ok_step.
Qed.

Lemma all_ok_networkFirst request c w :
  all_ok w -> all_ok (networkFirst request c w).2.
Proof.
  intros Hw. rewrite networkFirst_run.
  destruct (answer w (method request) (url request)) as [r|]; cbn [snd].
  - destruct (ok r) eqn:Hok; repeat all_ok_step.
  - cbn zeta. destruct (partition c w !! url request); cbn [snd];
      repeat all_ok_step.
Qed.

Lemma all_ok_staleWhileRevalidate request c w :
  all_ok w -> all_ok (staleWhileRevalidate request c w).2.
Proof.
  intros Hw. rewrite staleWhileRevalidate_run.
  destruct (answer w (method request) (url request)) as [r|]; cbn [snd].
  - destruct (ok r) eqn:Hok; repeat all_ok_step.
  - repeat all_ok_step.
Qed.

Lemma all_ok_handleOffline request w :
  all_ok w -> all_ok (handleOffline request w).2.
Proof.
  intros Hw. rewrite handleOffline_run.
  destruct (String.eqb (mode request) "navigate"); cbn [snd];
    [by apply all_ok_opened|].
  destruct (isImage (pathname request)); cbn [snd];
    [by apply all_ok_opened|done].
Qed.

Lemma all_ok_handleRequest request w :
  all_ok w -> all_ok (handleRequest request w).2.
Proof.
  intros Hw. rewrite handleRequest_dispatch. unfold try_catch.
  assert (Hrun : all_ok
            (run_strategy (select (classify (pathname request))).1 request
               (select (classify (pathname request))).2 w).2).
  { destruct (classify (pathname request)); cbn [select fst snd run_strategy];
      auto using all_ok_cacheFirst, all_ok_networkFirst,
                 all_ok_staleWhileRevalidate. }
  destruct (run_strategy _ request _ w) as [[o|e] w1]; cbn [snd] in *; [done|].
  unfold on_failure, mbind, Async_bind, console_log.
  apply all_ok_handleOffline. repeat all_ok_step.
Qed.

Lemma all_ok_cacheUrls urls w : all_ok w -> all_ok (cacheUrls urls w).2.
Proof.
  intros Hw. rewrite cacheUrls_run. cbn [snd].
  apply all_ok_opened with (c := DYNAMIC_CACHE) in Hw.
  revert Hw. generalize (opened DYNAMIC_CACHE w).
  induction urls as [|u urls IH]; intros w0 Hw0; [done|].
  cbn [foldl]. apply IH. unfold cacheUrls_step.
  destruct (network w0 (length (calls w0)) "GET" u) as [r|];
    [|repeat all_ok_step].
  destruct (ok r) eqn:Hok; [|repeat all_ok_step].
  refine (all_ok_same _ _ (fun _ => eq_refl) _). repeat all_ok_step.
Qed.

Lemma all_ok_store_fetched c os : forall w,
  forallb fetched_ok os = true -> all_ok w ->
  all_ok (foldl (store_fetched c) w os).
Proof.
  induction os as [|[u o] os IH]; intros w Hall Hw; [done|].
  cbn [forallb] in Hall. apply andb_true_iff in Hall as [Ho Hall].
  cbn [foldl]. apply IH; [done|]. unfold store_fetched, fetched_ok in *.
  cbn [fst snd] in *. destruct o as [r|]; [|done]. by apply all_ok_stored.
Qed.

Lemma all_ok_install w : all_ok w -> all_ok (install w).2.
Proof.
  intros Hw. rewrite install_run. cbn zeta.
  set (w1 := logged "Service Worker: Caching static assets" _).
  assert (Hw1 : all_ok (called_all STATIC_ASSETS w1)).
  { destruct (called_all_frame STATIC_ASSETS w1) as (Hc & _).
    refine (all_ok_same w _ _ Hw). intros c. unfold partition at 1.
    rewrite Hc. change (partition c w1 = partition c w).
    unfold w1. by autorewrite with frames. }
  destruct (forallb fetched_ok (manifest_answers w)) eqn:Hall; cbn [snd].
  - refine (all_ok_same _ _ (fun _ => eq_refl) _).
    by apply all_ok_store_fetched.
  - by refine (all_ok_same _ _ (fun _ => eq_refl) _).
Qed.

Lemma all_ok_activate w : all_ok w -> all_ok (activate w).2.
Proof.
  intros Hw. rewrite activate_run. cbn [snd].
  refine (all_ok_purged w _ _ Hw). intros c.
  change (caches (set_claimed (logged ?m ?v))) with (caches v).
  destruct (activate_step_caches (elements (dom (caches w)))
              (logged "Service Worker: Activating..." w)) as [-> _].
  change (caches (logged _ w)) with (caches w).
  destruct (unknown c) eqn:Hc.
  - right. destruct (caches w !! c) as [m|] eqn:Hm.
    + apply purge_unknown; [done|].
      apply elem_of_elements, elem_of_dom. by rewrite Hm.
    + by apply purge_gone.
  - left. by apply purge_known.
Qed.

(** In a world in which every stored response is a 2xx response, every
    stored response is a 2xx response after the worker has handled a
    request, run the [cache-urls] command, or gone through install or
    activate; and what the offline resolver returns from the static
    partition for a navigation or an image request is then a 2xx
    response, not a 503. *)
Theorem stored_responses_stay_ok (w : World) :
  all_ok w ->
  (forall request, all_ok (handleRequest request w).2)
  /\ (forall urls, all_ok (cacheUrls urls w).2)
  /\ all_ok (install w).2
  /\ all_ok (activate w).2
  /\ (forall request r,
        (mode request = "navigate" \/ isImage (pathname request) = true) ->
        (handleOffline request w).1 = Resolved (Some r) -> ok r = true).
Proof.
  intros Hw.
  split; [intros; by apply all_ok_handleRequest|].
  split; [intros; by apply all_ok_cacheUrls|].
  split; [by apply all_ok_install|].
  split; [by apply all_ok_activate|].
  intros request r Hkind. rewrite handleOffline_run.
  destruct (String.eqb (mode request) "navigate") eqn:Hmode; cbn [fst].
  - intros [= Hin]. by apply Hw in Hin.
  - apply String.eqb_neq in Hmode. destruct Hkind as [?|Himg]; [done|].
    rewrite Himg. cbn [fst]. intros [= Hin]. by apply Hw in Hin.
Qed.

Lemma stored_responses_stay_ok_witness :
  all_ok (install (Examples.fresh Examples.online)).2.
Proof.
  apply (stored_responses_stay_ok (Examples.fresh Examples.online)).
  intros c key r. unfold partition. cbn. by rewrite lookup_empty.
Defined.

(** ** What handling a request touches *)

Lemma lookup_partition_stored c0 k0 r w c key :
  c ≠ c0 \/ key ≠ k0 ->
  partition c (stored c0 k0 r w) !! key = partition c w !! key.
Proof.
  intros Hother. destruct (decide (c = c0)) as [->|Hc].
  - rewrite partition_stored. destruct Hother as [?|Hkey]; [done|].
    by rewrite lookup_insert_ne.
  - by rewrite partition_stored_ne.
Qed.

Lemma footprint_trans request c0 w1 w2 w3 :
  footprint request c0 w1 w2 ->
  calls w3 = calls w2 -> network w3 = network w2 ->
  (forall c key, c ≠ c0 \/ key ≠ url request ->
     partition c w3 !! key = partition c w2 !! key) ->
  footprint request c0 w1 w3.
Proof.
  intros (Hnet & Hcalls & Hframe) Hc Hn Hf. split; [congruence|].
  split; [by rewrite Hc|].
  intros c key Hother. by rewrite Hf, Hframe.
Qed.

Lemma footprint_cacheFirst request c w :
  footprint request c w (cacheFirst request c w).2.
Proof.
  rewrite cacheFirst_run.
  destruct (partition c w !! url request); cbn [snd].
  - split; [apply network_opened|]. split; [left; apply calls_opened|].
    intros c' key _. by rewrite partition_opened.
  - destruct (answer w (method request) (url request)) as [r|]; cbn [snd];
      [destruct (ok r)|];
      (split; [apply network_opened|]);
      (split; [right; autorewrite with frames; done|]);
      intros c' key Hother;
      rewrite ?lookup_partition_stored by done;
      by autorewrite with frames.
Qed.

Lemma footprint_networkFirst request c w :
  footprint request c w (networkFirst request c w).2.
Proof.
  rewrite networkFirst_run.
  destruct (answer w (method request) (url request)) as [r|]; cbn [snd].
  - destruct (ok r).
    + split; [apply (network_opened c (called request w))|].
      split; [right; autorewrite with frames; done|].
      intros c' key Hother. rewrite lookup_partition_stored by done.
      by autorewrite with frames.
    + split; [done|]. split; [by right|done].
  - cbn zeta.
    assert (Hw : footprint request c w
              (opened c (logged "Network First: Network failed, trying cache"
                                (called request w)))).
    { split; [apply (network_opened c (logged _ (called request w)))|].
      split; [right; autorewrite with frames; done|].
      intros c' key _. by autorewrite with frames. }
    by destruct (partition c w !! url request).
Qed.

Lemma footprint_staleWhileRevalidate request c w :
  footprint request c w (staleWhileRevalidate request c w).2.
Proof.
  rewrite staleWhileRevalidate_run.
  destruct (answer w (method request) (url request)) as [r|]; cbn [snd];
    [destruct (ok r)|];
    (split; [apply network_opened|]);
    (split; [right; autorewrite with frames; done|]);
    intros c' key Hother;
    rewrite ?lookup_partition_stored by done;
    by autorewrite with frames.
Qed.

Lemma footprint_run_strategy s request c w :
  footprint request c w (run_strategy s request c w).2.
Proof.
  destruct s; cbn [run_strategy];
    auto using footprint_cacheFirst, footprint_networkFirst,
               footprint_staleWhileRevalidate.
Qed.

Lemma handleOffline_resolved request w :
  exists o, handleOffline request w = (Resolved o, (handleOffline request w).2)
            /\ calls (handleOffline request w).2 = calls w
            /\ network (handleOffline request w).2 = network w
            /\ (forall c, partition c (handleOffline request w).2
                          = partition c w).
Proof.
  rewrite handleOffline_run.
  destruct (String.eqb (mode request) "navigate");
    [|destruct (isImage (pathname request))]; cbn [snd];
    eexists; (split; [reflexivity|]);
    rewrite ?calls_opened, ?network_opened;
    (split; [done|]); (split; [done|]);
    intros c; by rewrite ?partition_opened.
Qed.

(** Whatever the request and whatever the cache and the network hold,
    [handleRequest] leaves the network as it is and makes at most one
    network call, the one for the request itself; and of all the entries
    of all the partitions it changes at most one, the entry of the request
    in the partition that the class of its path selects. *)
Theorem handleRequest_footprint (request : Request) (w : World) :
  footprint request (select (classify (pathname request))).2 w
    (handleRequest request w).2.
Proof.
  rewrite handleRequest_dispatch. unfold try_catch.
  pose proof (footprint_run_strategy
                (select (classify (pathname request))).1 request
                (select (classify (pathname request))).2 w) as Hrun.
  destruct (run_strategy _ request _ w) as [[o|e] w1]; cbn [snd] in Hrun.
  - done.
  - unfold on_failure, mbind, Async_bind, console_log.
    destruct (handleOffline_resolved request
                (add_console "Service Worker: Request failed" w1))
      as (o & Hoff & Hcalls & Hnet & Hpart).
    rewrite Hoff. cbn [snd].
    apply (footprint_trans _ _ _ w1); [done|done|done|].
    intros c key _. by rewrite Hpart.
Qed.

(** When the network answers the request (with whatever status),
    [handleRequest] resolves with a response and not with [undefined]: the
    answer of the network, or the entry of the request in the selected
    partition when the strategy serves from the cache. *)
Theorem handleRequest_online (request : Request) (w : World) (r : Response) :
  answer w (method request) (url request) = Some r ->
  exists r',
    (handleRequest request w).1 = Resolved (Some r')
    /\ (r' = r
        \/ partition (select (classify (pathname request))).2 w
           !! url request = Some r').
Proof.
  intros Hnet. rewrite handleRequest_dispatch. unfold try_catch.
  destruct (select (classify (pathname request))) as [[] c] eqn:Hsel;
    cbn [fst snd run_strategy].
  - rewrite cacheFirst_run.
    destruct (partition c w !! url request) as [cached|] eqn:Hhit.
    + exists cached. by split; [|right].
    + rewrite Hnet. exists r. by split; [|left].
  - rewrite networkFirst_run, Hnet. exists r. by split; [|left].
  - rewrite staleWhileRevalidate_run, Hnet.
    destruct (partition c w !! url request) as [cached|] eqn:Hhit.
    + exists cached. by split; [|right].
    + exists r. by split; [|left].
Qed.

Lemma handleRequest_online_witness :
  exists r',
    (handleRequest Examples.cart (Examples.fresh Examples.failing_server)).1
    = Resolved (Some r')
    /\ status r' = 500.
Proof.
  destruct (handleRequest_online Examples.cart
              (Examples.fresh Examples.failing_server) Examples.error500
              eq_refl) as (r' & Hrun & [-> | Hhit]).
  - by exists Examples.error500.
  - vm_compute in Hhit. discriminate Hhit.
Defined.

(** ** Clearing a partition *)

Lemma clearCache_run c w :
  clearCache c w
  = (Resolved (),
     logged "Service Worker: Cache cleared" (set_caches (delete c) w)).
Proof. reflexivity. Qed.

(** The [CLEAR_CACHE] command never rejects and makes no network call.  It
    deletes the named partition and touches no other; sent twice it leaves
    what it leaves sent once; and after it a cache-first request on that
    partition finds nothing and goes to the network. *)
Theorem clearCache_clears (c : string) (w : World) :
  exists w',
    on_message (CLEAR_CACHE c) w = (Resolved (), w')
    /\ caches w' !! c = None
    /\ (forall c', c' ≠ c -> caches w' !! c' = caches w !! c')
    /\ calls w' = calls w
    /\ caches (on_message (CLEAR_CACHE c) w').2 = caches w'
    /\ (forall request,
          calls (cacheFirst request c w').2
          = calls w ++ [(method request, url request)]).
Proof.
  cbn [on_message]. rewrite clearCache_run. eexists; split; [reflexivity|].
  cbn [caches logged add_console set_caches calls].
  split; [apply lookup_delete_eq|].
  split; [intros c' Hne; by apply lookup_delete_ne|].
  split; [done|]. split.
  - rewrite clearCache_run. cbn [snd caches logged add_console set_caches].
    apply delete_id, lookup_delete_eq.
  - intros request. rewrite cacheFirst_run.
    assert (Hmiss : partition c
              (logged "Service Worker: Cache cleared" (set_caches (delete c) w))
              !! url request = None).
    { unfold partition, logged. cbn [caches add_console set_caches].
      by rewrite lookup_delete_eq. }
    rewrite Hmiss.
    destruct (answer _ (method request) (url request)) as [r|]; cbn [snd];
      [destruct (ok r)|]; by autorewrite with frames.
Qed.

(** ** From install to offline service *)

Lemma install_precaches w u :
  forallb fetched_ok (manifest_answers w) = true ->
  u ∈ STATIC_ASSETS ->
  exists r, (u, Some r) ∈ manifest_answers w /\ ok r = true
            /\ partition STATIC_CACHE (install w).2 !! u = Some r.
Proof.
  intros Hall Hu. rewrite install_run, Hall. cbn zeta. cbn [snd].
  set (w1 := logged "Service Worker: Caching static assets" _).
  assert (Hkeys : (manifest_answers w).*1 = STATIC_ASSETS)
    by apply answers_keys.
  assert (Hin : exists o, (u, o) ∈ manifest_answers w).
  { rewrite <- Hkeys in Hu.
    apply list_elem_of_fmap in Hu as ([u' o] & -> & Hin). by exists o. }
  destruct Hin as [o Hin].
  destruct (fetched_ok_all _ _ _ Hall Hin) as (r & -> & Hok).
  exists r. split; [done|]. split; [done|].
  change (partition STATIC_CACHE (set_skipWaiting (logged ?m ?v)))
    with (partition STATIC_CACHE v).
  destruct (store_fetched_frame STATIC_CACHE (manifest_answers w)
              (called_all STATIC_ASSETS w1)) as (-> & _).
  apply put_fetched_lookup; [|done].
  rewrite Hkeys. apply STATIC_ASSETS_NoDup.
Qed.

Lemma activate_keeps_known c w :
  c ∈ KnownPartitionSet -> partition c (activate w).2 = partition c w.
Proof.
  intros Hc. rewrite activate_run. cbn [snd]. unfold partition.
  change (caches (set_claimed (logged ?m ?v))) with (caches v).
  destruct (activate_step_caches (elements (dom (caches w)))
              (logged "Service Worker: Activating..." w)) as [-> _].
  change (caches (logged _ w)) with (caches w).
  by rewrite purge_known by by apply unknown_false.
Qed.

Lemma STATIC_CACHE_known : STATIC_CACHE ∈ KnownPartitionSet.
Proof. by apply unknown_false. Qed.

(** After an install in which every entry of the manifest was fetched with
    a 2xx response, followed by activation, the worker serves without the
    network: a GET request for a manifest entry whose path is a
    static-asset path is answered from the static partition with no
    network call and no change to the world, and the offline resolver has
    the offline page for a navigation request and the placeholder for an
    image request, each a 2xx response. *)
Theorem precache_serves_offline (w : World) :
  forallb fetched_ok (manifest_answers w) = true ->
  (forall request,
     method request = "GET" ->
     url request ∈ STATIC_ASSETS ->
     isStaticAsset (pathname request) = true ->
     exists r,
       handleRequest request (activate (install w).2).2
       = (Resolved (Some r), (activate (install w).2).2)
       /\ ok r = true)
  /\ (forall request,
        mode request = "navigate" ->
        exists r,
          (handleOffline request (activate (install w).2).2).1
          = Resolved (Some r)
          /\ ok r = true
          /\ ("/offline.html", Some r) ∈ manifest_answers w)
  /\ (forall request,
        mode request ≠ "navigate" ->
        isImage (pathname request) = true ->
        exists r,
          (handleOffline request (activate (install w).2).2).1
          = Resolved (Some r)
          /\ ok r = true
          /\ ("/assets/images/placeholder-product.jpg", Some r)
             ∈ manifest_answers w).
Proof.
  intros Hall.
  assert (Hpre : forall u, u ∈ STATIC_ASSETS ->
            exists r, (u, Some r) ∈ manifest_answers w /\ ok r = true
              /\ partition STATIC_CACHE (activate (install w).2).2 !! u
                 = Some r).
  { intros u Hu. destruct (install_precaches w u Hall Hu) as (r & ? & ? & ?).
    exists r. by rewrite (activate_keeps_known _ _ STATIC_CACHE_known). }
  split; [|split].
  - intros request _ Hu Hstatic.
    destruct (Hpre _ Hu) as (r & _ & Hok & Hhit). exists r. split; [|done].
    rewrite handleRequest_dispatch, classify_tests, Hstatic.
    cbn [select fst snd run_strategy]. unfold try_catch.
    rewrite cacheFirst_run, Hhit. by rewrite (opened_entry _ _ _ _ Hhit).
  - intros request Hnav.
    destruct (Hpre "/offline.html") as (r & Hin & Hok & Hhit);
      [compute_done|].
    exists r. rewrite handleOffline_run.
    apply String.eqb_eq in Hnav. by rewrite Hnav, Hhit.
  - intros request Hnav Himg.
    destruct (Hpre "/assets/images/placeholder-product.jpg")
      as (r & Hin & Hok & Hhit); [compute_done|].
    exists r. rewrite handleOffline_run.
    apply String.eqb_neq in Hnav. by rewrite Hnav, Himg, Hhit.
Qed.

Lemma precache_serves_offline_witness :
  exists r,
    handleRequest Examples.css
      (activate (install (Examples.fresh Examples.online)).2).2
    = (Resolved (Some r),
       (activate (install (Examples.fresh Examples.online)).2).2)
    /\ ok r = true.
Proof.
  apply (precache_serves_offline (Examples.fresh Examples.online)).
  - reflexivity.
  - reflexivity.
  - compute_done.
  - reflexivity.
Defined.

(** * The page side *)

(** ** The matcher decides the language of a pattern *)

Section RegexFacts.
Import Theme.

Lemma nullable_spec r : nullable r = true <-> Matches r [].
Proof.
  induction r as [| |p|r1 IH1 r2 IH2|r1 IH1 r2 IH2|r IH]; cbn [nullable].
  - split; [done|]. inversion 1.
  - split; [constructor|done].
  - split; [done|]. inversion 1.
  - rewrite andb_true_iff, IH1, IH2. split.
    + intros [H1 H2]. apply (MSeq _ _ [] [] H1 H2).
    + inversion 1 as [| |? ? s1 s2 H1 H2| | | |]; subst.
      match goal with
      | Heq : _ ++ _ = [] |- _ => apply app_eq_nil in Heq as [-> ->]
      end.
      done.
  - rewrite orb_true_iff, IH1, IH2. split.
    + intros [H|H]; [by apply MAltL|by apply MAltR].
    + inversion 1; subst; [by left|by right].
  - split; [constructor|done].
Qed.

Lemma Matches_Seq_cons r1 r2 c s :
  Matches (Seq r1 r2) (c :: s)
  <-> (exists s1 s2, s = s1 ++ s2 /\ Matches r1 (c :: s1) /\ Matches r2 s2)
      \/ (Matches r1 [] /\ Matches r2 (c :: s)).
Proof.
  split.
  - inversion 1 as [| |? ? s1 s2 H1 H2| | | |]; subst.
    match goal with Heq : _ ++ _ = _ :: _ |- _ => rename Heq into Hcat end.
    destruct s1 as [|c' s1]; cbn in Hcat.
    + right. by subst.
    + injection Hcat as -> <-. left. by exists s1, s2.
  - intros [(s1 & s2 & -> & H1 & H2)|[H1 H2]].
    + apply (MSeq _ _ (c :: s1) s2 H1 H2).
    + apply (MSeq _ _ [] (c :: s) H1 H2).
Qed.

Lemma Matches_Star_cons r c s :
  Matches (Star r) (c :: s)
  <-> exists s1 s2, s = s1 ++ s2 /\ Matches r (c :: s1) /\ Matches (Star r) s2.
Proof.
  split.
  - intros H. remember (Star r) as r' eqn:Hr. remember (c :: s) as cs eqn:Hcs.
    revert c s Hcs.
    induction H as [| | | | | |r0 s1 s2 H1 _ H2 IH2]; try discriminate.
    injection Hr as ->. intros c s Hcs.
    destruct s1 as [|c' s1]; cbn in Hcs.
    + by apply IH2.
    + injection Hcs as -> <-. by exists s1, s2.
  - intros (s1 & s2 & -> & H1 & H2). apply (MStarApp _ (c :: s1) s2 H1 H2).
Qed.

Lemma deriv_spec r : forall c s,
  Matches (deriv c r) s <-> Matches r (c :: s).
Proof.
  induction r as [| |p|r1 IH1 r2 IH2|r1 IH1 r2 IH2|r IH]; intros c s;
    cbn [deriv].
  - split; inversion 1.
  - split; inversion 1.
  - destruct (p c) eqn:Hp; split.
    + inversion 1; subst. by constructor.
    + inversion 1; subst. constructor.
    + inversion 1.
    + inversion 1; subst. congruence.
  - rewrite Matches_Seq_cons.
    assert (Hleft : Matches (Seq (deriv c r1) r2) s
              <-> exists s1 s2, s = s1 ++ s2 /\ Matches r1 (c :: s1)
                                /\ Matches r2 s2).
    { split.
      - inversion 1 as [| |? ? s1 s2 H1 H2| | | |]; subst.
        exists s1, s2. by rewrite <- IH1.
      - intros (s1 & s2 & -> & H1 & H2). constructor; [by apply IH1|done]. }
    destruct (nullable r1) eqn:Hnull.
    + apply nullable_spec in Hnull. split.
      * inversion 1; subst; [left; by apply Hleft|right; by rewrite <- IH2].
      * intros [H|[_ H]]; [apply MAltL; by apply Hleft
                          |apply MAltR; by apply IH2].
    + rewrite Hleft. split; [by left|]. intros [H|[H _]]; [done|].
      apply nullable_spec in H. congruence.
  - split.
    + inversion 1; subst; [apply MAltL; by apply IH1|apply MAltR; by apply IH2].
    + inversion 1; subst; [apply MAltL; by apply IH1|apply MAltR; by apply IH2].
  - rewrite Matches_Star_cons. split.
    + inversion 1 as [| |? ? s1 s2 H1 H2| | | |]; subst.
      exists s1, s2. by rewrite <- IH.
    + intros (s1 & s2 & -> & H1 & H2). constructor; [by apply IH|done].
Qed.

Lemma test_spec s : forall r, test r s = true <-> Matches r s.
Proof.
  induction s as [|c s IH]; intros r; cbn [test].
  - apply nullable_spec.
  - by rewrite IH, deriv_spec.
Qed.

End RegexFacts.

Section RegexShapes.
Import Theme.

Lemma Matches_Seq r1 r2 s :
  Matches (Seq r1 r2) s
  <-> exists s1 s2, s = s1 ++ s2 /\ Matches r1 s1 /\ Matches r2 s2.
Proof.
  split.
  - inversion 1; subst. eauto.
  - intros (s1 & s2 & -> & H1 & H2). by constructor.
Qed.

Lemma Matches_Alt r1 r2 s :
  Matches (Alt r1 r2) s <-> Matches r1 s \/ Matches r2 s.
Proof.
  split.
  - inversion 1; subst; [by left|by right].
  - intros [H|H]; [by apply MAltL|by apply MAltR].
Qed.

Lemma Matches_Empty s : Matches Empty s <-> s = [].
Proof. split; [by inversion 1|intros ->; constructor]. Qed.

Lemma Matches_Class p s :
  Matches (Class p) s <-> exists c, s = [c] /\ p c = true.
Proof.
  split.
  - inversion 1; subst. eauto.
  - intros (c & -> & Hp). by constructor.
Qed.

Lemma Matches_Lit c s : Matches (Lit c) s <-> s = [c].
Proof.
  unfold Lit. rewrite Matches_Class. split.
  - intros (c' & -> & Heq%N.eqb_eq). by subst.
  - intros ->. exists c. split; [done|]. apply N.eqb_refl.
Qed.

Lemma Matches_Lits cs : forall s, Matches (Lits cs) s <-> s = cs.
Proof.
  induction cs as [|c cs IH]; intros s; cbn [Lits].
  - split; [by inversion 1|intros ->; constructor].
  - rewrite Matches_Seq. split.
    + intros (s1 & s2 & -> & ->%Matches_Lit & ->%IH). done.
    + intros ->. exists [c], cs. split; [done|].
      split; [by apply Matches_Lit|by apply IH].
Qed.

Lemma Matches_Star_Class p s :
  Matches (Star (Class p)) s <-> forallb p s = true.
Proof.
  induction s as [|c s IH].
  - split; [done|constructor].
  - rewrite Matches_Star_cons. cbn [forallb]. rewrite andb_true_iff, <- IH.
    split.
    + intros (s1 & s2 & -> & (c' & [= -> ->] & Hp)%Matches_Class & Hs).
      done.
    + intros [Hp Hs]. exists [], s. split; [done|].
      split; [by constructor|done].
Qed.

Lemma Matches_Plus_Class p s :
  Matches (Plus (Class p)) s <-> s ≠ [] /\ forallb p s = true.
Proof.
  unfold Plus. rewrite Matches_Seq. split.
  - intros (s1 & s2 & -> & (c & -> & Hp)%Matches_Class
            & Hs%Matches_Star_Class).
    split; [done|]. cbn. by rewrite Hp.
  - intros [Hne Hall]. destruct s as [|c s]; [done|].
    cbn [forallb] in Hall. apply andb_true_iff in Hall as [Hp Hs].
    exists [c], s. split; [done|].
    split; [by constructor|by apply Matches_Star_Class].
Qed.

Lemma Matches_Repeat_Class p n : forall s,
  Matches (Repeat n (Class p)) s <-> length s = n /\ forallb p s = true.
Proof.
  induction n as [|n IH]; intros s; cbn [Repeat].
  - split.
    + by inversion 1.
    + intros [->%length_zero_iff_nil _]. constructor.
  - rewrite Matches_Seq. split.
    + intros (s1 & s2 & -> & (c & -> & Hp)%Matches_Class & [Hlen Hs]%IH).
      cbn. rewrite Hp. split; [by rewrite Hlen|done].
    + intros [Hlen Hall]. destruct s as [|c s]; [done|].
      cbn [forallb] in Hall. apply andb_true_iff in Hall as [Hp Hs].
      exists [c], s. split; [done|].
      split; [by constructor|]. apply IH. split; [|done].
      cbn in Hlen. by injection Hlen.
Qed.

Lemma notSpaceAt_spec c :
  notSpaceAt c = true <-> isWhiteSpace c = false /\ c ≠ at_sign.
Proof.
  unfold notSpaceAt.
  rewrite andb_true_iff, !negb_true_iff, N.eqb_neq. done.
Qed.

(** The e-mail pattern accepts exactly the strings of the form
    [name@host.tld] in which [name], [host] and [tld] are not empty and
    hold neither white space nor [@].  So an accepted address has no
    white space, exactly one [@], and at least five characters. *)
Theorem email_test_shape (s : list N) :
  (test emailRegex s = true
   <-> exists name host tld,
         s = name ++ [at_sign] ++ host ++ [dot] ++ tld
         /\ name ≠ [] /\ host ≠ [] /\ tld ≠ []
         /\ forallb notSpaceAt (name ++ host ++ tld) = true)
  /\ (test emailRegex s = true ->
        forallb (fun c => negb (isWhiteSpace c)) s = true
        /\ length (List.filter (N.eqb at_sign) s) = 1%nat
        /\ (5 <= length s)%nat).
Proof.
  assert (Hshape : test emailRegex s = true
            <-> exists name host tld,
                  s = name ++ [at_sign] ++ host ++ [dot] ++ tld
                  /\ name ≠ [] /\ host ≠ [] /\ tld ≠ []
                  /\ forallb notSpaceAt (name ++ host ++ tld) = true).
  { rewrite test_spec. unfold emailRegex. split.
    - intros (name & s1 & -> & [Hn Hname]%Matches_Plus_Class
              & (a & s2 & -> & ->%Matches_Lit
              & (host & s3 & -> & [Hh Hhost]%Matches_Plus_Class
              & (d & tld & -> & ->%Matches_Lit
              & [Ht Htld]%Matches_Plus_Class)%Matches_Seq)%Matches_Seq
                )%Matches_Seq)%Matches_Seq.
      exists name, host, tld. repeat (split; [done|]).
      rewrite !forallb_app, Hname, Hhost, Htld. done.
    - intros (name & host & tld & -> & Hn & Hh & Ht & Hall).
      rewrite !forallb_app, !andb_true_iff in Hall.
      destruct Hall as (Hname & Hhost & Htld).
      apply Matches_Seq. exists name, ([at_sign] ++ host ++ [dot] ++ tld).
      split; [done|]. split; [by apply Matches_Plus_Class|].
      apply Matches_Seq. exists [at_sign], (host ++ [dot] ++ tld).
      split; [done|]. split; [by apply Matches_Lit|].
      apply Matches_Seq. exists host, ([dot] ++ tld).
      split; [done|]. split; [by apply Matches_Plus_Class|].
      apply Matches_Seq. exists [dot], tld.
      split; [done|]. split; [by apply Matches_Lit|].
      by apply Matches_Plus_Class. }
  split; [exact Hshape|].
  intros (name & host & tld & -> & Hn & Hh & Ht & Hall)%Hshape.
  rewrite !forallb_app, !andb_true_iff in Hall.
  destruct Hall as (Hname & Hhost & Htld).
  assert (Hws : forall l, forallb notSpaceAt l = true ->
            forallb (fun c => negb (isWhiteSpace c)) l = true).
  { intros l Hl. rewrite forallb_forall in *. intros c Hc.
    apply Hl, notSpaceAt_spec in Hc as [-> _]. done. }
  assert (Hat : forall l, forallb notSpaceAt l = true ->
            List.filter (N.eqb at_sign) l = []).
  { induction l as [|c l IH]; [done|]. cbn [forallb List.filter].
    intros [[_ Hc]%notSpaceAt_spec Hl]%andb_true_iff.
    apply not_eq_sym, N.eqb_neq in Hc. rewrite Hc. by apply IH. }
  split; [|split].
  - rewrite !forallb_app, (Hws name), (Hws host), (Hws tld) by done.
    reflexivity.
  - rewrite !List.filter_app, (Hat name), (Hat host), (Hat tld) by done.
    reflexivity.
  - destruct name, host, tld; try done. rewrite !length_app. cbn. lia.
Qed.

Lemma isFive_spec c : isFive c = true <-> c = 53%N.
Proof. unfold isFive. rewrite N.eqb_eq. done. Qed.

(** The phone pattern accepts exactly a [5] followed by eight digits,
    alone or after [0] or after [+966]. *)
Theorem phone_test_shape (s : list N) :
  test phoneRegex s = true
  <-> exists ds,
        length ds = 8%nat /\ forallb isDigit ds = true
        /\ (s = 53%N :: ds
            \/ s = 48%N :: 53%N :: ds
            \/ s = js "+966" ++ 53%N :: ds).
Proof.
  rewrite test_spec. unfold phoneRegex, Opt. split.
  - intros (pre & s1 & -> & Hpre
            & (five & ds & -> & (c & -> & ->%isFive_spec)%Matches_Class
            & [Hlen Hds]%Matches_Repeat_Class)%Matches_Seq)%Matches_Seq.
    exists ds. split; [done|]. split; [done|].
    apply Matches_Alt in Hpre as [Hpre|Hpre].
    + apply Matches_Alt in Hpre as [Hpre|Hpre].
      * apply Matches_Lits in Hpre as ->. by right; right.
      * apply Matches_Lit in Hpre as ->. by right; left.
    + apply Matches_Empty in Hpre as ->. by left.
  - intros (ds & Hlen & Hds & Hs).
    assert (Hrest : Matches (Seq (Class isFive) (Repeat 8 (Class isDigit)))
                      (53%N :: ds)).
    { apply Matches_Seq. exists [53%N], ds. split; [done|].
      split; [by constructor|by apply Matches_Repeat_Class]. }
    apply Matches_Seq. destruct Hs as [->|[->| ->]].
    + exists [], (53%N :: ds). split; [done|]. split; [|done].
      apply MAltR. constructor.
    + exists [48%N], (53%N :: ds). split; [done|]. split; [|done].
      apply MAltL, MAltR. by apply Matches_Lit.
    + exists (js "+966"), (53%N :: ds). split; [done|]. split; [|done].
      apply MAltL, MAltL. by apply Matches_Lits.
Qed.

Example email_accepts : test emailRegex (js "a.b@mail.example.sa") = true.
Proof. reflexivity. Qed.

Example email_rejects_no_dot : test emailRegex (js "user@localhost") = false.
Proof. reflexivity. Qed.

Example phone_accepts : test phoneRegex (js "+966512345678") = true.
Proof. reflexivity. Qed.

Example phone_rejects_short : test phoneRegex (js "05123") = false.
Proof. reflexivity. Qed.

End RegexShapes.

(** ** Form validation *)

Section FormFacts.
Import Theme.

Lemma dropWhile_nil p s : dropWhile p s = [] <-> forallb p s = true.
Proof.
  induction s as [|c s IH]; cbn [dropWhile forallb]; [done|].
  destruct (p c); [by rewrite IH|]. split; done.
Qed.

Lemma dropWhile_head p s c s' : dropWhile p s = c :: s' -> p c = false.
Proof.
  induction s as [|c0 s IH]; cbn [dropWhile]; [done|].
  destruct (p c0) eqn:Hp; [done|]. by intros [= <- _].
Qed.

Lemma filter_dropWhile p s :
  List.filter (fun c => negb (p c)) (dropWhile p s)
  = List.filter (fun c => negb (p c)) s.
Proof.
  induction s as [|c s IH]; cbn [dropWhile]; [done|].
  destruct (p c) eqn:Hp; [|done]. cbn [List.filter]. by rewrite Hp.
Qed.

Lemma filter_reverse (q : N -> bool) s :
  List.filter q (reverse s) = reverse (List.filter q s).
Proof.
  induction s as [|c s IH]; [done|].
  rewrite reverse_cons, List.filter_app, IH. cbn [List.filter].
  destruct (q c); [by rewrite reverse_cons|by rewrite app_nil_r].
Qed.

Lemma forallb_reverse (p : N -> bool) s :
  forallb p (reverse s) = forallb p s.
Proof.
  induction s as [|c s IH]; [done|].
  rewrite reverse_cons, forallb_app, IH. cbn [forallb].
  rewrite andb_true_r. apply andb_comm.
Qed.

(** [trim] leaves nothing exactly when the string is all white space,
    and removes no character that is not white space. *)
Lemma trim_nil s : trim s = [] <-> forallb isWhiteSpace s = true.
Proof.
  unfold trim. split.
  - intros H. apply (f_equal reverse) in H.
    rewrite reverse_involutive in H. cbn in H.
    apply dropWhile_nil in H. rewrite forallb_reverse in H.
    destruct (dropWhile isWhiteSpace s) as [|c s'] eqn:Hd.
    + by apply dropWhile_nil.
    + apply dropWhile_head in Hd. cbn [forallb] in H.
      rewrite Hd in H. done.
  - intros H. apply dropWhile_nil in H. by rewrite H.
Qed.

Lemma removeSpaces_trim s : removeSpaces (trim s) = removeSpaces s.
Proof.
  unfold removeSpaces, trim.
  rewrite filter_reverse, filter_dropWhile, filter_reverse,
    reverse_involutive.
  apply filter_dropWhile.
Qed.

Lemma isEmpty_nil s : isEmpty s = true <-> s = [].
Proof. by destruct s. Qed.

(** The rules of [validateField], by the value as the user typed it.  A
    value of white space only counts as no value: it is refused when the
    control is required, with the message for a required field, and
    accepted otherwise whatever the type.  Any other value is accepted in
    an e-mail control exactly when, trimmed, it has the e-mail shape; in a
    phone control exactly when, all its white space removed, it has the
    phone shape, wherever the user put spaces; and always in a control of
    another type. *)
Theorem validateField_rules (field : Control) :
  (forallb isWhiteSpace (value field) = true ->
     verdict field
     = if required field then (false, requiredMessage)
       else (true, EmptyString))
  /\ (forallb isWhiteSpace (value field) = false ->
      (type field = "email" ->
         (verdict field).1 = test emailRegex (trim (value field)))
      /\ (type field = "tel" ->
            (verdict field).1
            = test phoneRegex (removeSpaces (value field)))
      /\ (type field ≠ "email" -> type field ≠ "tel" ->
            (verdict field).1 = true)).
Proof.
  unfold verdict. split.
  - intros Hblank. apply trim_nil in Hblank. rewrite Hblank. cbn [isEmpty].
    rewrite andb_true_r, !andb_false_r. by destruct (required field).
  - intros Hvalue.
    assert (Hne : isEmpty (trim (value field)) = false).
    { apply not_true_iff_false. rewrite isEmpty_nil, trim_nil. congruence. }
    rewrite Hne, andb_false_r, !andb_true_r, removeSpaces_trim.
    split; [|split].
    + intros Hty. rewrite Hty. cbn.
      by destruct (test emailRegex (trim (value field))).
    + intros Hty. rewrite Hty. cbn.
      by destruct (test phoneRegex (removeSpaces (value field))).
    + intros Hemail%String.eqb_neq Htel%String.eqb_neq.
      by rewrite Hemail, Htel.
Qed.

Lemma validateField_rules_witness :
  (verdict {| value := js " 055 123 4567 "; type := "tel";
              required := true; parentNode := O; errorClass := false |}).1
  = true.
Proof.
  destruct (validateField_rules
              {| value := js " 055 123 4567 "; type := "tel";
                 required := true; parentNode := O; errorClass := false |})
    as [_ Hrules].
  destruct (Hrules eq_refl) as (_ & Htel & _).
  rewrite (Htel eq_refl). reflexivity.
Defined.

End FormFacts.

Section FormTree.
Import Theme.

Lemma errorsIn_control inP field l :
  errorsIn inP (control field :: l) = errorsIn inP l.
Proof. reflexivity. Qed.

Lemma errorsIn_error inP q e l :
  errorsIn inP (fieldError q e :: l)
  = if inP q then e :: errorsIn inP l else errorsIn inP l.
Proof. unfold errorsIn. simpl. by destruct (inP q). Qed.

Lemma controlsOf_control field l :
  controlsOf (control field :: l) = field :: controlsOf l.
Proof. reflexivity. Qed.

Lemma controlsOf_error q e l :
  controlsOf (fieldError q e :: l) = controlsOf l.
Proof. reflexivity. Qed.

Lemma alter_O {A} (g : A -> A) x l : alter g O (x :: l) = g x :: l.
Proof. reflexivity. Qed.

Lemma alter_S {A} (g : A -> A) k x l :
  alter g (S k) (x :: l) = x :: alter g k l.
Proof. reflexivity. Qed.

Lemma delete_O {A} (x : A) l : delete O (x :: l) = l.
Proof. reflexivity. Qed.

Lemma delete_S {A} k (x : A) l : delete (S k) (x :: l) = x :: delete k l.
Proof. reflexivity. Qed.

Lemma querySelector_control inP field l :
  querySelector inP (control field :: l) = S <$> querySelector inP l.
Proof. reflexivity. Qed.

Lemma querySelector_error inP q e l :
  querySelector inP (fieldError q e :: l)
  = if inP q then Some O else S <$> querySelector inP l.
Proof. reflexivity. Qed.

Lemma fmap_S_Some (o : option nat) k :
  S <$> o = Some k -> exists k', o = Some k' /\ k = S k'.
Proof. destruct o as [k'|]; [|done]. intros [= <-]. by exists k'. Qed.

Lemma fmap_S_None (o : option nat) : S <$> o = None <-> o = None.
Proof. by destruct o. Qed.

Ltac tree :=
  repeat first
    [ rewrite errorsIn_control | rewrite errorsIn_error
    | rewrite controlsOf_control | rewrite controlsOf_error
    | rewrite alter_O | rewrite alter_S | rewrite delete_O
    | rewrite delete_S | rewrite querySelector_control
    | rewrite querySelector_error ].

Lemma controlsOf_setControl g l : forall i,
  controlsOf (setControl i g l) = alter g i (controlsOf l).
Proof.
  induction l as [|[field|q e] l IH]; intros i; [done| |].
  - destruct i as [|i]; cbn [setControl]; tree; [done|]. by rewrite IH.
  - cbn [setControl]. tree. apply IH.
Qed.

Lemma errorsIn_setControl inP g l : forall i,
  errorsIn inP (setControl i g l) = errorsIn inP l.
Proof.
  induction l as [|[field|q e] l IH]; intros i; [done| |].
  - destruct i as [|i]; cbn [setControl]; tree; [done|]. apply IH.
  - cbn [setControl]. tree. by rewrite IH.
Qed.

Lemma querySelector_setControl inP g l : forall i,
  querySelector inP (setControl i g l) = querySelector inP l.
Proof.
  induction l as [|[field|q e] l IH]; intros i; [done| |].
  - destruct i as [|i]; cbn [setControl]; tree; [done|]. by rewrite IH.
  - cbn [setControl]. tree. by rewrite IH.
Qed.


Lemma alter_insert {A} (g : A -> A) (l : list A) : forall i x,
  l !! i = Some x -> alter g i l = <[i := g x]> l.
Proof.
  induction l as [|y l IH]; intros i x; [done|].
  destruct i as [|i]; tree.
  - by intros [= ->].
  - intros Hi. cbn. f_equal. by apply IH.
Qed.

Lemma querySelector_None inP l :
  querySelector inP l = None <-> errorsIn inP l = [].
Proof.
  induction l as [|[field|q e] l IH]; [done| |]; tree.
  - by rewrite fmap_S_None.
  - destruct (inP q); [done|]. by rewrite fmap_S_None.
Qed.


Lemma errorsIn_restyle inP shown l : forall k,
  querySelector inP l = Some k ->
  errorsIn inP (alter (restyle shown) k l) = shown :: tail (errorsIn inP l)
  /\ querySelector inP (alter (restyle shown) k l) = Some k
  /\ alter (restyle shown) k (alter (restyle shown) k l)
     = alter (restyle shown) k l
  /\ controlsOf (alter (restyle shown) k l) = controlsOf l.
Proof.
  induction l as [|[field|q e] l IH]; intros k; [done| |]; tree.
  - intros (k' & Hk' & ->)%fmap_S_Some. tree.
    destruct (IH k' Hk') as (-> & -> & -> & ->). done.
  - destruct (inP q) eqn:Hq.
    + intros [= <-]. tree. cbn [restyle]. tree. by rewrite Hq.
    + intros (k' & Hk' & ->)%fmap_S_Some. tree. rewrite Hq.
      destruct (IH k' Hk') as (-> & -> & -> & ->). done.
Qed.

Lemma errorsIn_delete inP l : forall k,
  querySelector inP l = Some k ->
  errorsIn inP (delete k l) = tail (errorsIn inP l)
  /\ controlsOf (delete k l) = controlsOf l.
Proof.
  induction l as [|[field|q e] l IH]; intros k; [done| |]; tree.
  - intros (k' & Hk' & ->)%fmap_S_Some. tree.
    by destruct (IH k' Hk') as (-> & ->).
  - destruct (inP q) eqn:Hq.
    + intros [= <-]. by tree.
    + intros (k' & Hk' & ->)%fmap_S_Some. tree. rewrite Hq.
      by destruct (IH k' Hk') as (-> & ->).
Qed.

Lemma errorsIn_apart inP inQ shown l : forall k,
  (forall q, inP q = true -> inQ q = false) ->
  querySelector inP l = Some k ->
  errorsIn inQ (alter (restyle shown) k l) = errorsIn inQ l
  /\ errorsIn inQ (delete k l) = errorsIn inQ l.
Proof.
  intros k Hapart. revert k.
  induction l as [|[field|q e] l IH]; intros k; [done| |]; tree.
  - intros (k' & Hk' & ->)%fmap_S_Some. tree. by apply IH.
  - destruct (inP q) eqn:Hq.
    + intros [= <-]. tree. cbn [restyle]. tree. by rewrite (Hapart q Hq).
    + intros (k' & Hk' & ->)%fmap_S_Some. tree.
      destruct (IH k' Hk') as (-> & ->). done.
Qed.

Lemma errorsIn_outside inP l :
  existsb (fun z => inP (parentOf z)) l = false -> errorsIn inP l = [].
Proof.
  induction l as [|[field|q e] l IH]; [done| |]; cbn [existsb parentOf];
    tree.
  - intros [_ Hl]%orb_false_iff. by apply IH.
  - intros [-> Hl]%orb_false_iff. by apply IH.
Qed.

Lemma errorsIn_appendChild inP p shown l :
  inP p = true ->
  errorsIn inP (appendChild inP (fieldError p shown) l)
  = errorsIn inP l ++ [shown]
  /\ controlsOf (appendChild inP (fieldError p shown) l) = controlsOf l.
Proof.
  intros Hp. induction l as [|y l [IHe IHc]].
  - cbn [appendChild]. tree. by rewrite Hp.
  - cbn [appendChild].
    destruct (inP (parentOf y)
              && negb (existsb (fun z => inP (parentOf z)) l)) eqn:Hlast.
    + apply andb_true_iff in Hlast as [Hy Hl%negb_true_iff].
      pose proof (errorsIn_outside inP l Hl) as Hnone.
      destruct y as [field|q e]; cbn [parentOf] in Hy; tree;
        rewrite ?Hy, Hp, Hnone; done.
    + destruct y as [field|q e]; tree; rewrite IHe, IHc; [done|].
      by destruct (inP q).
Qed.

Lemma errorsIn_appendChild_apart inP inQ p shown l :
  inQ p = false ->
  errorsIn inQ (appendChild inP (fieldError p shown) l) = errorsIn inQ l.
Proof.
  intros Hp. induction l as [|y l IH].
  - cbn [appendChild]. tree. by rewrite Hp.
  - cbn [appendChild].
    destruct (inP (parentOf y)
              && negb (existsb (fun z => inP (parentOf z)) l)).
    + destruct y as [field|q e]; tree; rewrite Hp; done.
    + destruct y as [field|q e]; tree; by rewrite IH.
Qed.

Lemma within_refl f p : within f p p = true.
Proof. unfold within. by rewrite Nat.eqb_refl. Qed.

Lemma within_items l f :
  within {| items := l; ancestors := ancestors f |} = within f.
Proof. reflexivity. Qed.

Lemma verdict_marked b field :
  verdict (set_errorClass b field) = verdict field.
Proof. reflexivity. Qed.

(** What validating one control does, in any form. *)
Lemma validateField_run i f field :
  controls f !! i = Some field ->
  (validateField i f).1 = (verdict field).1
  /\ controls (validateField i f).2 = <[i := marked field]> (controls f)
  /\ ancestors (validateField i f).2 = ancestors f
  /\ errorsBelow (parentNode field) (validateField i f).2
     = shownFor field (errorsBelow (parentNode field) f)
  /\ (forall p,
        (forall q, within f (parentNode field) q = true ->
                   within f p q = false) ->
        errorsBelow p (validateField i f).2 = errorsBelow p f).
Proof.
  intros Hi. unfold validateField, showFieldError, clearFieldError, marked,
    shownFor, errorsBelow, controls in *.
  rewrite Hi. destruct (verdict field) as [[] msg]; cbn [fst snd negb].
  - split; [done|].
    destruct (querySelector (within f (parentNode field))
                (setControl i (set_errorClass false) (items f)))
      as [k|] eqn:Hk; cbn [items ancestors]; rewrite !within_items.
    + destruct (errorsIn_delete _ _ _ Hk) as [-> ->].
      rewrite controlsOf_setControl, errorsIn_setControl.
      rewrite (alter_insert _ _ _ _ Hi).
      repeat (split; [done|]). intros p Hp.
      destruct (errorsIn_apart _ (within f p)
                  {| textContent := msg; cssText := fieldErrorStyle |}
                  _ _ Hp Hk) as [_ ->].
      apply errorsIn_setControl.
    + rewrite controlsOf_setControl, !errorsIn_setControl.
      rewrite (alter_insert _ _ _ _ Hi).
      rewrite querySelector_setControl in Hk.
      apply querySelector_None in Hk. rewrite Hk.
      repeat (split; [done|]). intros p Hp. apply errorsIn_setControl.
  - split; [done|].
    destruct (querySelector (within f (parentNode field))
                (setControl i (set_errorClass true) (items f)))
      as [k|] eqn:Hk; cbn [items ancestors]; rewrite !within_items.
    + destruct (errorsIn_restyle _
                  {| textContent := msg; cssText := fieldErrorStyle |}
                  _ _ Hk) as (-> & _ & _ & ->).
      rewrite controlsOf_setControl, errorsIn_setControl.
      rewrite (alter_insert _ _ _ _ Hi).
      repeat (split; [done|]). intros p Hp.
      destruct (errorsIn_apart _ (within f p)
                  {| textContent := msg; cssText := fieldErrorStyle |}
                  _ _ Hp Hk) as [-> _].
      apply errorsIn_setControl.
    + destruct (errorsIn_appendChild (within f (parentNode field))
                  (parentNode field)
                  {| textContent := msg; cssText := fieldErrorStyle |}
                  (setControl i (set_errorClass true) (items f))
                  (within_refl _ _)) as [-> ->].
      rewrite controlsOf_setControl, errorsIn_setControl.
      rewrite (alter_insert _ _ _ _ Hi).
      rewrite querySelector_setControl in Hk.
      apply querySelector_None in Hk. rewrite Hk.
      repeat (split; [done|]). intros p Hp.
      rewrite errorsIn_appendChild_apart
        by (apply Hp, within_refl).
      apply errorsIn_setControl.
Qed.

Lemma validateField_missing i f :
  controls f !! i = None -> validateField i f = (true, f).
Proof. unfold validateField. by intros ->. Qed.

End FormTree.

Section FormRuns.
Import Theme.

Lemma validateForm_prefix f n :
  (n <= length (controls f))%nat ->
  (foldl (fun '(isValid, f) i =>
            let '(fieldValid, f') := validateField i f in
            (if negb fieldValid then false else isValid, f'))
         (true, f) (seq 0 n)).1
  = forallb (fun c => (verdict c).1) (take n (controls f))
  /\ controls
       (foldl (fun '(isValid, f) i =>
                 let '(fieldValid, f') := validateField i f in
                 (if negb fieldValid then false else isValid, f'))
              (true, f) (seq 0 n)).2
     = (marked <$> take n (controls f)) ++ drop n (controls f).
Proof.
  induction n as [|n IH]; intros Hn.
  - cbn. by rewrite drop_0.
  - rewrite seq_S, foldl_app. cbn [foldl Nat.add].
    destruct IH as [IHv IHc]; [lia|].
    destruct (foldl _ (true, f) (seq 0 n)) as [v f1]. cbn [fst snd] in *.
    destruct (lookup_lt_is_Some_2 (controls f) n) as [field Hfield]; [lia|].
    assert (Hf1 : controls f1 !! n = Some field).
    { rewrite IHc, lookup_app_r; rewrite length_fmap, length_take_le by lia;
        [|done].
      by rewrite Nat.sub_diag, lookup_drop, Nat.add_0_r. }
    destruct (validateField_run n f1 field Hf1) as (Hv1 & Hc1 & _).
    destruct (validateField n f1) as [v1 f2]. cbn [fst snd] in *.
    rewrite Hv1, Hc1.
    rewrite (take_S_r _ _ _ Hfield), forallb_app, fmap_app. cbn [forallb].
    split.
    + rewrite IHv, andb_true_r.
      destruct (verdict field).1; cbn [negb]; [by rewrite andb_true_r|].
      by rewrite andb_false_r.
    + rewrite IHc, <- app_assoc. cbn [fmap list_fmap app].
      rewrite insert_app_r_alt; rewrite length_fmap, length_take_le by lia;
        [|done].
      rewrite Nat.sub_diag. f_equal.
      rewrite (drop_S _ _ _ Hfield). done.
Qed.

Lemma forallb_false {A} (p : A -> bool) (l : list A) :
  forallb p l = false <-> exists x, x ∈ l /\ p x = false.
Proof.
  induction l as [|x l IH]; cbn [forallb].
  - split; [done|]. by intros (x & Hin%elem_of_nil & _).
  - rewrite andb_false_iff, IH. split.
    + intros [Hx|(y & Hy & Hp)]; [exists x|exists y]; split; try done;
        [left|by right].
    + intros (y & [->|Hy]%elem_of_cons & Hp); [by left|right; by exists y].
Qed.

Lemma parents_insert_marked i f field :
  controls f !! i = Some field ->
  parentNode <$> <[i := marked field]> (controls f)
  = parentNode <$> controls f.
Proof.
  intros Hi. rewrite list_fmap_insert.
  change (parentNode (marked field)) with (parentNode field).
  apply list_insert_id. by rewrite list_lookup_fmap, Hi.
Qed.

Lemma elem_of_parents (l l' : list Control) field :
  parentNode <$> l' = parentNode <$> l ->
  field ∈ l' -> exists field0, field0 ∈ l /\ parentNode field0 = parentNode field.
Proof.
  intros Heq Hin.
  assert (Hp : parentNode field ∈ parentNode <$> l).
  { rewrite <- Heq. apply list_elem_of_fmap. by exists field. }
  apply list_elem_of_fmap in Hp as (field0 & Hp & Hin0). by exists field0.
Qed.

Lemma within_ancestors f f' p q :
  ancestors f' = ancestors f -> within f' p q = within f p q.
Proof. unfold within. by intros ->. Qed.

(** Validating a control keeps a form separate and tidy. *)
Lemma separate_tidy_validateField i f :
  separate f -> tidy f ->
  separate (validateField i f).2 /\ tidy (validateField i f).2.
Proof.
  intros Hsep Htidy. destruct (controls f !! i) as [field|] eqn:Hi;
    [|by rewrite validateField_missing].
  destruct (validateField_run i f field Hi)
    as (_ & Hc & Hanc & Hown & Hother).
  pose proof (parents_insert_marked i f field Hi) as Hparents.
  rewrite <- Hc in Hparents.
  assert (Hfield : field ∈ controls f) by by eapply list_elem_of_lookup_2.
  split.
  - intros c c' Hin Hin' Hne q.
    destruct (elem_of_parents _ _ c Hparents Hin) as (c0 & Hin0 & Hp).
    destruct (elem_of_parents _ _ c' Hparents Hin') as (c0' & Hin0' & Hp').
    rewrite <- Hp, <- Hp' in Hne |- *.
    rewrite !(within_ancestors f _ _ _ Hanc). by apply Hsep.
  - intros c Hin.
    destruct (elem_of_parents _ _ c Hparents Hin) as (c0 & Hin0 & Hp).
    rewrite <- Hp.
    destruct (decide (parentNode c0 = parentNode field)) as [->|Hne].
    + rewrite Hown. pose proof (Htidy field Hfield) as Hlen.
      unfold shownFor.
      destruct (errorsBelow (parentNode field) f) as [|e [|e' rest]];
        destruct (verdict field).1; cbn in *; lia.
    + rewrite Hother; [by apply Htidy|].
      intros q. apply Hsep; done.
Qed.

Lemma separate_tidy_validateForm f :
  separate f -> tidy f ->
  separate (validateForm f).2 /\ tidy (validateForm f).2.
Proof.
  unfold validateForm. generalize (seq 0 (length (controls f))).
  intros l. generalize true. revert f.
  induction l as [|i l IH]; intros f b Hsep Htidy; [done|].
  cbn [foldl].
  destruct (separate_tidy_validateField i f Hsep Htidy) as [Hsep' Htidy'].
  destruct (validateField i f) as [v f1]. by apply IH.
Qed.

(** [validateForm] validates every control, not only up to the first
    invalid one: it returns [true] exactly when every control is valid,
    and afterwards every control carries the [error] class exactly when
    it is invalid (its value, type and [required] untouched).  The submit
    listener prevents the submit exactly when some control is invalid.
    In a form in which the parents of the controls lie apart (no parent
    of a control within the parent of another) and hold at most one
    error element each, this stays so.  It need not in a form where they
    are nested: [querySelector] then finds the error element of another
    control ([validateForm_nested]). *)
Theorem validateForm_marks (f : Form) :
  (validateForm f).1 = forallb (fun c => (verdict c).1) (controls f)
  /\ controls (validateForm f).2 = marked <$> controls f
  /\ (forall i field,
        controls (validateForm f).2 !! i = Some field ->
        errorClass field = negb (verdict field).1)
  /\ ((onSubmit f).1 = true
      <-> exists field, field ∈ controls f /\ (verdict field).1 = false)
  /\ (separate f -> tidy f ->
      separate (validateForm f).2 /\ tidy (validateForm f).2).
Proof.
  destruct (validateForm_prefix f (length (controls f))) as [Hv Hc]; [done|].
  rewrite firstn_all, drop_all, app_nil_r in Hc. rewrite firstn_all in Hv.
  fold (validateForm f) in Hv, Hc.
  split; [done|]. split; [done|]. split; [|split].
  - intros i field. rewrite Hc, list_lookup_fmap.
    destruct (controls f !! i) as [field0|]; [|done].
    intros [= <-]. done.
  - unfold onSubmit. destruct (validateForm f) as [v f1]. cbn [fst] in *.
    rewrite Hv, negb_true_iff. apply forallb_false.
  - apply separate_tidy_validateForm.
Qed.

Example validateForm_sample :
  (validateForm sampleForm).1 = false
  /\ errorClass <$> controls (validateForm sampleForm).2
     = [true; false; true]
  /\ errorsBelow 1 (validateForm sampleForm).2
     = [ {| textContent := requiredMessage; cssText := fieldErrorStyle |} ]
  /\ errorsBelow 2 (validateForm sampleForm).2
     = [ {| textContent := phoneMessage; cssText := fieldErrorStyle |} ].
Proof. repeat split; reflexivity. Qed.

(** Where the parent of one control holds the parent of another, the
    validation of the form leaves two error elements below the outer
    parent, and validating the outer control once its value is in order
    removes the error element of the inner control. *)
Example validateForm_nested :
  errorsBelow 0 (validateForm nestedForm).2
  = [ {| textContent := requiredMessage; cssText := fieldErrorStyle |};
      {| textContent := emailMessage; cssText := fieldErrorStyle |} ]
  /\ errorsBelow 1 (validateForm nestedForm).2
     = [ {| textContent := requiredMessage; cssText := fieldErrorStyle |} ]
  /\ errorsBelow 1
       (onBlur 0
          {| items :=
               setControl 0
                 (fun field =>
                    {| value := js "user@example.sa"; type := type field;
                       required := required field;
                       parentNode := parentNode field;
                       errorClass := errorClass field |})
                 (items (validateForm nestedForm).2);
             ancestors := ancestors nestedForm |})
     = [].
Proof. repeat split; reflexivity. Qed.

End FormRuns.

Section FieldErrors.
Import Theme.





End FieldErrors.

(** ** Image set-up *)

Section ImageFacts.
Import Theme.

Lemma optimizeFrom_attributed imgs : forall k,
  forallb (fun img => negb (unattributed img)) imgs = true ->
  optimizeFrom k imgs = imgs.
Proof.
  induction imgs as [|img imgs IH]; intros k; [done|].
  cbn [forallb optimizeFrom]. unfold unattributed at 1.
  destruct (loading img); cbn [negb andb]; [|done].
  intros Hall. by rewrite IH.
Qed.

Lemma optimizeFrom_late imgs : forall k,
  (3 < k)%nat ->
  forallb (fun img => negb (unattributed img)) (optimizeFrom k imgs) = true.
Proof.
  induction imgs as [|img imgs IH]; intros k Hk; [done|].
  cbn [optimizeFrom]. destruct (loading img) eqn:Hl; cbn [forallb].
  - unfold unattributed at 1. rewrite Hl. cbn. by apply IH.
  - apply Nat.ltb_lt in Hk as Hk'. rewrite Hk'. cbn. apply IH. lia.
Qed.

Lemma optimizeFrom_idempotent imgs : forall k,
  optimizeFrom k (optimizeFrom k imgs) = optimizeFrom k imgs.
Proof.
  induction imgs as [|img imgs IH]; intros k; [done|].
  cbn [optimizeFrom]. destruct (loading img) eqn:Hl.
  - cbn [optimizeFrom]. by rewrite Hl, IH.
  - destruct (Nat.ltb 3 k) eqn:Hk.
    + cbn [optimizeFrom set_loading loading]. f_equal.
      apply Nat.ltb_lt in Hk.
      apply optimizeFrom_attributed, optimizeFrom_late. lia.
    + cbn [optimizeFrom]. by rewrite Hl, Hk, IH.
Qed.

Lemma optimizeFrom_unattributed imgs : forall k,
  List.filter unattributed (optimizeFrom k imgs)
  = take (4 - k) (List.filter unattributed imgs).
Proof.
  induction imgs as [|img imgs IH]; intros k; [by destruct (4 - k)%nat|].
  cbn [optimizeFrom List.filter]. unfold unattributed at 2.
  destruct (loading img) eqn:Hl.
  - cbn [List.filter]. unfold unattributed at 1. by rewrite Hl, IH.
  - destruct (Nat.ltb 3 k) eqn:Hk.
    + apply Nat.ltb_lt in Hk. cbn [List.filter].
      rewrite IH. replace (4 - k)%nat with O by lia.
      replace (4 - S k)%nat with O by lia. done.
    + apply Nat.ltb_ge in Hk. cbn [List.filter]. unfold unattributed at 1.
      rewrite Hl, IH. replace (4 - k)%nat with (S (4 - S k)) by lia. done.
Qed.

Lemma optimizeFrom_pointwise imgs : forall k i img',
  optimizeFrom k imgs !! i = Some img' ->
  exists img, imgs !! i = Some img
    /\ (img' = img \/ (loading img = None /\ img' = set_loading "lazy" img)).
Proof.
  induction imgs as [|img imgs IH]; intros k i img'; [done|].
  cbn [optimizeFrom]. destruct (loading img) eqn:Hl.
  - destruct i as [|i]; cbn.
    + intros [= <-]. exists img. by split; [|left].
    + apply IH.
  - destruct (Nat.ltb 3 k); (destruct i as [|i]; cbn; [|by apply IH]).
    + intros [= <-]. exists img. split; [done|]. by right.
    + intros [= <-]. exists img. split; [done|]. by left.
Qed.

(** [optimizeImages] writes nothing but [loading="lazy"], and only into
    images that had no [loading] attribute.  Of those it leaves the first
    four in document order as they are (not the first three) and makes
    every later one lazy; and run again it changes nothing. *)
Theorem optimizeImages_lazy (imgs : list Img) :
  (forall i img',
     optimizeImages imgs !! i = Some img' ->
     exists img, imgs !! i = Some img
       /\ (img' = img
           \/ (loading img = None /\ img' = set_loading "lazy" img)))
  /\ List.filter unattributed (optimizeImages imgs)
     = take 4 (List.filter unattributed imgs)
  /\ optimizeImages (optimizeImages imgs) = optimizeImages imgs.
Proof.
  unfold optimizeImages. split; [apply optimizeFrom_pointwise|].
  split; [apply (optimizeFrom_unattributed imgs 0)|].
  apply optimizeFrom_idempotent.
Qed.

Lemma startsWith_refl_units s : startsWith s s = true.
Proof.
  induction s as [|c s IH]; [done|]. cbn. by rewrite N.eqb_refl.
Qed.

Lemma includes_app_r stem pat : includes (stem ++ pat) pat = true.
Proof.
  induction stem as [|c stem IH]; cbn [app].
  - destruct pat as [|p pat]; [done|].
    cbn [includes]. by rewrite startsWith_refl_units.
  - cbn [includes]. rewrite IH. apply orb_true_r.
Qed.

Lemma replaceToEnd_spec r replacement s :
  replaceToEnd r replacement s = s
  \/ exists stem e, s = stem ++ e /\ test r e = true
       /\ replaceToEnd r replacement s = stem ++ replacement.
Proof.
  induction s as [|c s IH]; cbn [replaceToEnd].
  - destruct (test r []) eqn:Ht; [|by left].
    right. by exists [], [].
  - destruct (test r (c :: s)) eqn:Ht.
    + right. by exists [], (c :: s).
    + destruct IH as [->|(stem & e & -> & He & ->)]; [by left|].
      right. by exists (c :: stem), e.
Qed.

Lemma replaceToEnd_found r replacement stem e :
  test r e = true ->
  exists stem' e', stem ++ e = stem' ++ e' /\ test r e' = true
    /\ replaceToEnd r replacement (stem ++ e) = stem' ++ replacement.
Proof.
  intros He. induction stem as [|c stem IH]; cbn [app].
  - exists [], e. split; [done|]. split; [done|].
    destruct e; cbn [replaceToEnd]; by rewrite He.
  - cbn [replaceToEnd]. destruct (test r (c :: stem ++ e)) eqn:Ht.
    + by exists [], (c :: stem ++ e).
    + destruct IH as (stem' & e' & Heq & He' & ->).
      exists (c :: stem'), e'. by rewrite Heq.
Qed.

Lemma Matches_LitsCI cs : forall s,
  Matches (LitsCI cs) s -> length s = length cs.
Proof.
  induction cs as [|c cs IH]; intros s; cbn [LitsCI].
  - by intros ->%Matches_Empty.
  - intros (s1 & s2 & -> & (c' & -> & _)%Matches_Class & Hs2%IH)%Matches_Seq.
    cbn. by rewrite Hs2.
Qed.

Lemma extension_shape e :
  test extensionRegex e = true ->
  exists ext, e = dot :: ext /\ (length ext = 3%nat \/ length ext = 4%nat).
Proof.
  rewrite test_spec. unfold extensionRegex.
  intros (d & ext & -> & ->%Matches_Lit
          & [[H|H]%Matches_Alt|H]%Matches_Alt)%Matches_Seq;
    apply Matches_LitsCI in H; exists ext; (split; [done|]); cbn in H; lia.
Qed.

(** The rewriting of a [data-src] replaces nothing but a final [.jpg],
    [.jpeg] or [.png] (in any case of letters) by [.webp]: the result is
    the source itself, or the source with such an extension cut off and
    [.webp] put in its place.  A source that is empty or holds [.webp]
    already stays as it is; a source that ends in such an extension and
    does not hold [.webp] is rewritten; and rewriting twice is rewriting
    once.  [setupImageOptimization] does this to the [data-src] of every
    image that has one when WebP is supported, does nothing otherwise,
    never touches a [loading] attribute, and run again changes
    nothing. *)
Theorem toWebP_rewrites (src : list N) :
  (toWebP src = src
   \/ exists stem ext,
        src = stem ++ dot :: ext
        /\ (length ext = 3%nat \/ length ext = 4%nat)
        /\ test extensionRegex (dot :: ext) = true
        /\ toWebP src = stem ++ js ".webp")
  /\ (isEmpty src = true \/ includes src (js ".webp") = true ->
        toWebP src = src)
  /\ (forall stem e,
        src = stem ++ e -> test extensionRegex e = true ->
        includes src (js ".webp") = false ->
        exists stem', toWebP src = stem' ++ js ".webp")
  /\ toWebP (toWebP src) = toWebP src
  /\ (forall imgs,
        setupImageOptimization false imgs = imgs
        /\ setupImageOptimization true imgs
           = (fun img =>
                match dataSrc img with
                | Some s => set_dataSrc (toWebP s) img
                | None => img
                end) <$> imgs
        /\ loading <$> setupImageOptimization true imgs = loading <$> imgs
        /\ setupImageOptimization true (setupImageOptimization true imgs)
           = setupImageOptimization true imgs).
Proof.
  assert (Hshape : toWebP src = src
            \/ exists stem ext,
                 src = stem ++ dot :: ext
                 /\ (length ext = 3%nat \/ length ext = 4%nat)
                 /\ test extensionRegex (dot :: ext) = true
                 /\ toWebP src = stem ++ js ".webp").
  { unfold toWebP.
    destruct (negb (isEmpty src) && negb (includes src (js ".webp")));
      [|by left].
    destruct (replaceToEnd_spec extensionRegex (js ".webp") src)
      as [->|(stem & e & -> & He & ->)]; [by left|].
    right. destruct (extension_shape e He) as (ext & -> & Hlen).
    by exists stem, ext. }
  assert (Hidem : forall s, toWebP (toWebP s) = toWebP s).
  { intros s. unfold toWebP at 2.
    destruct (negb (isEmpty s) && negb (includes s (js ".webp"))) eqn:Hg.
    - destruct (replaceToEnd_spec extensionRegex (js ".webp") s)
        as [Hsame|(stem & e & -> & He & Hrun)].
      + rewrite Hsame. unfold toWebP. by rewrite Hg.
      + unfold toWebP at 2. rewrite Hg, Hrun. unfold toWebP.
        rewrite includes_app_r. cbn [negb]. by rewrite andb_false_r.
    - unfold toWebP. by rewrite Hg. }
  split; [exact Hshape|]. split; [|split; [|split; [apply Hidem|]]].
  - intros Hskip. unfold toWebP.
    destruct Hskip as [-> | ->]; [done|]. cbn [negb]. by rewrite andb_false_r.
  - intros stem e -> He Hno. unfold toWebP. rewrite Hno.
    destruct (replaceToEnd_found extensionRegex (js ".webp") stem e He)
      as (stem' & e' & _ & _ & ->).
    destruct (isEmpty (stem ++ e)) eqn:Hempty; cbn [negb andb].
    + apply isEmpty_nil, app_eq_nil in Hempty as [-> ->]. done.
    + by exists stem'.
  - intros imgs.
    assert (Hmap : forall l, setupImageOptimization true l
              = (fun img =>
                   match dataSrc img with
                   | Some s => set_dataSrc (toWebP s) img
                   | None => img
                   end) <$> l).
    { intros l. unfold setupImageOptimization. apply list_fmap_ext.
      intros _ img _. destruct (dataSrc img) as [s|] eqn:Hs; [|done].
      unfold toWebP.
      destruct (negb (isEmpty s) && negb (includes s (js ".webp")));
        [done|].
      destruct img as [ld ds]. cbn in Hs. by subst. }
    split; [done|]. split; [done|]. split.
    + rewrite Hmap, <- list_fmap_compose. apply list_fmap_ext.
      intros _ img _. cbn. by destruct (dataSrc img).
    + rewrite !Hmap, <- list_fmap_compose. apply list_fmap_ext.
      intros _ img _. cbn. destruct (dataSrc img) as [s|] eqn:Hs; cbn.
      * by rewrite Hidem.
      * by rewrite Hs.
Qed.

Lemma toWebP_rewrites_witness :
  exists stem', toWebP (js "/media/Banner.JPEG") = stem' ++ js ".webp".
Proof.
  destruct (toWebP_rewrites (js "/media/Banner.JPEG"))
    as (_ & _ & Hends & _).
  apply (Hends (js "/media/Banner") (js ".JPEG")); reflexivity.
Defined.

Example toWebP_query_string :
  toWebP (js "/media/banner.jpg?v=2") = js "/media/banner.jpg?v=2".
Proof. reflexivity. Qed.

End ImageFacts.

(** ** The search box *)

Section SearchFacts.
Import Search.

Lemma onInput_run value s :
  settled s ->
  onInput value s
  = if Nat.leb 2 (length (Theme.trim value))
    then {| now := now s; nextId := S (nextId s);
            pending := [{| id := nextId s; due := (now s + 300)%nat;
                           query := Theme.trim value |}];
            searchTimeout := Some (nextId s);
            performSearch_calls := performSearch_calls s;
            resultsContainer := resultsContainer s |}
    else hideSearchResults
           {| now := now s; nextId := nextId s; pending := [];
              searchTimeout := searchTimeout s;
              performSearch_calls := performSearch_calls s;
              resultsContainer := resultsContainer s |}.
Proof.
  unfold settled, onInput. intros Hs.
  assert (Hclear : clearTimeout (searchTimeout s) s
            = {| now := now s; nextId := nextId s; pending := [];
                 searchTimeout := searchTimeout s;
                 performSearch_calls := performSearch_calls s;
                 resultsContainer := resultsContainer s |}).
  { destruct s as [t n p h calls box]. cbn in *.
    destruct p as [|tm [|tm' p]]; [| |done].
    - by destruct h.
    - destruct Hs as [-> _]. cbn. by rewrite Nat.eqb_refl. }
  rewrite Hclear. by destruct (Nat.leb 2 (length (Theme.trim value))).
Qed.

Lemma elapse_S d s : elapse (S d) s = tick (elapse d s).
Proof. done. Qed.

Lemma elapse_idle d s :
  pending s = [] ->
  elapse d s
  = {| now := (now s + d)%nat; nextId := nextId s; pending := [];
       searchTimeout := searchTimeout s;
       performSearch_calls := performSearch_calls s;
       resultsContainer := resultsContainer s |}.
Proof.
  intros Hp. induction d as [|d IH].
  - destruct s; cbn in *. subst. by rewrite Nat.add_0_r.
  - rewrite elapse_S, IH. unfold tick. cbn. by rewrite Nat.add_succ_r.
Qed.

Lemma elapse_one d s tm :
  pending s = [tm] -> (now s < due tm)%nat ->
  elapse d s
  = if Nat.leb (due tm) (now s + d)
    then {| now := (now s + d)%nat; nextId := nextId s; pending := [];
            searchTimeout := searchTimeout s;
            performSearch_calls
              := performSearch_calls s ++ [(due tm, query tm)];
            resultsContainer := resultsContainer s |}
    else {| now := (now s + d)%nat; nextId := nextId s; pending := [tm];
            searchTimeout := searchTimeout s;
            performSearch_calls := performSearch_calls s;
            resultsContainer := resultsContainer s |}.
Proof.
  intros Hp Hlt. induction d as [|d IH].
  - rewrite Nat.add_0_r. destruct (Nat.leb_spec (due tm) (now s)); [lia|].
    destruct s; cbn in *. by subst.
  - rewrite elapse_S, IH.
    destruct (Nat.leb_spec (due tm) (now s + d)) as [Hd|Hd].
    + destruct (Nat.leb_spec (due tm) (now s + S d)); [|lia].
      unfold tick. cbn. by rewrite Nat.add_succ_r.
    + unfold tick. cbn [now pending nextId searchTimeout
                          performSearch_calls resultsContainer List.filter].
      unfold isDue. rewrite Nat.add_succ_r.
      destruct (Nat.leb_spec (due tm) (S (now s + d))) as [Hd'|Hd'].
      * cbn. unfold performSearch. cbn.
        by replace (S (now s + d)) with (due tm) by lia.
      * done.
Qed.

Lemma step_settled value d s :
  settled s ->
  settled (elapse d (onInput value s))
  /\ now (elapse d (onInput value s)) = (now s + d)%nat
  /\ performSearch_calls (elapse d (onInput value s))
     = performSearch_calls s
       ++ (if Nat.leb 2 (length (Theme.trim value)) && Nat.leb 300 d
           then [((now s + 300)%nat, Theme.trim value)]
           else []).
Proof.
  intros Hs. rewrite (onInput_run _ _ Hs).
  destruct (Nat.leb 2 (length (Theme.trim value))); cbn [andb].
  - erewrite elapse_one; [|done|cbn; lia]. cbn [now due query].
    destruct (Nat.leb_spec (now s + 300) (now s + d)) as [Hd|Hd].
    + destruct (Nat.leb_spec 300 d); [|lia]. done.
    + destruct (Nat.leb_spec 300 d); [lia|].
      unfold settled. cbn. by rewrite app_nil_r.
  - rewrite elapse_idle.
    + unfold hideSearchResults, settled.
      destruct (resultsContainer s); cbn; by rewrite app_nil_r.
    + unfold hideSearchResults. by destruct (resultsContainer s).
Qed.

Lemma session_run events : forall s,
  settled s ->
  settled (session events s)
  /\ performSearch_calls (session events s)
     = performSearch_calls s ++ searched (now s) events.
Proof.
  induction events as [|[value d] events IH]; intros s Hs.
  - cbn. by rewrite app_nil_r.
  - destruct (step_settled value d s Hs) as (Hs' & Hnow & Hcalls).
    cbn [session foldl fst snd searched].
    destruct (IH _ Hs') as [Hset Hlog]. split; [done|].
    unfold session in Hlog. rewrite Hlog, Hcalls, Hnow.
    by rewrite <- app_assoc.
Qed.

Lemma searched_sound events : forall t0 t q,
  In (t, q) (searched t0 events) ->
  (2 <= length q)%nat
  /\ exists value d, In (value, d) events
       /\ q = Theme.trim value /\ (300 <= d)%nat.
Proof.
  induction events as [|[value d] events IH]; intros t0 t q; [done|].
  cbn [searched]. rewrite in_app_iff. intros [Hin|Hin].
  - revert Hin.
    destruct (Nat.leb_spec 2 (length (Theme.trim value))) as [Hlen|];
      [|done].
    destruct (Nat.leb_spec 300 d) as [Hd|]; [|done].
    intros [[= <- <-]|[]]. split; [done|].
    exists value, d. split; [by left|done].
  - destruct (IH _ _ _ Hin) as (Hlen & v & d' & Hev & Hq & Hd).
    split; [done|]. exists v, d'. split; [by right|done].
Qed.

(** The search input is debounced.  Over any session at the input,
    [performSearch] is called exactly for the inputs that were followed
    by 300 ms without another input event and whose trimmed value has at
    least two code units: in the order of the inputs, each 300 ms after
    its input and with the trimmed value as the query.  Every other
    input starts no search, and cancels the search that was pending. *)
Theorem search_debounced (events : list (list N * nat)) :
  performSearch_calls (session events initial) = searched 0 events
  /\ (forall t q,
        In (t, q) (performSearch_calls (session events initial)) ->
        (2 <= length q)%nat
        /\ exists value d, In (value, d) events
             /\ q = Theme.trim value /\ (300 <= d)%nat).
Proof.
  destruct (session_run events initial I) as [_ Hcalls].
  split; [done|]. rewrite Hcalls. apply searched_sound.
Qed.

Example search_burst :
  performSearch_calls
    (session [(Theme.js "v", 120%nat); (Theme.js "va", 120%nat);
              (Theme.js "vap", 120%nat); (Theme.js "vape ", 400%nat);
              (Theme.js " ", 1000%nat)] initial)
  = [(660%nat, Theme.js "vape")].
Proof. vm_compute. reflexivity. Qed.

End SearchFacts.

(** ** Start-up of the theme *)

Section BootFacts.
Import Boot.

Lemma foldl_invoke_foreign n d :
  foldl invoke d (replicate n foreign) = d.
Proof. induction n as [|n IH]; [done|]. cbn. apply IH. Qed.

Lemma dispatch_foreign n r ls calls :
  dispatch {| readyState := r; listeners := replicate n foreign ++ ls;
              called := calls |}
  = foldl invoke
      {| readyState := r; listeners := replicate n foreign ++ ls;
         called := calls |} ls.
Proof.
  unfold dispatch. cbn [listeners].
  by rewrite foldl_app, foldl_invoke_foreign.
Qed.

(** Whatever the moment the script is run at, the eight set-up methods
    of [init] are called once each, in the order of [init].  The three
    set-up methods that [init] defers to [DOMContentLoaded]
    ([setupImageOptimization], [setupIntersectionObserver] and
    [setupServiceWorker]) are called only when the script is run after
    the document has been parsed and before the event (a deferred
    script).  Run while the document is being parsed (its [readyState]
    is [loading]), the script calls [init] from a listener of the event,
    so the listener that [init] registers comes too late for that
    dispatch and is never invoked; run after the event, it registers a
    listener for an event that has passed. *)
Theorem late_setups_need_deferred_script (p : Phase) (n : nat) :
  called (loaded p n)
  = [setupLazyLoading; setupSmoothScrolling; setupFormValidation;
     setupCartFunctionality; setupSearchFunctionality;
     setupPerformanceOptimizations; setupAccessibility; setupAnalytics]
    ++ match p with
       | deferred => [setupImageOptimization; setupIntersectionObserver;
                      setupServiceWorker]
       | _ => []
       end
  /\ (p <> deferred ->
      last (listeners (loaded p n)) = Some whenReady
      /\ ~ In setupServiceWorker (called (loaded p n))).
Proof.
  destruct p as [| |[|]]; unfold loaded, script, init, document,
    addEventListener, set_readyState;
    cbn [readyState listeners called foldl call app];
    rewrite ?dispatch_foreign; cbn [foldl invoke init call called listeners
      readyState addEventListener app]; unfold init, addEventListener;
    cbn [foldl call called listeners readyState app].
  - split; [done|]. intros _. split; [by rewrite last_snoc|].
    intros Hin. repeat (destruct Hin as [Hin|Hin]; [done|]). done.
  - by split.
  - split; [done|]. intros _. split; [by rewrite last_snoc|].
    intros Hin. repeat (destruct Hin as [Hin|Hin]; [done|]). done.
  - split; [done|]. intros _. split; [by rewrite last_snoc|].
    intros Hin. repeat (destruct Hin as [Hin|Hin]; [done|]). done.
Qed.

End BootFacts.

(** ** The cart button and the notifications *)

Section CartFacts.
Import Cart.

Lemma run_callback_frame p tm :
  now (run_callback p tm) = now p
  /\ awaiting (run_callback p tm) = awaiting p
  /\ loading (button (run_callback p tm)) = loading (button p)
  /\ fetches (run_callback p tm) = fetches p
  /\ timers (run_callback p tm) = timers p ++ spawned (now p) [tm]
  /\ label (run_callback p tm) = default (label p) (restoreText tm)
  /\ notifications (run_callback p tm)
     = List.filter (fun x => negb (bool_decide (x.1 ∈ removed [tm])))
                   (notifications p).
Proof.
  unfold run_callback, spawned, removed, restoreText, label.
  destruct p as [t tms csrf b fs aw awc cc nn ns lr ds cs].
  destruct tm as [d [text|n|n|]]; cbn; rewrite ?app_nil_r;
    repeat (split; [done|]).
  - induction ns as [|x ns IH]; [done|]. cbn. by rewrite <- IH.
  - induction ns as [|x ns IH]; [done|]. cbn. by rewrite <- IH.
  - apply filter_ext_in_iff. intros x _.
    destruct (Nat.eqb_spec x.1 n) as [->|Hne].
    + rewrite bool_decide_eq_true_2; [done|]. set_solver.
    + rewrite bool_decide_eq_false_2; [done|]. set_solver.
  - induction ns as [|x ns IH]; [done|]. cbn. by rewrite <- IH.
Qed.

Lemma last_cons_default {A} (x : A) (l : list A) :
  last (x :: l) = Some (default x (last l)).
Proof.
  revert x. induction l as [|y l IH]; intros x; [done|].
  change (last (x :: y :: l)) with (last (y :: l)). rewrite IH. cbn.
  by destruct l.
Qed.

Lemma foldl_run_frame l : forall p,
  now (foldl run_callback p l) = now p
  /\ awaiting (foldl run_callback p l) = awaiting p
  /\ loading (button (foldl run_callback p l)) = loading (button p)
  /\ fetches (foldl run_callback p l) = fetches p
  /\ timers (foldl run_callback p l) = timers p ++ spawned (now p) l
  /\ label (foldl run_callback p l)
     = default (label p) (last (omap restoreText l))
  /\ notifications (foldl run_callback p l)
     = List.filter (fun x => negb (bool_decide (x.1 ∈ removed l)))
                   (notifications p).
Proof.
  induction l as [|tm l IH]; intros p.
  - cbn. rewrite app_nil_r. repeat (split; [done|]).
    induction (notifications p) as [|x ns IHn]; [done|]. cbn.
    rewrite bool_decide_eq_false_2 by set_solver. cbn. by rewrite <- IHn.
  - cbn [foldl].
    destruct (IH (run_callback p tm)) as (-> & -> & -> & -> & -> & -> & ->).
    destruct (run_callback_frame p tm) as (-> & -> & -> & -> & -> & -> & ->).
    repeat (split; [done|]). split; [|split].
    + rewrite <- app_assoc. f_equal. unfold spawned. cbn.
      by destruct (callback tm).
    + change (omap restoreText (tm :: l))
        with (match restoreText tm with
              | Some y => y :: omap restoreText l
              | None => omap restoreText l
              end).
      destruct (restoreText tm) as [text|]; cbn [default].
      * rewrite last_cons_default. done.
      * done.
    + induction (notifications p) as [|x ns IHn]; [done|].
      cbn [List.filter].
      assert (Hx : bool_decide (x.1 ∈ removed (tm :: l))
                = bool_decide (x.1 ∈ removed [tm])
                  || bool_decide (x.1 ∈ removed l)).
      { apply eq_true_iff_eq.
        rewrite orb_true_iff, !bool_decide_eq_true.
        change (tm :: l) with ([tm] ++ l). unfold removed.
        rewrite omap_app. apply elem_of_app. }
      rewrite Hx.
      destruct (bool_decide (x.1 ∈ removed [tm])); cbn [negb orb].
      * apply IHn.
      * cbn [List.filter].
        destruct (bool_decide (x.1 ∈ removed l)); cbn [negb];
          by rewrite IHn.
Qed.

Lemma tick_frame p :
  now (tick p) = S (now p)
  /\ awaiting (tick p) = awaiting p
  /\ loading (button (tick p)) = loading (button p)
  /\ fetches (tick p) = fetches p
  /\ timers (tick p)
     = List.filter (fun tm => negb (isDue (S (now p)) tm)) (timers p)
       ++ spawned (S (now p)) (List.filter (isDue (S (now p))) (timers p))
  /\ label (tick p)
     = default (label p)
         (last (omap restoreText
                  (List.filter (isDue (S (now p))) (timers p))))
  /\ notifications (tick p)
     = List.filter
         (fun x => negb (bool_decide
            (x.1 ∈ removed (List.filter (isDue (S (now p))) (timers p)))))
         (notifications p).
Proof.
  unfold tick.
  destruct (foldl_run_frame
              (List.filter (isDue (S (now p))) (timers p))
              (set_now (S (now p))
                 (set_timers
                    (List.filter (fun tm => negb (isDue (S (now p)) tm))
                       (timers p)) p)))
    as (-> & -> & -> & -> & -> & -> & ->).
  by destruct p.
Qed.

Lemma iter_tick_S d p : Nat.iter (S d) tick p = tick (Nat.iter d tick p).
Proof. done. Qed.

Lemma elapse_frame d p :
  now (Nat.iter d tick p) = (now p + d)%nat
  /\ awaiting (Nat.iter d tick p) = awaiting p
  /\ loading (button (Nat.iter d tick p)) = loading (button p)
  /\ fetches (Nat.iter d tick p) = fetches p.
Proof.
  induction d as [|d (IH1 & IH2 & IH3 & IH4)].
  - cbn. by rewrite Nat.add_0_r.
  - rewrite iter_tick_S. destruct (tick_frame (Nat.iter d tick p)) as (-> & -> & -> & -> & _).
    rewrite IH1, IH2, IH3, IH4. by rewrite Nat.add_succ_r.
Qed.

Lemma addToCart_frame p :
  (loading (button p) = true -> addToCart p = p)
  /\ (loading (button p) = false ->
      loading (button (addToCart p)) = true
      /\ awaiting (addToCart p) = S (awaiting p)
      /\ fetches (addToCart p)
         = fetches p
           ++ [cartAdd (getCSRFToken p) (productId (button p))
                 (match quantity (button p) with
                  | Some s => if String.eqb s EmptyString then one
                              else attribute s
                  | None => one
                  end)]
      /\ sent (addToCart p) = S (sent p)).
Proof.
  unfold addToCart, sent. split; intros ->; [done|]. destruct p. cbn.
  repeat (split; [done|]). rewrite List.filter_app, length_app. cbn. lia.
Qed.

Lemma addToCart_settle_frame r p :
  now (addToCart_settle r p) = now p
  /\ awaiting (addToCart_settle r p) = awaiting p
  /\ loading (button (addToCart_settle r p)) = false
  /\ sent (addToCart_settle r p) = sent p
  /\ notifications (addToCart_settle r p)
     = notifications p ++ [(nextNotification p, acknowledgement r)]
  /\ label (addToCart_settle r p)
     = (if succeeded r then addedMarkup else label p)
  /\ timers (addToCart_settle r p)
     = timers p
       ++ timersOf r (now p) (liveRegion p) (label p) (nextNotification p)
  /\ nextNotification (addToCart_settle r p) = S (nextNotification p).
Proof.
  unfold addToCart_settle, sent, label, timersOf, acknowledgement, succeeded.
  destruct p as [t tms csrf b fs aw awc cc nn ns lr ds cs].
  destruct r as [| | |[[|] [count|] total msg]]; destruct lr as [region|];
    cbn; rewrite ?List.filter_app, ?app_nil_r, <- ?app_assoc; done.
Qed.

Lemma step_guarded p e :
  guarded p ->
  guarded (step p e)
  /\ (sent (step p e) + awaiting p
      <= sent p + (if isReply e then 1 else 0) + awaiting (step p e))%nat.
Proof.
  unfold guarded. intros Hg. destruct e as [|r|r|d]; cbn [step isReply].
  - destruct (addToCart_frame p) as [Hbusy Hidle].
    destruct (loading (button p)) eqn:Hl.
    + rewrite Hbusy, Hl by done. split; [done|lia].
    + destruct (Hidle eq_refl) as (-> & -> & _ & ->). split; lia.
  - destruct (awaiting p) as [|k] eqn:Haw; cbv iota;
      [rewrite Haw; split; [done|lia]|].
    destruct (addToCart_settle_frame r (set_awaiting k p))
      as (_ & -> & -> & -> & _).
    assert (k = 0)%nat as -> by (destruct (loading (button p)); lia).
    replace (awaiting (set_awaiting 0 p)) with 0%nat by by destruct p.
    replace (sent (set_awaiting 0 p)) with (sent p) by by destruct p.
    split; [done|lia].
  - destruct (awaitingCount p) as [|k]; cbv iota; [split; [done|lia]|].
    assert (awaiting (updateCartCount_settle r (set_awaitingCount k p))
            = awaiting p
            /\ button (updateCartCount_settle r (set_awaitingCount k p))
               = button p
            /\ sent (updateCartCount_settle r (set_awaitingCount k p))
               = sent p) as (-> & -> & ->)
      by (destruct p, r; done).
    split; [done|lia].
  - destruct (elapse_frame d p) as (_ & -> & -> & Hf). unfold sent.
    rewrite Hf. split; [done|lia].
Qed.

Lemma run_guarded events : forall p,
  guarded p ->
  guarded (run events p)
  /\ (sent (run events p) + awaiting p
      <= sent p + length (List.filter isReply events)
         + awaiting (run events p))%nat.
Proof.
  induction events as [|e events IH]; intros p Hg; [split; [done|cbn; lia]|].
  destruct (step_guarded p e Hg) as [Hg' Hs].
  destruct (IH _ Hg') as [Hg'' Hs']. cbn [run foldl]. split; [done|].
  unfold run in Hs'. cbn [List.filter]. destruct (isReply e); cbn [length]; lia.
Qed.

(** The button sends one request at a time, and every reply frees it.
    On a page whose button carries [loading] exactly while a call of
    [addToCart] awaits its reply, this stays so whatever happens (clicks,
    replies, time passing): at most one call awaits its reply, and the
    requests sent never outnumber the replies received by more than one.
    A click on the button while it carries [loading] changes nothing at
    all.  And whatever the reply is (success, refusal, a body that is no
    JSON, a failed request), it removes [loading], puts exactly one
    notification into the body (the acknowledgement of the reply), sends
    no request to the cart, and the next click sends one. *)
Theorem addToCart_one_in_flight (events : list Event) (p : Page) :
  guarded p ->
  guarded (run events p)
  /\ (awaiting (run events p) <= 1)%nat
  /\ (sent (run events p)
      <= sent p + length (List.filter isReply events) + 1)%nat
  /\ (loading (button p) = true ->
      step p click = p
      /\ forall r,
           loading (button (step p (reply r))) = false
           /\ notifications (step p (reply r))
              = notifications p ++ [(nextNotification p, acknowledgement r)]
           /\ sent (step p (reply r)) = sent p
           /\ sent (step (step p (reply r)) click) = S (sent p)).
Proof.
  intros Hg. destruct (run_guarded events p Hg) as [Hg' Hs].
  assert (Hone : (awaiting (run events p) <= 1)%nat).
  { unfold guarded in Hg'. destruct (loading (button (run events p))); lia. }
  split; [done|]. split; [done|]. split; [lia|].
  intros Hl. split; [by apply addToCart_frame|]. intros r.
  unfold guarded in Hg. rewrite Hl in Hg. cbn [step]. rewrite Hg.
  destruct (addToCart_settle_frame r (set_awaiting 0 p))
    as (_ & _ & Hfree & Hsent & Hnote & _).
  replace (sent (set_awaiting 0 p)) with (sent p) in Hsent by by destruct p.
  replace (notifications (set_awaiting 0 p)) with (notifications p) in Hnote
    by by destruct p.
  replace (nextNotification (set_awaiting 0 p)) with (nextNotification p)
    in Hnote by by destruct p.
  split; [done|]. split; [done|]. split; [done|].
  destruct (addToCart_frame (addToCart_settle r (set_awaiting 0 p)))
    as [_ Hidle].
  destruct (Hidle Hfree) as (_ & _ & _ & ->). by rewrite Hsent.
Qed.

(** *** How long a notification stays *)

Lemma elem_of_List_filter {A} (f : A -> bool) (l : list A) (x : A) :
  x ∈ List.filter f l <-> x ∈ l /\ f x = true.
Proof. rewrite !list_elem_of_In. apply filter_In. Qed.

Lemma elem_of_spawned t l tm' :
  tm' ∈ spawned t l
  <-> exists tm n, tm ∈ l /\ callback tm = slideOut n
        /\ tm' = {| due := (t + 300)%nat; callback := removeNotification n |}.
Proof.
  unfold spawned. rewrite list_elem_of_omap. split.
  - intros (tm & Hin & Heq). destruct (callback tm) as [text|n|n|] eqn:Hc;
      try done. injection Heq as <-. by exists tm, n.
  - intros (tm & n & Hin & Hc & ->). exists tm. by rewrite Hc.
Qed.

Lemma elem_of_removed l n :
  n ∈ removed l <-> exists tm, tm ∈ l /\ callback tm = removeNotification n.
Proof.
  unfold removed. rewrite list_elem_of_omap. split.
  - intros (tm & Hin & Heq). destruct (callback tm) as [text|m|m|] eqn:Hc;
      try done. injection Heq as ->. by exists tm.
  - intros (tm & Hin & Hc). exists tm. by rewrite Hc.
Qed.

Lemma fired_due p tm :
  future p ->
  tm ∈ List.filter (isDue (S (now p))) (timers p) ->
  tm ∈ timers p /\ due tm = S (now p).
Proof.
  unfold future. rewrite Forall_forall, elem_of_List_filter.
  intros Hfut [Hin Hdue]. split; [done|].
  apply Hfut in Hin. apply Nat.leb_le in Hdue. lia.
Qed.

Lemma elem_of_tick_timers p tm :
  tm ∈ timers (tick p)
  <-> (tm ∈ timers p /\ (S (now p) < due tm)%nat)
      \/ exists tm0 n, tm0 ∈ timers p /\ (due tm0 <= S (now p))%nat
            /\ callback tm0 = slideOut n
            /\ tm = {| due := (S (now p) + 300)%nat;
                       callback := removeNotification n |}.
Proof.
  destruct (tick_frame p) as (_ & _ & _ & _ & -> & _).
  rewrite elem_of_app, elem_of_List_filter, elem_of_spawned.
  unfold isDue. rewrite negb_true_iff, Nat.leb_gt.
  split.
  - intros [H|(tm0 & n & Hin & Hc & ->)]; [by left|right].
    apply elem_of_List_filter in Hin as [Hin Hdue%Nat.leb_le].
    by exists tm0, n.
  - intros [H|(tm0 & n & Hin & Hdue & Hc & ->)]; [by left|right].
    exists tm0, n. rewrite elem_of_List_filter. by rewrite Nat.leb_le.
Qed.

Lemma tick_future p : future p -> future (tick p).
Proof.
  unfold future. rewrite !Forall_forall. intros Hfut tm.
  destruct (tick_frame p) as (-> & _).
  rewrite elem_of_tick_timers.
  intros [[Hin Hdue]|(tm0 & n & _ & _ & _ & ->)]; cbn; lia.
Qed.

Lemma tick_nextNotification p :
  nextNotification (tick p) = nextNotification p.
Proof.
  unfold tick.
  generalize (List.filter (isDue (S (now p))) (timers p)).
  generalize (List.filter (fun tm => negb (isDue (S (now p)) tm))
                (timers p)).
  intros kept fired.
  assert (Hfold : forall l q,
            nextNotification (foldl run_callback q l) = nextNotification q).
  { induction l as [|tm0 l IH]; intros q; [done|]. cbn [foldl].
    rewrite IH. unfold run_callback.
    by destruct q, (callback tm0). }
  rewrite Hfold. by destruct p.
Qed.

Lemma tick_fresh p : fresh p -> fresh (tick p).
Proof.
  unfold fresh. intros Hfresh tm n. rewrite tick_nextNotification.
  rewrite elem_of_tick_timers.
  intros [[Hin _]|(tm0 & m & Hin & _ & Hc & ->)] Hn.
  - by apply (Hfresh tm).
  - apply (Hfresh tm0); [done|]. left. cbn in Hn.
    destruct Hn as [Hn|Hn]; [done|]. by injection Hn as ->.
Qed.

Lemma elem_of_tick_notifications p y :
  y ∈ notifications (tick p)
  <-> y ∈ notifications p
      /\ ~ exists tm, tm ∈ timers p /\ (due tm <= S (now p))%nat
            /\ callback tm = removeNotification y.1.
Proof.
  destruct (tick_frame p) as (_ & _ & _ & _ & _ & _ & ->).
  rewrite elem_of_List_filter, negb_true_iff, bool_decide_eq_false.
  rewrite elem_of_removed. split; intros [Hin Hno]; (split; [done|]).
  - intros (tm & Htm & Hdue & Hc). apply Hno. exists tm. split; [|done].
    rewrite elem_of_List_filter. unfold isDue. by rewrite Nat.leb_le.
  - intros (tm & Htm & Hc). apply Hno. exists tm.
    apply elem_of_List_filter in Htm as [Htm Hdue%Nat.leb_le]. done.
Qed.

Lemma tick_shown x T p : shown x T p -> shown x T (tick p).
Proof.
  intros (Hid & Hfut & Hlive & Hgone).
  pose proof Hfut as Hfut'. unfold future in Hfut'.
  rewrite Forall_forall in Hfut'.
  assert (Hnow : now (tick p) = S (now p)) by apply tick_frame.
  unfold shown. rewrite tick_nextNotification, Hnow.
  split; [done|]. split; [by apply tick_future|]. split.
  - intros HT. destruct Hlive as (Hx & Hs & Hr & tm & Htm & Hc); [lia|].
    split; [|split; [|split]].
    + apply elem_of_tick_notifications. split; [done|].
      intros (tm' & Htm' & Hdue & Hc'). apply Hr in Hc'; [|done]. lia.
    + intros tm'. rewrite elem_of_tick_timers.
      intros [[Htm' _]|(tm0 & n & _ & _ & _ & ->)] Hc'; [by apply Hs|done].
    + intros tm'. rewrite elem_of_tick_timers.
      intros [[Htm' _]|(tm0 & n & Htm0 & Hdue & Hc0 & ->)] Hc';
        [by apply Hr|].
      cbn in Hc'. injection Hc' as ->. cbn.
      apply Hs in Hc0 as <-; [|done]. apply Hfut' in Htm0. lia.
    + destruct (decide (S (now p) < due tm)%nat) as [Hlater|Hdue].
      * exists tm. split; [|done]. apply elem_of_tick_timers. by left.
      * destruct Hc as [Hc|Hc].
        -- exists {| due := (S (now p) + 300)%nat;
                     callback := removeNotification x.1 |}.
           split; [|by right]. apply elem_of_tick_timers. right.
           exists tm, x.1. split; [done|]. split; [lia|done].
        -- apply Hr in Hc; [|done]. lia.
  - intros HT y. rewrite elem_of_tick_notifications. intros [Hy Hno] Heq.
    destruct (decide (T <= now p)%nat) as [Hpast|Hnot].
    + by apply (Hgone Hpast y).
    + destruct Hlive as (Hx & Hs & Hr & tm & Htm & Hc); [lia|].
      destruct Hc as [Hc|Hc].
      * apply Hs in Hc; [|done]. apply Hfut' in Htm. lia.
      * apply Hno. exists tm. split; [done|]. rewrite Heq.
        split; [|done]. apply Hr in Hc; [|done]. lia.
Qed.

Lemma elem_of_timersOf r t region text n tm :
  tm ∈ timersOf r t region text n ->
  (t < due tm)%nat
  /\ (tm = {| due := (t + 3000)%nat; callback := slideOut n |}
      \/ callback tm = clearLiveRegion
      \/ callback tm = restoreLabel text /\ due tm = (t + 2000)%nat
         /\ succeeded r = true).
Proof.
  unfold timersOf. rewrite !elem_of_app.
  intros [->%list_elem_of_singleton|[Hin|Hin]].
  - cbn. split; [lia|by left].
  - destruct region; [|by apply elem_of_nil in Hin].
    apply list_elem_of_singleton in Hin as ->. cbn. split; [lia|]. by right; left.
  - destruct (succeeded r); [|by apply elem_of_nil in Hin].
    apply list_elem_of_singleton in Hin as ->. cbn. split; [lia|].
    by right; right.
Qed.

Lemma settle_keeps_shown x T r p :
  shown x T p -> shown x T (addToCart_settle r p).
Proof.
  intros (Hid & Hfut & Hlive & Hgone).
  destruct (addToCart_settle_frame r p)
    as (Hnow & _ & _ & _ & Hns & _ & Htms & Hnn).
  unfold shown, future, tracks. rewrite Hnow, Hns, Htms, Hnn.
  split; [lia|]. split; [|split].
  - apply Forall_app. split; [done|]. apply Forall_forall.
    intros tm Htm. by apply elem_of_timersOf in Htm as [? _].
  - intros HT. destruct (Hlive HT) as (Hx & Hs & Hr & tm & Htm & Hc).
    split; [apply elem_of_app; by left|]. split; [|split].
    + intros tm'. rewrite elem_of_app.
      intros [Htm'|[_ H]%elem_of_timersOf] Hc'; [by apply Hs|].
      destruct H as [->|[H|[H _]]]; [|congruence|congruence].
      cbn in Hc'. injection Hc' as Heq. lia.
    + intros tm'. rewrite elem_of_app.
      intros [Htm'|[_ H]%elem_of_timersOf] Hc'; [by apply Hr|].
      destruct H as [->|[H|[H _]]]; [done|congruence|congruence].
    + exists tm. split; [|done]. apply elem_of_app. by left.
  - intros HT y. rewrite elem_of_app.
    intros [Hy| ->%list_elem_of_singleton]; [by apply Hgone|]. cbn. lia.
Qed.

Lemma shown_ext x T p q :
  now q = now p -> timers q = timers p ->
  notifications q = notifications p ->
  nextNotification q = nextNotification p ->
  shown x T p -> shown x T q.
Proof.
  unfold shown, future, tracks. by intros -> -> -> ->.
Qed.

Lemma step_shown x T p e : shown x T p -> shown x T (step p e).
Proof.
  intros Hshown. destruct e as [|r|r|d]; cbn [step].
  - apply (shown_ext x T p); [..|done]; unfold addToCart;
      destruct (loading (button p)); by destruct p.
  - destruct (awaiting p) as [|k]; [done|].
    apply settle_keeps_shown.
    apply (shown_ext x T p); [..|done]; by destruct p.
  - destruct (awaitingCount p) as [|k]; [done|].
    apply (shown_ext x T p); [..|done]; by destruct p, r.
  - induction d as [|d IH]; [done|]. rewrite iter_tick_S.
    by apply tick_shown.
Qed.

Lemma run_shown x T events : forall p,
  shown x T p -> shown x T (run events p).
Proof.
  induction events as [|e events IH]; intros p Hshown; [done|].
  cbn [run foldl]. apply IH. by apply step_shown.
Qed.

Lemma step_sound p e :
  future p /\ fresh p -> future (step p e) /\ fresh (step p e).
Proof.
  intros [Hfut Hfresh].
  assert (Hext : forall q, now q = now p -> timers q = timers p ->
            nextNotification q = nextNotification p ->
            future q /\ fresh q).
  { unfold future, fresh. by intros q -> -> ->. }
  destruct e as [|r|r|d]; cbn [step].
  - apply Hext; unfold addToCart; destruct (loading (button p));
      by destruct p.
  - destruct (awaiting p) as [|k]; [done|].
    destruct (addToCart_settle_frame r (set_awaiting k p))
      as (Hnow & _ & _ & _ & _ & _ & Htms & Hnn).
    unfold future, fresh. rewrite Hnow, Htms, Hnn.
    replace (now (set_awaiting k p)) with (now p) by by destruct p.
    replace (timers (set_awaiting k p)) with (timers p) by by destruct p.
    replace (nextNotification (set_awaiting k p))
      with (nextNotification p) by by destruct p.
    split.
    + apply Forall_app. split; [done|]. apply Forall_forall.
      intros tm Htm. by apply elem_of_timersOf in Htm as [? _].
    + intros tm n. rewrite elem_of_app.
      intros [Htm|[_ H]%elem_of_timersOf] Hc.
      * specialize (Hfresh tm n Htm Hc). lia.
      * destruct H as [->|[H|[H _]]].
        -- cbn in Hc. destruct Hc as [[= ->]|[=]]. lia.
        -- destruct Hc; congruence.
        -- destruct Hc; congruence.
  - destruct (awaitingCount p) as [|k]; [done|].
    apply Hext; by destruct p, r.
  - induction d as [|d [IH1 IH2]]; [done|]. rewrite iter_tick_S.
    split; [by apply tick_future|by apply tick_fresh].
Qed.

Lemma run_sound events : forall p,
  future p /\ fresh p -> future (run events p) /\ fresh (run events p).
Proof.
  induction events as [|e events IH]; intros p Hp; [done|].
  cbn [run foldl]. by apply IH, step_sound.
Qed.

Lemma settle_shows r p :
  future p -> fresh p ->
  shown (nextNotification p, acknowledgement r) (now p + 3300)
        (addToCart_settle r p).
Proof.
  intros Hfut Hfresh.
  destruct (addToCart_settle_frame r p)
    as (Hnow & _ & _ & _ & Hns & _ & Htms & Hnn).
  unfold shown, future, tracks. rewrite Hnow, Hns, Htms, Hnn. cbn [fst].
  split; [lia|]. split; [|split; [|lia]].
  - apply Forall_app. split; [done|]. apply Forall_forall.
    intros tm Htm. by apply elem_of_timersOf in Htm as [? _].
  - intros _. split; [apply elem_of_app; right; by apply list_elem_of_singleton|].
    split; [|split].
    + intros tm. rewrite elem_of_app.
      intros [Htm|[_ H]%elem_of_timersOf] Hc.
      * specialize (Hfresh tm _ Htm (or_introl Hc)). lia.
      * destruct H as [->|[H|[H _]]]; [cbn; lia|congruence|congruence].
    + intros tm. rewrite elem_of_app.
      intros [Htm|[_ H]%elem_of_timersOf] Hc.
      * specialize (Hfresh tm _ Htm (or_intror Hc)). lia.
      * destruct H as [->|[H|[H _]]]; [done|congruence|congruence].
    + exists {| due := (now p + 3000)%nat;
                callback := slideOut (nextNotification p) |}.
      split; [|by left]. apply elem_of_app. right. unfold timersOf.
      apply elem_of_app. left. by apply list_elem_of_singleton.
Qed.

(** Every notification stays for 3.3 seconds, whatever else happens.
    The notification that acknowledges a reply to [addToCart] is in the
    body from that reply on, through any clicks, replies and passing of
    time, exactly until 3300 ms have passed (3000 ms until it slides out
    and 300 ms more until it is removed): no other timer removes it
    earlier, and it is not left behind. *)
Theorem notification_lifetime (b : Button) (csrf : option (option string))
    (counts : list string) (before after : list Event) (r : Reply) :
  let p := run before (page b csrf counts) in
  awaiting p <> 0%nat ->
  let q := run after (step p (reply r)) in
  (nextNotification p, acknowledgement r) ∈ notifications q
  <-> (now q < now p + 3300)%nat.
Proof.
  intros p Haw q.
  assert (Hp : future p /\ fresh p).
  { apply run_sound. split; [by apply Forall_nil|]. intros tm n Htm.
    by apply elem_of_nil in Htm. }
  assert (Hq : shown (nextNotification p, acknowledgement r)
                 (now p + 3300) q).
  { apply run_shown. cbn [step]. destruct (awaiting p) as [|k] eqn:Hk;
      [done|].
    destruct Hp as [Hfut Hfresh].
    pose proof (settle_shows r (set_awaiting k p)) as Hs.
    replace (now (set_awaiting k p)) with (now p) in Hs by by destruct p.
    replace (nextNotification (set_awaiting k p))
      with (nextNotification p) in Hs by by destruct p.
    apply Hs.
    - unfold future in *. by destruct p.
    - unfold fresh in *. by destruct p. }
  destruct Hq as (_ & _ & Hlive & Hgone). split.
  - intros Hin. destruct (decide (now q < now p + 3300)%nat) as [|Hnot];
      [done|].
    exfalso. by apply (Hgone ltac:(lia) _ Hin).
  - intros HT. by apply Hlive.
Qed.

Lemma notification_lifetime_witness :
  (nextNotification (run [click; elapse 40] samplePage),
   acknowledgement rejected)
    ∈ notifications
        (run [elapse 3299; click]
           (step (run [click; elapse 40] samplePage) (reply rejected)))
  <-> (now (run [elapse 3299; click]
              (step (run [click; elapse 40] samplePage) (reply rejected)))
       < now (run [click; elapse 40] samplePage) + 3300)%nat.
Proof.
  refine (notification_lifetime sampleButton (Some (Some "token")) ["0"]
            [click; elapse 40] [elapse 3299; click] rejected _).
  vm_compute. discriminate.
Defined.

Lemma addToCart_one_in_flight_witness :
  guarded (run [click; click; elapse 40; reply rejected; click] samplePage).
Proof.
  exact (proj1 (addToCart_one_in_flight
                  [click; click; elapse 40; reply rejected; click]
                  samplePage eq_refl)).
Defined.

(** *** The label of the button *)

Lemma last_filter_keep {A} (f : A -> bool) (l : list A) (a : A) :
  last l = Some a -> f a = true -> last (List.filter f l) = Some a.
Proof.
  intros [l' ->]%last_Some Hf.
  rewrite List.filter_app. cbn. rewrite Hf. apply last_snoc.
Qed.

Lemma List_filter_comm {A} (f g : A -> bool) (l : list A) :
  List.filter f (List.filter g l) = List.filter g (List.filter f l).
Proof.
  induction l as [|x l IH]; [done|]. cbn.
  destruct (f x) eqn:Hf, (g x) eqn:Hg; cbn; rewrite ?Hf, ?Hg, IH; done.
Qed.

Lemma List_filter_all {A} (f : A -> bool) (l : list A) :
  (forall x, x ∈ l -> f x = true) -> List.filter f l = l.
Proof.
  induction l as [|x l IH]; [done|]. intros Hall. cbn.
  rewrite (Hall x) by by left. f_equal. apply IH. intros y Hy.
  apply Hall. by right.
Qed.

Lemma List_filter_none {A} (f : A -> bool) (l : list A) :
  (forall x, x ∈ l -> f x = false) -> List.filter f l = [].
Proof.
  induction l as [|x l IH]; [done|]. intros Hall. cbn.
  rewrite (Hall x) by by left. apply IH. intros y Hy.
  apply Hall. by right.
Qed.

Lemma last_restoreText l :
  last (omap restoreText l) = last (List.filter isRestore l) ≫= restoreText.
Proof.
  induction l as [|tm l IH] using rev_ind; [done|].
  rewrite omap_app, List.filter_app. cbn. unfold isRestore, restoreText.
  destruct (callback tm) as [text|n|n|] eqn:Hc; cbn;
    rewrite ?app_nil_r; try done.
  rewrite !last_snoc. cbn. by rewrite Hc.
Qed.

Lemma restores_tick p :
  restores (tick p)
  = List.filter (fun tm => negb (isDue (S (now p)) tm)) (restores p).
Proof.
  unfold restores. destruct (tick_frame p) as (_ & _ & _ & _ & -> & _).
  rewrite List.filter_app, List_filter_comm.
  rewrite (List_filter_none isRestore (spawned _ _)); [by rewrite app_nil_r|].
  intros tm (tm0 & n & _ & _ & ->)%elem_of_spawned. done.
Qed.

Lemma label_tick p :
  label (tick p)
  = default (label p)
      (last (List.filter (isDue (S (now p))) (restores p)) ≫= restoreText).
Proof.
  destruct (tick_frame p) as (_ & _ & _ & _ & _ & -> & _).
  rewrite last_restoreText. unfold restores. by rewrite List_filter_comm.
Qed.

Lemma tick_inOrder p :
  inOrder p -> inOrder (tick p) /\ finalLabel (tick p) = finalLabel p.
Proof.
  unfold inOrder, finalLabel. rewrite !Forall_forall.
  rewrite restores_tick, label_tick.
  assert (Hnow : now (tick p) = S (now p)) by apply tick_frame.
  rewrite Hnow. intros Hord.
  destruct (last (restores p)) as [tmL|] eqn:Hlast.
  - destruct (isDue (S (now p)) tmL) eqn:HdueL.
    + assert (Hall : forall tm, tm ∈ restores p ->
                isDue (S (now p)) tm = true).
      { intros tm Htm. destruct (Hord tm Htm) as [_ Hle].
        specialize (Hle tmL eq_refl). unfold isDue in *.
        apply Nat.leb_le. apply Nat.leb_le in HdueL. lia. }
      rewrite (List_filter_all _ _ Hall).
      rewrite List_filter_none
        by (intros tm Htm; by rewrite (Hall tm Htm)).
      rewrite Hlast. split; [by intros tm Htm%elem_of_nil|].
      cbn. by destruct (restoreText tmL).
    + rewrite (last_filter_keep _ _ tmL Hlast) by by rewrite HdueL.
      split.
      * intros tm [Htm _]%elem_of_List_filter.
        destruct (Hord tm Htm) as [Hbound Hle]. split; [lia|].
        intros tm' [= <-]. by apply Hle.
      * cbn. destruct (restoreText tmL) as [text|] eqn:Htext; [done|].
        exfalso. apply last_Some in Hlast as [l' Hl'].
        assert (Hin : tmL ∈ restores p)
          by (rewrite Hl'; apply elem_of_app; right; by left).
        apply elem_of_List_filter in Hin as [_ Hr].
        unfold isRestore, restoreText in *. by destruct (callback tmL).
  - apply last_None in Hlast. rewrite Hlast. cbn.
    split; [by intros tm Htm%elem_of_nil|done].
Qed.

Lemma elapse_inOrder d p :
  inOrder p ->
  inOrder (Nat.iter d tick p)
  /\ finalLabel (Nat.iter d tick p) = finalLabel p
  /\ (forall tm, tm ∈ restores (Nat.iter d tick p) -> tm ∈ restores p).
Proof.
  intros Hord. induction d as [|d (IH1 & IH2 & IH3)]; [done|].
  rewrite iter_tick_S. destruct (tick_inOrder _ IH1) as [Hord' Hfinal].
  split; [done|]. split; [by rewrite Hfinal|].
  intros tm. rewrite restores_tick.
  intros [Htm _]%elem_of_List_filter. by apply IH3.
Qed.

Lemma elapse_future d p : future p -> future (Nat.iter d tick p).
Proof.
  intros Hfut. induction d as [|d IH]; [done|].
  rewrite iter_tick_S. by apply tick_future.
Qed.

Lemma elapse_quiet d p :
  (forall tm, tm ∈ restores p -> (now p + d < due tm)%nat) ->
  label (Nat.iter d tick p) = label p
  /\ restores (Nat.iter d tick p) = restores p.
Proof.
  induction d as [|d IH]; intros Hlate; [done|].
  destruct IH as [IHl IHr]; [intros tm Htm; apply Hlate in Htm; lia|].
  rewrite iter_tick_S, label_tick, restores_tick, IHl, IHr.
  assert (Hnow : now (Nat.iter d tick p) = (now p + d)%nat)
    by apply elapse_frame.
  rewrite Hnow.
  assert (Hnone : forall tm, tm ∈ restores p ->
            isDue (S (now p + d)) tm = false).
  { intros tm Htm%Hlate. unfold isDue. apply Nat.leb_gt. lia. }
  rewrite (List_filter_none _ _ Hnone). split; [done|].
  apply List_filter_all. intros tm Htm. by rewrite (Hnone tm Htm).
Qed.

Lemma restores_settle r p :
  restores (addToCart_settle r p)
  = restores p
    ++ (if succeeded r
        then [{| due := (now p + 2000)%nat;
                 callback := restoreLabel (label p) |}]
        else []).
Proof.
  unfold restores.
  destruct (addToCart_settle_frame r p) as (_ & _ & _ & _ & _ & _ & -> & _).
  rewrite List.filter_app. f_equal. unfold timersOf.
  destruct (liveRegion p), (succeeded r); done.
Qed.

Lemma settle_inOrder r p :
  inOrder p -> future p -> inOrder (addToCart_settle r p).
Proof.
  unfold inOrder. rewrite restores_settle.
  assert (Hnow : now (addToCart_settle r p) = now p)
    by apply addToCart_settle_frame.
  rewrite Hnow. intros Hord Hfut.
  destruct (succeeded r); [|by rewrite app_nil_r].
  rewrite last_snoc. apply Forall_app. split.
  - eapply Forall_impl; [exact Hord|]. cbn. intros tm [Hbound _].
    split; [done|]. by intros tm' [= <-].
  - apply Forall_singleton. cbn. split; [done|]. by intros tm' [= <-].
Qed.

Lemma step_inOrder p e :
  inOrder p /\ future p -> inOrder (step p e) /\ future (step p e).
Proof.
  intros [Hord Hfut].
  assert (Hext : forall q, now q = now p -> timers q = timers p ->
            inOrder q /\ future q).
  { unfold inOrder, future, restores. by intros q -> ->. }
  destruct e as [|r|r|d]; cbn [step].
  - apply Hext; unfold addToCart; destruct (loading (button p));
      by destruct p.
  - destruct (awaiting p) as [|k]; [done|].
    destruct (Hext (set_awaiting k p)) as [Hord' Hfut'];
      [by destruct p..|].
    split; [by apply settle_inOrder|].
    destruct (addToCart_settle_frame r (set_awaiting k p))
      as (Hnow & _ & _ & _ & _ & _ & Htms & _).
    unfold future. rewrite Hnow, Htms. apply Forall_app. split; [done|].
    apply Forall_forall. intros tm Htm.
    by apply elem_of_timersOf in Htm as [? _].
  - destruct (awaitingCount p) as [|k]; [done|].
    apply Hext; by destruct p, r.
  - split; [by apply elapse_inOrder|by apply elapse_future].
Qed.

Lemma run_inOrder events : forall p,
  inOrder p /\ future p -> inOrder (run events p) /\ future (run events p).
Proof.
  induction events as [|e events IH]; intros p Hp; [done|].
  cbn [run foldl]. by apply IH, step_inOrder.
Qed.

Lemma success_then_wait data e p :
  inOrder p -> future p -> success data = true -> (2000 <= e)%nat ->
  label (Nat.iter e tick (addToCart_settle (json data) p)) = label p
  /\ restores (Nat.iter e tick (addToCart_settle (json data) p)) = [].
Proof.
  intros Hord Hfut Hok He.
  set (p1 := addToCart_settle (json data) p).
  assert (Hord1 : inOrder p1) by by apply settle_inOrder.
  assert (Hnow1 : now p1 = now p) by apply addToCart_settle_frame.
  assert (Hfut1 : future p1).
  { destruct (addToCart_settle_frame (json data) p)
      as (_ & _ & _ & _ & _ & _ & Htms & _).
    unfold future. fold p1 in Htms. rewrite Hnow1, Htms.
    apply Forall_app. split; [done|]. apply Forall_forall.
    intros tm Htm. by apply elem_of_timersOf in Htm as [? _]. }
  assert (Hres1 : restores p1
            = restores p ++ [{| due := (now p + 2000)%nat;
                                callback := restoreLabel (label p) |}]).
  { unfold p1. rewrite restores_settle. cbn [succeeded]. by rewrite Hok. }
  assert (Hfinal1 : finalLabel p1 = label p).
  { unfold finalLabel. by rewrite Hres1, last_snoc. }
  destruct (elapse_inOrder e p1 Hord1) as (Hord2 & Hfinal2 & Hsub).
  assert (Hno : forall tm, tm ∈ restores (Nat.iter e tick p1) -> False).
  { intros tm Htm.
    pose proof (elapse_future e p1 Hfut1) as Hfut2.
    unfold future in Hfut2. rewrite Forall_forall in Hfut2.
    assert (Hnow2 : now (Nat.iter e tick p1) = (now p1 + e)%nat)
      by apply elapse_frame.
    pose proof Htm as Htm'. apply elem_of_List_filter in Htm' as [Htm' _].
    apply Hfut2 in Htm'. apply Hsub in Htm.
    unfold inOrder in Hord1. rewrite Forall_forall in Hord1.
    destruct (Hord1 tm Htm) as [Hbound _]. lia. }
  assert (Hnone : restores (Nat.iter e tick p1) = []).
  { destruct (restores (Nat.iter e tick p1)) as [|tm l]; [done|].
    exfalso. apply (Hno tm). by left. }
  split; [|done]. rewrite <- Hfinal1, <- Hfinal2. unfold finalLabel.
  by rewrite Hnone.
Qed.

Lemma addToCart_keeps p :
  now (addToCart p) = now p
  /\ timers (addToCart p) = timers p
  /\ label (addToCart p) = label p.
Proof.
  unfold addToCart, label. destruct (loading (button p)); by destruct p.
Qed.

Lemma set_awaiting_keeps k p :
  now (set_awaiting k p) = now p
  /\ timers (set_awaiting k p) = timers p
  /\ label (set_awaiting k p) = label p
  /\ awaiting (set_awaiting k p) = k
  /\ button (set_awaiting k p) = button p.
Proof. by destruct p. Qed.

Lemma page_inOrder b csrf counts :
  inOrder (page b csrf counts) /\ future (page b csrf counts).
Proof. split; [apply Forall_nil|apply Forall_nil]; done. Qed.

(** Two seconds after an add has succeeded, nothing else having happened
    to the button, its label is again what it was when the reply came.
    That is the label the page was written with when no confirmation was
    being shown at that moment.  But when the button is clicked again and
    that add succeeds too while the confirmation of the first is still
    shown (less than two seconds after the first reply), what is restored
    is the confirmation: from then on the label is the confirmation
    markup, and no timer is left that would put the first label back. *)
Theorem label_after_success (b : Button) (csrf : option (option string))
    (counts : list string) (before : list Event) (d1 : Data) :
  let p := run before (page b csrf counts) in
  awaiting p <> 0%nat ->
  success d1 = true ->
  (forall e, (2000 <= e)%nat ->
     label (run [reply (json d1); elapse e] p) = label p)
  /\ (forall d2 gap1 gap2 e,
        restores p = [] ->
        success d2 = true ->
        (gap1 + gap2 < 2000)%nat ->
        (2000 <= e)%nat ->
        let q := run [reply (json d1); elapse gap1; click; elapse gap2;
                      reply (json d2); elapse e] p in
        label q = addedMarkup /\ restores q = []).
Proof.
  intros p Haw Hok1.
  destruct (run_inOrder before _ (page_inOrder b csrf counts))
    as [Hord Hfut].
  fold p in Hord, Hfut.
  destruct (awaiting p) as [|k] eqn:Hk; [done|]. clear Haw.
  destruct (set_awaiting_keeps k p) as (Hn0 & Ht0 & Hl0 & Ha0 & Hb0).
  assert (Hord0 : inOrder (set_awaiting k p)).
  { unfold inOrder, restores in *. by rewrite Hn0, Ht0. }
  assert (Hfut0 : future (set_awaiting k p)).
  { unfold future in *. by rewrite Hn0, Ht0. }
  split.
  - intros e He. cbn [run foldl step]. rewrite Hk.
    destruct (success_then_wait d1 e _ Hord0 Hfut0 Hok1 He) as [-> _].
    done.
  - intros d2 gap1 gap2 e Hnone Hok2 Hgap He q.
    set (p1 := addToCart_settle (json d1) (set_awaiting k p)).
    destruct (addToCart_settle_frame (json d1) (set_awaiting k p))
      as (Hn1 & Ha1 & Hb1 & _ & _ & Hl1 & _).
    fold p1 in Hn1, Ha1, Hb1, Hl1.
    cbn [succeeded] in Hl1. rewrite Hok1 in Hl1.
    assert (Hr1 : restores p1
              = [{| due := (now p + 2000)%nat;
                    callback := restoreLabel (label p) |}]).
    { unfold p1. rewrite restores_settle. cbn [succeeded].
      rewrite Hok1, Hn0, Hl0. unfold restores in *.
      by rewrite Ht0, Hnone. }
    set (p2 := Nat.iter gap1 tick p1).
    destruct (elapse_quiet gap1 p1) as [Hl2 Hr2].
    { intros tm. rewrite Hr1. intros ->%list_elem_of_singleton. cbn [due].
      rewrite Hn1, Hn0. lia. }
    destruct (elapse_frame gap1 p1) as (Hn2 & Ha2 & Hb2 & _).
    fold p2 in Hl2, Hr2, Hn2, Ha2, Hb2.
    set (p3 := addToCart p2).
    destruct (addToCart_keeps p2) as (Hn3 & Ht3 & Hl3).
    destruct (addToCart_frame p2) as [_ Hidle].
    destruct Hidle as (_ & Ha3 & _); [by rewrite Hb2|].
    fold p3 in Hn3, Ht3, Hl3, Ha3.
    set (p4 := Nat.iter gap2 tick p3).
    destruct (elapse_quiet gap2 p3) as [Hl4 Hr4].
    { intros tm. unfold restores. rewrite Ht3. fold (restores p2).
      rewrite Hr2, Hr1. intros ->%list_elem_of_singleton. cbn [due].
      rewrite Hn3, Hn2, Hn1, Hn0. lia. }
    destruct (elapse_frame gap2 p3) as (_ & Ha4 & _).
    fold p4 in Hl4, Hr4, Ha4.
    assert (Hq : q = Nat.iter e tick
                       (addToCart_settle (json d2)
                          (set_awaiting (awaiting p2) p4))).
    { unfold q. cbn [run foldl step]. rewrite Hk. fold p1 p2 p3 p4.
      by rewrite Ha4, Ha3. }
    assert (Hp4 : inOrder p4 /\ future p4).
    { replace p4 with (run [reply (json d1); elapse gap1; click;
                            elapse gap2] p).
      - apply run_inOrder. by split.
      - cbn [run foldl step]. by rewrite Hk. }
    destruct Hp4 as [Hord4 Hfut4].
    destruct (set_awaiting_keeps (awaiting p2) p4)
      as (Hn5 & Ht5 & Hl5 & _).
    destruct (success_then_wait d2 e (set_awaiting (awaiting p2) p4))
      as [Hlq Hrq]; [..|done|done|].
    { unfold inOrder, restores in *. by rewrite Hn5, Ht5. }
    { unfold future in *. by rewrite Hn5, Ht5. }
    rewrite Hq, Hlq, Hrq, Hl5, Hl4, Hl3, Hl2, Hl1. done.
Qed.

Lemma label_after_success_witness :
  (forall e, (2000 <= e)%nat ->
     label (run [reply (json {| success := true; cart_count := Some "3";
                                cart_total := None; message := None |});
                 elapse e]
              (run [click; elapse 40] samplePage))
     = label (run [click; elapse 40] samplePage))
  /\ label (run [reply (json {| success := true; cart_count := Some "3";
                                cart_total := None; message := None |});
                 elapse 500; click; elapse 300;
                 reply (json {| success := true; cart_count := Some "4";
                                cart_total := None; message := None |});
                 elapse 2000]
              (run [click; elapse 40] samplePage))
     = addedMarkup.
Proof.
  destruct (label_after_success sampleButton (Some (Some "token")) ["0"]
              [click; elapse 40]
              {| success := true; cart_count := Some "3";
                 cart_total := None; message := None |})
    as [Hone Htwo].
  - vm_compute. discriminate.
  - reflexivity.
  - split; [exact Hone|].
    apply (Htwo {| success := true; cart_count := Some "4";
                   cart_total := None; message := None |} 500%nat 300%nat
                2000%nat); [reflexivity|reflexivity|lia|lia].
Defined.

End CartFacts.
